(** * Spider Solitaire rules engine: a shallow embedding and its properties

    The development follows [src/lib/types.ts], [src/lib/gameLogic.ts] and
    [src/lib/gameStore.svelte.ts].  Arrays are lists (index 0 first), the
    numbers of the game state are integers, strings are strings.  The
    three sources of non-determinism of the program are explicit
    arguments: the clock ([Date.now()]), the module-level counter
    [globalCardId] and the values drawn from [Math.random()]. *)

From stdpp Require Import prelude strings pretty sorting.

Local Open Scope string_scope.
Local Open Scope Z_scope.
Local Open Scope list_scope.

(** ** types.ts *)

Inductive Suit := Spades | Hearts | Diamonds | Clubs.
Inductive Rank := RA | R2 | R3 | R4 | R5 | R6 | R7 | R8 | R9 | R10 | RJ | RQ | RK.
Inductive Difficulty := easy | medium | hard.

Global Instance Suit_eq_dec : EqDecision Suit.
Proof. solve_decision. Defined.
Global Instance Rank_eq_dec : EqDecision Rank.
Proof. solve_decision. Defined.
Global Instance Difficulty_eq_dec : EqDecision Difficulty.
Proof. solve_decision. Defined.

(** The string behind each member of the unions [Suit] and [Rank]. *)
Definition suit_str (s : Suit) : string :=
  match s with
  | Spades => "♠" | Hearts => "♥" | Diamonds => "♦" | Clubs => "♣"
  end.

Definition rank_str (r : Rank) : string :=
  match r with
  | RA => "A" | R2 => "2" | R3 => "3" | R4 => "4" | R5 => "5" | R6 => "6"
  | R7 => "7" | R8 => "8" | R9 => "9" | R10 => "10" | RJ => "J" | RQ => "Q"
  | RK => "K"
  end.

Record Card := mkCard {
  id : string;
  suit : Suit;
  rank : Rank;
  faceUp : bool
}.

Record Pile := mkPile { cards : list Card }.

Record CompletedSequence := mkCompletedSequence {
  cs_id : string;
  cs_suit : Suit
}.

Record GameState := mkGameState {
  tableau : list Pile;
  stock : list Card;
  completedSequences : list CompletedSequence;
  moves : Z;
  gameWon : bool;
  difficulty : Difficulty
}.

Global Instance Card_eq_dec : EqDecision Card.
Proof. solve_decision. Defined.
Global Instance Pile_eq_dec : EqDecision Pile.
Proof. solve_decision. Defined.
Global Instance CompletedSequence_eq_dec : EqDecision CompletedSequence.
Proof. solve_decision. Defined.
Global Instance GameState_eq_dec : EqDecision GameState.
Proof. solve_decision. Defined.

(** [{...card, faceUp: b}] *)
Definition setFaceUp (b : bool) (card : Card) : Card :=
  {| id := id card; suit := suit card; rank := rank card; faceUp := b |}.

(** ** Outcomes of fallible code

    Reading a property of [undefined] raises a [TypeError].  Spreading
    [undefined] into an object literal does not raise, but the object
    built is not a [Card]; the model stops there with [NotACard]. *)

Inductive failure := TypeError | NotACard.

Inductive result (A : Type) :=
  | Ok (a : A)
  | Fail (e : failure).
Arguments Ok {A} a.
Arguments Fail {A} e.

Global Instance result_ret : MRet result := fun A a => Ok a.
Global Instance result_bind : MBind result := fun A B f m =>
  match m with
  | Ok a => f a
  | Fail e => Fail e
  end.

Definition orFail {A} (e : failure) (o : option A) : result A :=
  match o with
  | Some a => Ok a
  | None => Fail e
  end.

Fixpoint foldlM {A B} (f : B → A → result B) (l : list A) (b : B) : result B :=
  match l with
  | [] => Ok b
  | x :: l' => b' ← f b x; foldlM f l' b'
  end.

(** ** gameLogic.ts *)

Definition allSuits : list Suit := [Spades; Hearts; Diamonds; Clubs].
Definition ranks : list Rank :=
  [RA; R2; R3; R4; R5; R6; R7; R8; R9; R10; RJ; RQ; RK].

Definition rankValues (r : Rank) : Z :=
  match r with
  | RA => 1 | R2 => 2 | R3 => 3 | R4 => 4 | R5 => 5 | R6 => 6 | R7 => 7
  | R8 => 8 | R9 => 9 | R10 => 10 | RJ => 11 | RQ => 12 | RK => 13
  end.

Definition suitsToUse (d : Difficulty) : list Suit :=
  match d with
  | easy => [Spades; Spades; Spades; Spades; Spades; Spades; Spades; Spades]
  | medium => [Spades; Spades; Spades; Spades; Hearts; Hearts; Hearts; Hearts]
  | hard => [Spades; Spades; Hearts; Hearts; Diamonds; Diamonds; Clubs; Clubs]
  end.

(** The template [`${gameTimestamp}-${suit}-${rank}-${globalCardId++}`]. *)
Definition cardId (gameTimestamp : Z) (s : Suit) (r : Rank) (n : nat) : string :=
  pretty gameTimestamp +:+ "-" +:+ suit_str s +:+ "-" +:+ rank_str r
    +:+ "-" +:+ pretty n.

(** [createDeck]: the two nested loops push one card per suit entry and
    rank; the pair carries the deck built so far and [globalCardId]. *)
Definition createDeck (d : Difficulty) (gameTimestamp : Z) (globalCardId : nat)
  : list Card * nat :=
  fold_left (fun acc s =>
    fold_left (fun '(deck, gid) r =>
      (deck ++ [ {| id := cardId gameTimestamp s r gid;
                    suit := s; rank := r; faceUp := false |} ], S gid))
      ranks acc)
    (suitsToUse d) ([], globalCardId).

(** [[shuffled[i], shuffled[j]] = [shuffled[j], shuffled[i]]].  Both
    indices lie inside the array in the source; outside, the model
    leaves the list as it is. *)
Definition swap (i j : nat) (l : list Card) : list Card :=
  match l !! i, l !! j with
  | Some a, Some b => <[j:=a]> (<[i:=b]> l)
  | _, _ => l
  end.

(** [shuffleDeck]: [rand i] is the value of
    [Math.floor(Math.random() * (i + 1))] drawn at loop index [i]. *)
Fixpoint shuffle_loop (rand : nat → nat) (i : nat) (shuffled : list Card) : list Card :=
  match i with
  | O => shuffled
  | S i' => shuffle_loop rand i' (swap i (rand i) shuffled)
  end.

Definition shuffleDeck (rand : nat → nat) (deck : list Card) : list Card :=
  shuffle_loop rand (length deck - 1) deck.

(** The inner loop of [initializeGame] for one column. *)
Definition deal_column (deck : list Card) (numCards : nat)
    (acc : list Card * nat) : result (list Card * nat) :=
  foldlM (fun '(col, cardIndex) row =>
            card ← orFail NotACard (deck !! cardIndex);
            mret (col ++ [setFaceUp (bool_decide (row = numCards - 1)%nat) card],
                  S cardIndex))
         (seq 0 numCards) acc.

Definition initializeGame (d : Difficulty) (gameTimestamp : Z)
    (globalCardId : nat) (rand : nat → nat) : result GameState :=
  let deck := shuffleDeck rand (createDeck d gameTimestamp globalCardId).1 in
  let tableau0 := replicate 10 (mkPile []) in
  '(tableau1, cardIndex) ←
    foldlM (fun '(tab, cardIndex) col =>
              let numCards := if bool_decide (col < 4)%nat then 6%nat else 5%nat in
              pile ← orFail TypeError (tab !! col);
              '(cs, cardIndex') ← deal_column deck numCards (cards pile, cardIndex);
              mret (<[col := mkPile cs]> tab, cardIndex'))
           (seq 0 10) (tableau0, 0%nat);
  mret {| tableau := tableau1;
          stock := drop cardIndex deck;
          completedSequences := [];
          moves := 0;
          gameWon := false;
          difficulty := d |}.

Definition canPlaceCard (cardToPlace : Card) (targetCard : option Card) : bool :=
  match targetCard with
  | None => true
  | Some t => bool_decide (rankValues (rank cardToPlace) = rankValues (rank t) - 1)
  end.

(** The loop of [getMovableCards]: every card is one rank above the next. *)
Fixpoint descending (cs : list Card) : bool :=
  match cs with
  | a :: (b :: _) as tl =>
      if bool_decide (rankValues (rank a) ≠ rankValues (rank b) + 1) then false
      else descending tl
  | _ => true
  end.

Definition getMovableCards (pile : Pile) (startIndex : nat) : list Card :=
  let cs := drop startIndex (cards pile) in
  if descending cs then cs else [].

Record CheckResult := mkCheckResult {
  completed : bool;
  startIndex : Z;
  cr_suit : option Suit
}.

(** The body of the scan of [checkForCompletedSequence] for one window. *)
Definition window_ok (sequence : list Card) : option Suit :=
  if negb (forallb faceUp sequence) then None
  else match sequence !! 0%nat with
       | None => None
       | Some c0 =>
           let s := suit c0 in
           if forallb (fun j =>
                match sequence !! j, ranks !! (12 - j)%nat with
                | Some c, Some expectedRank =>
                    negb (bool_decide (suit c ≠ s ∨ rank c ≠ expectedRank))
                | _, _ => false
                end) (seq 0 13)
           then Some s else None
       end.

(** The scan itself, for [i], [i - 1], ..., [0]. *)
Fixpoint scan_windows (cs : list Card) (i : nat) : CheckResult :=
  match window_ok (take 13 (drop i cs)) with
  | Some s => mkCheckResult true (Z.of_nat i) (Some s)
  | None =>
      match i with
      | O => mkCheckResult false (-1) None
      | S i' => scan_windows cs i'
      end
  end.

Definition checkForCompletedSequence (pile : Pile) : CheckResult :=
  if bool_decide (length (cards pile) < 13)%nat then mkCheckResult false (-1) None
  else scan_windows (cards pile) (length (cards pile) - 13).

(** [dealFromStock]: [state.stock[index]] is [undefined] for a pile
    beyond the end of the stock. *)
Definition dealFromStock (state : GameState) : result GameState :=
  if bool_decide (length (stock state) < 10)%nat then Ok state
  else
    newTableau ← mapM (fun '(index, pile) =>
                         card ← orFail NotACard (stock state !! index);
                         mret (mkPile (cards pile ++ [setFaceUp true card])))
                      (imap pair (tableau state));
    mret {| tableau := newTableau;
            stock := drop 10 (stock state);
            completedSequences := completedSequences state;
            moves := moves state + 1;
            gameWon := gameWon state;
            difficulty := difficulty state |}.

Record MeaningfulMove := mkMeaningfulMove {
  sourcePile : nat;
  cardIndex : nat;
  targetPile : nat;
  priority : Z;
  reason : string
}.

(** The backward loop of [getSequenceLengthFromEnd], on the cards below
    the last one, nearest first; [nextCard] is the card just above
    [currentCard]. *)
Fixpoint count_back (s : Suit) (nextCard : Card) (below : list Card) : nat :=
  match below with
  | [] => 0%nat
  | currentCard :: below' =>
      if negb (faceUp currentCard) || bool_decide (suit currentCard ≠ s) then 0%nat
      else if bool_decide (rankValues (rank currentCard) ≠ rankValues (rank nextCard) + 1)
           then 0%nat
           else S (count_back s currentCard below')
  end.

Definition getSequenceLengthFromEnd (pile : Pile) : nat :=
  match reverse (cards pile) with
  | [] => 0%nat
  | lastCard :: below =>
      if negb (faceUp lastCard) then 0%nat
      else S (count_back (suit lastCard) lastCard below)
  end.

(** [Array.prototype.sort] is a stable sort; with a consistent
    comparator, as the two of this program are, its result is the stable
    arrangement, whatever the algorithm.  [js_sort] builds it by
    insertion from the right. *)
Fixpoint sort_insert {A} (cmp : A → A → Z) (x : A) (l : list A) : list A :=
  match l with
  | [] => [x]
  | y :: l' => if bool_decide (cmp x y <= 0) then x :: y :: l'
               else y :: sort_insert cmp x l'
  end.

Definition js_sort {A} (cmp : A → A → Z) (l : list A) : list A :=
  foldr (sort_insert cmp) [] l.

(** [sourcePile.cards[cardIdx - 1]] behind the guard [cardIdx > 0]. *)
Definition cardBefore (cs : list Card) (cardIdx : nat) : option Card :=
  match cardIdx with
  | O => None
  | S k => cs !! k
  end.

(** The body of the innermost loop of [findMeaningfulMoves]: the move
    pushed for one target pile, if any. *)
Definition score_target (sourcePileIdx : nat) (src : Pile) (cardIdx : nat)
    (movableCards : list Card) (firstCard : Card) (wouldFlipCard : bool)
    (targetPileIdx : nat) (tgt : Pile) : list MeaningfulMove :=
  if bool_decide (targetPileIdx = sourcePileIdx) then []
  else
    let targetCard := last (cards tgt) in
    if negb (canPlaceCard firstCard targetCard) then []
    else match targetCard with
    | None =>
        [mkMeaningfulMove sourcePileIdx cardIdx targetPileIdx
           (if wouldFlipCard then 80 else 50)
           (if wouldFlipCard then "Move to empty & flip card" else "Move to empty column")]
    | Some targetCard =>
        if wouldFlipCard then
          [mkMeaningfulMove sourcePileIdx cardIdx targetPileIdx
             (if bool_decide (suit firstCard = suit targetCard) then 100 else 70)
             (if bool_decide (suit firstCard = suit targetCard)
              then "Join same suit & flip card" else "Flip a face-down card")]
        else if bool_decide (suit firstCard = suit targetCard) then
          let targetCurrentSeq := getSequenceLengthFromEnd tgt in
          let potentialNewSeq := (targetCurrentSeq + length movableCards)%nat in
          let sourceSeqFromMovedCards := length movableCards in
          if match cardBefore (cards src) cardIdx with
             | Some cb =>
                 faceUp cb && bool_decide (suit cb = suit firstCard)
                 && bool_decide (rankValues (rank cb) = rankValues (rank firstCard) + 1)
             | None => false
             end
          then []
          else if bool_decide (sourceSeqFromMovedCards < potentialNewSeq)%nat then
            [mkMeaningfulMove sourcePileIdx cardIdx targetPileIdx 60
               "Build longer sequence"]
          else []
        else []
    end.

(** The moves pushed by the three nested loops, in the order pushed. *)
Definition discovered_moves (state : GameState) : list MeaningfulMove :=
  concat (imap (fun sourcePileIdx src =>
    concat (imap (fun cardIdx card =>
      if negb (faceUp card) then []
      else
        let movableCards := getMovableCards src cardIdx in
        match movableCards with
        | [] => []
        | firstCard :: _ =>
            let wouldFlipCard :=
              match cardBefore (cards src) cardIdx with
              | Some cb => negb (faceUp cb)
              | None => false
              end in
            concat (imap (score_target sourcePileIdx src cardIdx movableCards
                            firstCard wouldFlipCard) (tableau state))
        end) (cards src))) (tableau state)).

Definition findMeaningfulMoves (state : GameState) : list MeaningfulMove :=
  js_sort (fun a b => priority b - priority a) (discovered_moves state).

Definition hasValidMoves (state : GameState) : bool :=
  if bool_decide (10 ≤ length (stock state))%nat
     && forallb (fun pile => bool_decide (0 < length (cards pile))%nat) (tableau state)
  then true
  else bool_decide (0 < length (findMeaningfulMoves state))%nat.

(** ** types.ts: the history record *)

Inductive MoveType := TMove | TDeal.

Record FlippedCard := mkFlippedCard {
  fc_pileIndex : nat;
  fc_cardId : string
}.

Record CompletedInfo := mkCompletedInfo {
  ci_pileIndex : nat;
  ci_cards : list Card;
  ci_suit : Suit;
  ci_flippedCard : option string
}.

Record MoveHistory := mkMoveHistory {
  mh_type : option MoveType;
  mh_from : Z;
  mh_to : Z;
  mh_cards : list Card;
  mh_flippedCard : option FlippedCard;
  mh_dealtCards : option (list (list Card));
  mh_completedSequences : option (list CompletedInfo)
}.

(** ** gameStore.svelte.ts

    The fields [gameKey] and [hint] serve the display only and are left
    out of the record; what [showHint] assigns to [hint] is given
    further down, as a function of the game. *)

Record SpiderSolitaireGame := mkGame {
  state : GameState;
  history : list MoveHistory;
  selectedPile : option nat;
  selectedCardIndex : option nat;
  initialState : GameState
}.

Definition canDeal (g : SpiderSolitaireGame) : bool :=
  bool_decide (10 ≤ length (stock (state g)))%nat
  && forallb (fun pile => bool_decide (0 < length (cards pile))%nat) (tableau (state g)).

Definition clearSelection (g : SpiderSolitaireGame) : SpiderSolitaireGame :=
  {| state := state g; history := history g;
     selectedPile := None; selectedCardIndex := None;
     initialState := initialState g |}.

(** "Flip the new top card if it exists and is face-down": the new
    cards and the id of the card turned, as [moveCards] and
    [checkCompletedSequences] both do. *)
Definition flipTop (cs : list Card) : list Card * option string :=
  match last cs with
  | Some c =>
      if negb (faceUp c) then (<[(length cs - 1)%nat := setFaceUp true c]> cs, Some (id c))
      else (cs, None)
  | None => (cs, None)
  end.

(** One pile of the [map] in [checkCompletedSequences]: the new pile,
    and what is pushed on [completedThisCheck] and
    [newCompletedSequences]; [now i] is [Date.now()] read at pile [i]. *)
Definition check_pile (now : nat → Z) (i : nat) (pile : Pile)
  : Pile * option (CompletedInfo * CompletedSequence) :=
  let result := checkForCompletedSequence pile in
  match completed result, cr_suit result with
  | true, Some s =>
      let start := Z.to_nat (startIndex result) in
      let completedCards := take 13 (drop start (cards pile)) in
      let '(remainingCards, flippedCardId) := flipTop (take start (cards pile)) in
      (mkPile remainingCards,
       Some ({| ci_pileIndex := i; ci_cards := completedCards; ci_suit := s;
                ci_flippedCard :=
                  match flippedCardId with
                  | Some fid => if bool_decide (fid = "") then None else Some fid
                  | None => None
                  end |},
             {| cs_id := suit_str s +:+ "-" +:+ pretty (now i) +:+ "-" +:+ pretty i;
                cs_suit := s |}))
  | _, _ => (pile, None)
  end.

(** [history[history.length - 1].completedSequences = completedThisCheck] *)
Definition attach_completed (cs : list CompletedInfo) (h : list MoveHistory)
  : list MoveHistory :=
  match last h with
  | Some e =>
      <[(length h - 1)%nat :=
          {| mh_type := mh_type e; mh_from := mh_from e; mh_to := mh_to e;
             mh_cards := mh_cards e; mh_flippedCard := mh_flippedCard e;
             mh_dealtCards := mh_dealtCards e;
             mh_completedSequences := Some cs |}]> h
  | None => h
  end.

Definition checkCompletedSequences (now : nat → Z) (g : SpiderSolitaireGame)
  : SpiderSolitaireGame :=
  let results := imap (check_pile now) (tableau (state g)) in
  let completedThisCheck := omap (fun r => fst <$> r.2) results in
  let newCompletedSequences :=
    completedSequences (state g) ++ omap (fun r => snd <$> r.2) results in
  let hasChanges := existsb (fun r => bool_decide (is_Some r.2)) results in
  if hasChanges then
    {| state := {| tableau := fst <$> results;
                   stock := stock (state g);
                   completedSequences := newCompletedSequences;
                   moves := moves (state g);
                   gameWon := bool_decide (length newCompletedSequences = 8%nat);
                   difficulty := difficulty (state g) |};
       history := if bool_decide (0 < length (history g))%nat
                     && bool_decide (0 < length completedThisCheck)%nat
                  then attach_completed completedThisCheck (history g)
                  else history g;
       selectedPile := selectedPile g;
       selectedCardIndex := selectedCardIndex g;
       initialState := initialState g |}
  else g.

Definition moveCards (now : nat → Z) (targetPileIndex : nat)
    (g : SpiderSolitaireGame) : result SpiderSolitaireGame :=
  match selectedPile g, selectedCardIndex g with
  | Some selPile, Some selIndex =>
      if bool_decide (selPile = targetPileIndex) then Ok (clearSelection g)
      else
        src ← orFail TypeError (tableau (state g) !! selPile);
        let cardsToMove := getMovableCards src selIndex in
        match cardsToMove with
        | [] => Ok (clearSelection g)
        | firstCard :: _ =>
            tgt ← orFail TypeError (tableau (state g) !! targetPileIndex);
            let targetCard := last (cards tgt) in
            if negb (canPlaceCard firstCard targetCard) then Ok (clearSelection g)
            else
              let '(newSourceCards, flipped) := flipTop (take selIndex (cards src)) in
              let historyEntry :=
                {| mh_type := None;
                   mh_from := Z.of_nat selPile;
                   mh_to := Z.of_nat targetPileIndex;
                   mh_cards := cardsToMove;
                   mh_flippedCard := mkFlippedCard selPile <$> flipped;
                   mh_dealtCards := None;
                   mh_completedSequences := None |} in
              let newTableau :=
                imap (fun idx pile =>
                        if bool_decide (idx = selPile) then mkPile newSourceCards
                        else if bool_decide (idx = targetPileIndex)
                             then mkPile (cards tgt ++ cardsToMove)
                             else pile) (tableau (state g)) in
              Ok (checkCompletedSequences now
                    {| state := {| tableau := newTableau;
                                   stock := stock (state g);
                                   completedSequences := completedSequences (state g);
                                   moves := moves (state g) + 1;
                                   gameWon := gameWon (state g);
                                   difficulty := difficulty (state g) |};
                       history := history g ++ [historyEntry];
                       selectedPile := None;
                       selectedCardIndex := None;
                       initialState := initialState g |})
        end
  | _, _ => Ok g
  end.

Definition deal (now : nat → Z) (g : SpiderSolitaireGame)
  : result SpiderSolitaireGame :=
  if negb (canDeal g) then Ok g
  else
    let dealtCards := (fun c => [c]) <$> take 10 (stock (state g)) in
    let historyEntry :=
      {| mh_type := Some TDeal; mh_from := -1; mh_to := -1; mh_cards := [];
         mh_flippedCard := None; mh_dealtCards := Some dealtCards;
         mh_completedSequences := None |} in
    state' ← dealFromStock (state g);
    Ok (checkCompletedSequences now
          {| state := state';
             history := history g ++ [historyEntry];
             selectedPile := None;
             selectedCardIndex := None;
             initialState := initialState g |}).

(** [array[z]] for a number [z] of the history record. *)
Definition lookupZ {A} (l : list A) (z : Z) : option A :=
  if bool_decide (0 ≤ z) then l !! Z.to_nat z else None.

(** [findIndex] by id followed by [cards[i] = {...cards[i], faceUp: false}]. *)
Definition flipBackById (cardId : string) (cs : list Card) : list Card :=
  match list_find (fun c => id c = cardId) cs with
  | Some (i, c) => <[i := setFaceUp false c]> cs
  | None => cs
  end.

(** One pile of the [map] that puts removed sequences back. *)
Definition restore_pile (css : list CompletedInfo) (idx : nat) (pile : Pile) : Pile :=
  match find (fun cs => bool_decide (ci_pileIndex cs = idx)) css with
  | Some restored =>
      let cs := cards pile ++ ci_cards restored in
      mkPile (match ci_flippedCard restored with
              | Some cardId => flipBackById cardId cs
              | None => cs
              end)
  | None => pile
  end.

(** The first step of both branches of [undo]: the completed sequences
    of the record are dropped from the list and put back on their piles. *)
Definition restore_completed (lastMove : MoveHistory) (s : GameState)
  : list CompletedSequence * list Pile :=
  match mh_completedSequences lastMove with
  | Some css =>
      if bool_decide (0 < length css)%nat then
        (take (length (completedSequences s) - length css) (completedSequences s),
         imap (restore_pile css) (tableau s))
      else (completedSequences s, tableau s)
  | None => (completedSequences s, tableau s)
  end.

(** The loop of [undo] that splits the target pile into the cards to
    move back and the others. *)
Definition split_moved (movedCardIds : list string) (n : nat) (tgt : list Card)
  : list Card * list Card :=
  fold_left (fun '(cardsToMoveBack, remainingTargetCards) card =>
               if bool_decide (id card ∈ movedCardIds)
                  && bool_decide (length cardsToMoveBack < n)%nat
               then (cardsToMoveBack ++ [card], remainingTargetCards)
               else (cardsToMoveBack, remainingTargetCards ++ [card]))
            tgt ([], []).

(** The state that [undo] assigns for the popped record [lastMove]. *)
Definition undo_state (lastMove : MoveHistory) (s : GameState) : result GameState :=
  let '(newCompletedSequences, newTableau) := restore_completed lastMove s in
  match mh_type lastMove, mh_dealtCards lastMove with
  | Some TDeal, Some dealtCards =>
      let newTableau' :=
        (fun pile => mkPile (take (length (cards pile) - 1) (cards pile))) <$> newTableau in
      Ok {| tableau := newTableau';
            stock := concat dealtCards ++ stock s;
            completedSequences := newCompletedSequences;
            moves := moves s - 1;
            gameWon := bool_decide (length newCompletedSequences = 8%nat);
            difficulty := difficulty s |}
  | _, _ =>
      let movedCardIds := id <$> mh_cards lastMove in
      tgt ← orFail TypeError (lookupZ newTableau (mh_to lastMove));
      let '(cardsToMoveBack, remainingTargetCards) :=
        split_moved movedCardIds (length (mh_cards lastMove)) (cards tgt) in
      let newTableau' :=
        imap (fun idx pile =>
                if bool_decide (Z.of_nat idx = mh_to lastMove)
                then mkPile remainingTargetCards
                else if bool_decide (Z.of_nat idx = mh_from lastMove) then
                  let cs := cards pile ++ cardsToMoveBack in
                  mkPile (match mh_flippedCard lastMove with
                          | Some fc =>
                              if bool_decide (fc_pileIndex fc = idx)
                              then flipBackById (fc_cardId fc) cs
                              else cs
                          | None => cs
                          end)
                else pile) newTableau in
      Ok {| tableau := newTableau';
            stock := stock s;
            completedSequences := newCompletedSequences;
            moves := moves s - 1;
            gameWon := bool_decide (length newCompletedSequences = 8%nat);
            difficulty := difficulty s |}
  end.

Definition undo (g : SpiderSolitaireGame) : result SpiderSolitaireGame :=
  match last (history g) with
  | None => Ok g
  | Some lastMove =>
      s ← undo_state lastMove (state g);
      Ok {| state := s;
            history := take (length (history g) - 1) (history g);
            selectedPile := None;
            selectedCardIndex := None;
            initialState := initialState g |}
  end.

(** The counting loop of [findBestMove], from the top card downwards;
    [current] is the card above [prev]. *)
Fixpoint ordered_scan (current : Card) (below : list Card) : nat * bool :=
  match below with
  | [] => (0%nat, false)
  | prev :: below' =>
      if negb (faceUp current) || negb (faceUp prev) then (0%nat, true)
      else if bool_decide (rankValues (rank prev) = rankValues (rank current) + 1) then
        let '(orderedCount, hasUnordered) := ordered_scan prev below' in
        (S orderedCount, hasUnordered)
      else (0%nat, true)
  end.

Record ValidMove := mkValidMove {
  vm_pileIndex : nat;
  vm_orderedCount : nat;
  vm_hasUnordered : bool
}.

Definition findBestMove (g : SpiderSolitaireGame) (sourcePileIndex cardIdx : nat)
  : result (option nat) :=
  src ← orFail TypeError (tableau (state g) !! sourcePileIndex);
  match getMovableCards src cardIdx with
  | [] => Ok None
  | firstCard :: _ =>
      let validMoves :=
        concat (imap (fun i tgt =>
          if bool_decide (i = sourcePileIndex) then []
          else if canPlaceCard firstCard (last (cards tgt)) then
            let '(orderedCount, hasUnordered) :=
              match reverse (cards tgt) with
              | [] => (0%nat, false)
              | top :: below =>
                  let '(n, u) := ordered_scan top below in (S n, u)
              end in
            [mkValidMove i orderedCount hasUnordered]
          else []) (tableau (state g))) in
      let sorted :=
        js_sort (fun a b =>
                   if bool_decide (vm_orderedCount a ≠ vm_orderedCount b)
                   then Z.of_nat (vm_orderedCount b) - Z.of_nat (vm_orderedCount a)
                   else if bool_decide (vm_hasUnordered a ≠ vm_hasUnordered b)
                        then (if vm_hasUnordered a then 1 else -1)
                        else 0) validMoves in
      Ok (vm_pileIndex <$> head sorted)
  end.

Definition setSelection (pileIndex cardIdx : nat) (g : SpiderSolitaireGame)
  : SpiderSolitaireGame :=
  {| state := state g; history := history g;
     selectedPile := Some pileIndex; selectedCardIndex := Some cardIdx;
     initialState := initialState g |}.

Definition selectCards (now : nat → Z) (pileIndex cardIdx : nat)
    (skipAutoMove : bool) (g : SpiderSolitaireGame) : result SpiderSolitaireGame :=
  pile ← orFail TypeError (tableau (state g) !! pileIndex);
  card ← orFail TypeError (cards pile !! cardIdx);
  if negb (faceUp card) then Ok g
  else match getMovableCards pile cardIdx with
  | [] => Ok g
  | _ :: _ =>
      if skipAutoMove then Ok (setSelection pileIndex cardIdx g)
      else
        bestPile ← findBestMove g pileIndex cardIdx;
        match bestPile with
        | Some b =>
            if bool_decide (b ≠ pileIndex)
            then moveCards now b (setSelection pileIndex cardIdx g)
            else Ok (setSelection pileIndex cardIdx g)
        | None => Ok (setSelection pileIndex cardIdx g)
        end
  end.

Definition newGame (d : option Difficulty) (gameTimestamp : Z) (globalCardId : nat)
    (rand : nat → nat) (g : SpiderSolitaireGame) : result SpiderSolitaireGame :=
  let diff := default (difficulty (state g)) d in
  s ← initializeGame diff gameTimestamp globalCardId rand;
  Ok {| state := s; history := []; selectedPile := None;
        selectedCardIndex := None; initialState := s |}.

Definition restartGame (g : SpiderSolitaireGame) : SpiderSolitaireGame :=
  {| state := initialState g; history := []; selectedPile := None;
     selectedCardIndex := None; initialState := initialState g |}.

(** The field initialisers of the class: two separate calls of
    [initializeGame('easy')], the second after the first has advanced
    [globalCardId]. *)
Definition newSpiderSolitaireGame (ts1 ts2 : Z) (globalCardId : nat)
    (rand1 rand2 : nat → nat) : result SpiderSolitaireGame :=
  s ← initializeGame easy ts1 globalCardId rand1;
  s0 ← initializeGame easy ts2 (createDeck easy ts1 globalCardId).2 rand2;
  Ok {| state := s; history := []; selectedPile := None;
        selectedCardIndex := None; initialState := s0 |}.

(** ** Notions used to state the properties *)

(** Number of cards of suit [s]. *)
Definition count_suit (s : Suit) (deck : list Card) : nat :=
  length (filter (fun c => suit c = s) deck).

Definition suit_counts (deck : list Card) : list nat :=
  (fun s => count_suit s deck) <$> allSuits.

(** The ranks of a completed sequence, bottom to top. *)
Definition kingToAce : list Rank :=
  [RK; RQ; RJ; R10; R9; R8; R7; R6; R5; R4; R3; R2; RA].

(** The 13 cards from index [i] are face up, of suit [s], and read
    K, Q, J, ..., A. *)
Definition window_at (cs : list Card) (i : nat) (s : Suit) : Prop :=
  rank <$> take 13 (drop i cs) = kingToAce
  ∧ Forall (fun c => faceUp c = true ∧ suit c = s) (take 13 (drop i cs)).

(** Each card is exactly one rank above the card on top of it. *)
Definition rank_chain (cs : list Card) : Prop :=
  ∀ i a b, cs !! i = Some a → cs !! S i = Some b →
           rankValues (rank a) = rankValues (rank b) + 1.

(** Two complete runs, one on top of the other. *)
Definition kingToAce_cards (s : Suit) : list Card :=
  (fun r => mkCard "" s r true) <$> kingToAce.

(** The piles after a deal: each pile with its card of the stock, face
    up, on top. *)
Definition deal_onto (tab : list Pile) (st : list Card) : list Pile :=
  zip_with (fun pile card => mkPile (cards pile ++ [setFaceUp true card])) tab st.

(** A game whose first pile is empty, with ten cards in the stock. *)
Definition game_with_empty_pile : SpiderSolitaireGame :=
  let s := {| tableau := mkPile [] ::
                ((fun i => mkPile [mkCard ("t" +:+ pretty i) Spades RK true]) <$> seq 1 9);
              stock := (fun i => mkCard ("s" +:+ pretty i) Spades RA false) <$> seq 0 10;
              completedSequences := [];
              moves := 3;
              gameWon := false;
              difficulty := easy |} in
  {| state := s; history := []; selectedPile := None; selectedCardIndex := None;
     initialState := s |}.

(** ** Well-formed games and reachable games *)

(** No face-down card lies above a face-up card. *)
Definition face_sorted (cs : list Card) : Prop :=
  ∀ i j c d, cs !! i = Some c → cs !! j = Some d → (i ≤ j)%nat →
             faceUp c = true → faceUp d = true.

Definition no_window (cs : list Card) : Prop :=
  ∀ i s, ¬ window_at cs i s.

(** A completed sequence, if any, ends at the top of the pile. *)
Definition top_only (cs : list Card) : Prop :=
  ∀ i s, window_at cs i s → (i + 13)%nat = length cs.

Definition all_cards (s : GameState) : list Card :=
  concat (cards <$> tableau s) ++ stock s.

(** The state between a move or deal and the removal of completed
    sequences. *)
Record pre_state (s : GameState) : Prop := mk_pre_state {
  pre_ids : NoDup (id <$> all_cards s);
  pre_ids_nonempty : "" ∉ id <$> all_cards s;
  pre_piles : Forall (fun p => face_sorted (cards p) ∧ top_only (cards p)) (tableau s);
  pre_len : length (tableau s) = 10%nat;
  pre_stock : (length (stock s) mod 10 = 0)%nat;
  pre_won : gameWon s = bool_decide (length (completedSequences s) = 8%nat)
}.

(** The states the game is in between two operations. *)
Record wf_state (s : GameState) : Prop := mk_wf_state {
  wf_ids : NoDup (id <$> all_cards s);
  wf_ids_nonempty : "" ∉ id <$> all_cards s;
  wf_piles : Forall (fun p => face_sorted (cards p) ∧ no_window (cards p)) (tableau s);
  wf_len : length (tableau s) = 10%nat;
  wf_stock : (length (stock s) mod 10 = 0)%nat;
  wf_won : gameWon s = bool_decide (length (completedSequences s) = 8%nat)
}.

(** The record of a deal holds the 10 cards dealt. *)
Definition record_ok (h : MoveHistory) : Prop :=
  match mh_dealtCards h with
  | Some dealtCards => length (concat dealtCards) = 10%nat
  | None => True
  end.

(** Every record of the history undoes to a well-formed state, which
    the records before it belong to. *)
Inductive hist_ok : GameState → list MoveHistory → Prop :=
  | hist_ok_nil s : hist_ok s []
  | hist_ok_snoc s s0 hs h :
      wf_state s0 → hist_ok s0 hs → record_ok h → undo_state h s = Ok s0 →
      hist_ok s (hs ++ [h]).

(** A pending selection points at a face-up card. *)
Definition sel_ok (g : SpiderSolitaireGame) : Prop :=
  ∀ p c, selectedPile g = Some p → selectedCardIndex g = Some c →
    ∃ pile card, tableau (state g) !! p = Some pile
                 ∧ cards pile !! c = Some card ∧ faceUp card = true.

Record game_ok (g : SpiderSolitaireGame) : Prop := mk_game_ok {
  ok_state : wf_state (state g);
  ok_hist : hist_ok (state g) (history g);
  ok_sel : sel_ok g;
  ok_init : wf_state (initialState g)
}.

(** The games that the operations of the store produce.  The page sets
    [selectedPile] and [selectedCardIndex] itself before an animated
    move, on a face-up card; that assignment is [reach_setSelection]. *)
Inductive reachable : SpiderSolitaireGame → Prop :=
  | reach_new ts1 ts2 gid rand1 rand2 g :
      newSpiderSolitaireGame ts1 ts2 gid rand1 rand2 = Ok g → reachable g
  | reach_newGame d ts gid rand g g' :
      reachable g → newGame d ts gid rand g = Ok g' → reachable g'
  | reach_restartGame g :
      reachable g → reachable (restartGame g)
  | reach_selectCards now p c skip g g' :
      reachable g → selectCards now p c skip g = Ok g' → reachable g'
  | reach_setSelection p c pile card g :
      reachable g → tableau (state g) !! p = Some pile →
      cards pile !! c = Some card → faceUp card = true →
      reachable (setSelection p c g)
  | reach_clearSelection g :
      reachable g → reachable (clearSelection g)
  | reach_moveCards now t g g' :
      reachable g → moveCards now t g = Ok g' → reachable g'
  | reach_deal now g g' :
      reachable g → deal now g = Ok g' → reachable g'
  | reach_undo g g' :
      reachable g → undo g = Ok g' → reachable g'.

(** The record [h] with [completedSequences] set. *)
Definition set_completed (css : option (list CompletedInfo)) (h : MoveHistory)
  : MoveHistory :=
  {| mh_type := mh_type h; mh_from := mh_from h; mh_to := mh_to h;
     mh_cards := mh_cards h; mh_flippedCard := mh_flippedCard h;
     mh_dealtCards := mh_dealtCards h;
     mh_completedSequences := css |}.

(** The record, the tableau and the game that [moveCards] builds for
    the run from [ci] of pile [sp], on pile [t], before the check for
    completed sequences. *)
Definition move_entry (sp ci t : nat) (src : Pile) : MoveHistory :=
  {| mh_type := None;
     mh_from := Z.of_nat sp;
     mh_to := Z.of_nat t;
     mh_cards := drop ci (cards src);
     mh_flippedCard := mkFlippedCard sp <$> (flipTop (take ci (cards src))).2;
     mh_dealtCards := None;
     mh_completedSequences := None |}.

Definition move_tableau (sp ci t : nat) (src tgt : Pile) (T : list Pile) : list Pile :=
  imap (fun idx pile =>
          if bool_decide (idx = sp) then mkPile (flipTop (take ci (cards src))).1
          else if bool_decide (idx = t) then mkPile (cards tgt ++ drop ci (cards src))
               else pile) T.

Definition moved_state (sp ci t : nat) (src tgt : Pile) (s : GameState) : GameState :=
  {| tableau := move_tableau sp ci t src tgt (tableau s);
     stock := stock s;
     completedSequences := completedSequences s;
     moves := moves s + 1;
     gameWon := gameWon s;
     difficulty := difficulty s |}.

Definition moved_game (sp ci t : nat) (src tgt : Pile) (g : SpiderSolitaireGame)
  : SpiderSolitaireGame :=
  {| state := moved_state sp ci t src tgt (state g);
     history := history g ++ [move_entry sp ci t src];
     selectedPile := None;
     selectedCardIndex := None;
     initialState := initialState g |}.

(** The same for [deal]. *)
Definition deal_entry (s : GameState) : MoveHistory :=
  {| mh_type := Some TDeal; mh_from := -1; mh_to := -1; mh_cards := [];
     mh_flippedCard := None;
     mh_dealtCards := Some ((fun c => [c]) <$> take 10 (stock s));
     mh_completedSequences := None |}.

Definition dealt_state (s : GameState) : GameState :=
  {| tableau := deal_onto (tableau s) (stock s);
     stock := drop 10 (stock s);
     completedSequences := completedSequences s;
     moves := moves s + 1;
     gameWon := gameWon s;
     difficulty := difficulty s |}.

Definition dealt_game (g : SpiderSolitaireGame) : SpiderSolitaireGame :=
  {| state := dealt_state (state g);
     history := history g ++ [deal_entry (state g)];
     selectedPile := None;
     selectedCardIndex := None;
     initialState := initialState g |}.

(** The layout that [initializeGame] deals from the shuffled deck. *)
Definition initial_layout (d : Difficulty) (deck : list Card) : GameState :=
  {| tableau :=
        [ mkPile ((setFaceUp false <$> take 5 deck) ++ (setFaceUp true <$> take 1 (drop 5 deck)));
          mkPile ((setFaceUp false <$> take 5 (drop 6 deck)) ++ (setFaceUp true <$> take 1 (drop 11 deck)));
          mkPile ((setFaceUp false <$> take 5 (drop 12 deck)) ++ (setFaceUp true <$> take 1 (drop 17 deck)));
          mkPile ((setFaceUp false <$> take 5 (drop 18 deck)) ++ (setFaceUp true <$> take 1 (drop 23 deck)));
          mkPile ((setFaceUp false <$> take 4 (drop 24 deck)) ++ (setFaceUp true <$> take 1 (drop 28 deck)));
          mkPile ((setFaceUp false <$> take 4 (drop 29 deck)) ++ (setFaceUp true <$> take 1 (drop 33 deck)));
          mkPile ((setFaceUp false <$> take 4 (drop 34 deck)) ++ (setFaceUp true <$> take 1 (drop 38 deck)));
          mkPile ((setFaceUp false <$> take 4 (drop 39 deck)) ++ (setFaceUp true <$> take 1 (drop 43 deck)));
          mkPile ((setFaceUp false <$> take 4 (drop 44 deck)) ++ (setFaceUp true <$> take 1 (drop 48 deck)));
          mkPile ((setFaceUp false <$> take 4 (drop 49 deck)) ++ (setFaceUp true <$> take 1 (drop 53 deck))) ];
      stock := drop 54 deck;
      completedSequences := [];
      moves := 0;
      gameWon := false;
      difficulty := d |}.

(** The selection and the target pile make a legal move: the selected
    run is movable and its first card can be placed on the target. *)
Definition legal_move (g : SpiderSolitaireGame) (t : nat) : Prop :=
  ∃ sp ci src tgt first rest,
    selectedPile g = Some sp ∧ selectedCardIndex g = Some ci ∧ sp ≠ t
    ∧ tableau (state g) !! sp = Some src ∧ tableau (state g) !! t = Some tgt
    ∧ getMovableCards src ci = first :: rest
    ∧ canPlaceCard first (last (cards tgt)) = true.

(** A legal selection and target that is rejected: same pile, no
    movable run, or a first card that cannot be placed. *)
Definition illegal_move (g : SpiderSolitaireGame) (t : nat) : Prop :=
  ∃ sp ci,
    selectedPile g = Some sp ∧ selectedCardIndex g = Some ci
    ∧ (sp = t
       ∨ ∃ src, tableau (state g) !! sp = Some src
           ∧ (getMovableCards src ci = []
              ∨ ∃ first rest tgt,
                  getMovableCards src ci = first :: rest
                  ∧ tableau (state g) !! t = Some tgt
                  ∧ canPlaceCard first (last (cards tgt)) = false)).

(** A game to try the operations on: a fresh game with the top card of
    pile 1 selected. *)
Definition demo_rand (i : nat) : nat := ((i * 7 + 3) mod (i + 1))%nat.

Definition demo_new : result SpiderSolitaireGame :=
  newSpiderSolitaireGame 1700000000000 1700000000001 0 demo_rand (fun _ => 0%nat).

Definition demo_fresh : SpiderSolitaireGame :=
  Eval vm_compute in
    match demo_new with
    | Ok g => g
    | Fail _ => game_with_empty_pile
    end.

Definition demo_game : SpiderSolitaireGame := setSelection 1 5 demo_fresh.

(** ** Notions for the hint advisor *)

(** Moving the run from [cardIdx] exposes a face-down card. *)
Definition flips_card (src : Pile) (cardIdx : nat) : bool :=
  match cardBefore (cards src) cardIdx with
  | Some cb => negb (faceUp cb)
  | None => false
  end.

(** The card just below the run is face up, of the suit of the run's
    first card and one rank above it. *)
Definition joined_below (src : Pile) (cardIdx : nat) (first : Card) : bool :=
  match cardBefore (cards src) cardIdx with
  | Some cb =>
      faceUp cb && bool_decide (suit cb = suit first)
      && bool_decide (rankValues (rank cb) = rankValues (rank first) + 1)
  | None => false
  end.

(** The scoring table as the specification words it: the third
    category asks that the same-suit run at the top of the destination,
    measured by walking back from the top, be strictly longer after the
    move, and that the moved run be not the tail of a longer same-suit
    run at the source. *)
Definition claimed_score (src tgt : Pile) (cardIdx : nat) (first : Card) : option Z :=
  let run := drop cardIdx (cards src) in
  match last (cards tgt) with
  | None => Some (if flips_card src cardIdx then 80 else 50)
  | Some top =>
      if flips_card src cardIdx then
        Some (if bool_decide (suit first = suit top) then 100 else 70)
      else if bool_decide (suit first = suit top)
              && bool_decide (getSequenceLengthFromEnd tgt
                              < getSequenceLengthFromEnd (mkPile (cards tgt ++ run)))%nat
              && negb (bool_decide (length run < getSequenceLengthFromEnd src)%nat)
      then Some 60
      else None
  end.

(** The scoring table as the code applies it: the third category looks
    at the first card of the run, the top card of the destination and
    the card just below the run. *)
Definition table_score (src tgt : Pile) (cardIdx : nat) (first : Card) : option Z :=
  match last (cards tgt) with
  | None => Some (if flips_card src cardIdx then 80 else 50)
  | Some top =>
      if flips_card src cardIdx then
        Some (if bool_decide (suit first = suit top) then 100 else 70)
      else if bool_decide (suit first = suit top) && faceUp top
              && negb (joined_below src cardIdx first)
      then Some 60
      else None
  end.

Definition reason_of (p : Z) : string :=
  if bool_decide (p = 50) then "Move to empty column"
  else if bool_decide (p = 80) then "Move to empty & flip card"
  else if bool_decide (p = 100) then "Join same suit & flip card"
  else if bool_decide (p = 70) then "Flip a face-down card"
  else "Build longer sequence".

(** A candidate move: a face-up card that starts a movable run, and
    another pile on which the card can be placed. *)
Definition candidate (s : GameState) (m : MeaningfulMove)
    (src tgt : Pile) (first : Card) : Prop :=
  tableau s !! sourcePile m = Some src
  ∧ cards src !! cardIndex m = Some first
  ∧ faceUp first = true
  ∧ rank_chain (drop (cardIndex m) (cards src))
  ∧ targetPile m ≠ sourcePile m
  ∧ tableau s !! targetPile m = Some tgt
  ∧ canPlaceCard first (last (cards tgt)) = true.


(** The moves pushed for one card of a pile: the body of the middle
    loop of [findMeaningfulMoves]. *)
Definition card_moves (s : GameState) (sp : nat) (src : Pile) (ci : nat)
    (card : Card) : list MeaningfulMove :=
  if negb (faceUp card) then []
  else
    match getMovableCards src ci with
    | [] => []
    | firstCard :: _ =>
        concat (imap (score_target sp src ci (getMovableCards src ci) firstCard
                        (flips_card src ci)) (tableau s))
    end.

(** A position with a run of mixed suits: pile 0 holds 9♣ 5♥ 4♠ and
    pile 1 holds 7♥ 6♥, all face up. *)
Definition mixed_run_state : GameState :=
  {| tableau :=
       [ mkPile [mkCard "c9" Clubs R9 true; mkCard "h5" Hearts R5 true;
                 mkCard "s4" Spades R4 true];
         mkPile [mkCard "h7" Hearts R7 true; mkCard "h6" Hearts R6 true];
         mkPile [mkCard "k2" Spades RK true]; mkPile [mkCard "k3" Spades RK true];
         mkPile [mkCard "k4" Hearts RK true]; mkPile [mkCard "k5" Hearts RK true];
         mkPile [mkCard "k6" Diamonds RK true]; mkPile [mkCard "k7" Diamonds RK true];
         mkPile [mkCard "k8" Clubs RK true]; mkPile [mkCard "k9" Clubs RK true] ];
     stock := [];
     completedSequences := [];
     moves := 12;
     gameWon := false;
     difficulty := hard |}.

(** A game one move from a completed sequence: pile 0 holds a face-down
    7♥ under K♠ ... 2♠, pile 1 a face-down J♥ under A♠, and A♠ is
    selected. *)
Definition almost_complete_game : SpiderSolitaireGame :=
  let s := {| tableau :=
                mkPile (mkCard "h7" Hearts R7 false
                        :: ((fun r => mkCard ("s" +:+ rank_str r) Spades r true)
                              <$> take 12 kingToAce))
                :: mkPile [mkCard "hJ" Hearts RJ false; mkCard "sA" Spades RA true]
                :: ((fun i => mkPile [mkCard ("k" +:+ pretty i) Clubs RK true])
                      <$> seq 2 8);
              stock := [];
              completedSequences := [];
              moves := 40;
              gameWon := false;
              difficulty := hard |} in
  {| state := s; history := []; selectedPile := Some 1%nat;
     selectedCardIndex := Some 1%nat; initialState := s |}.

(** Card [c] continues a same-suit run downwards from [first]. *)
Definition joins (first : Card) (c : Card) : bool :=
  faceUp c && bool_decide (suit c = suit first)
  && bool_decide (rankValues (rank c) = rankValues (rank first) + 1).

(** ** Notions for card ids *)

(** The text after the last dash of a string: for a card id, the value
    of [globalCardId] it was built with. *)
Fixpoint has_dash (s : string) : bool :=
  match s with
  | EmptyString => false
  | String c s' => bool_decide (String c EmptyString = "-") || has_dash s'
  end.

Fixpoint after_last_dash (s : string) : string :=
  match s with
  | EmptyString => EmptyString
  | String c s' =>
      if has_dash s' then after_last_dash s'
      else if bool_decide (String c EmptyString = "-") then s' else String c s'
  end.

(** ** gameStore.svelte.ts: rank table, hint and stuck flag *)

(** The table [values] of [getRankValue], and [values[rank] || 0] for
    the string of a [Rank]. *)
Definition values : list (string * Z) :=
  [("A", 1); ("2", 2); ("3", 3); ("4", 4); ("5", 5); ("6", 6); ("7", 7);
   ("8", 8); ("9", 9); ("10", 10); ("J", 11); ("Q", 12); ("K", 13)].

Definition getRankValue (r : Rank) : Z :=
  match find (fun kv => bool_decide (kv.1 = rank_str r)) values with
  | Some kv => if bool_decide (kv.2 = 0) then 0 else kv.2
  | None => 0
  end.

(** The object assigned to [hint]: a move of [findMeaningfulMoves], or
    the deal hint, whose pile and card fields are [-1]. *)
Record Hint := mkHint {
  h_sourcePile : Z;
  h_cardIndex : Z;
  h_targetPile : Z;
  h_priority : Z;
  h_reason : string
}.

Definition hint_of_move (m : MeaningfulMove) : Hint :=
  {| h_sourcePile := Z.of_nat (sourcePile m);
     h_cardIndex := Z.of_nat (cardIndex m);
     h_targetPile := Z.of_nat (targetPile m);
     h_priority := priority m;
     h_reason := reason m |}.

(** [showHint]: the value of [hint] when the method returns.  The timer
    that clears the hint 5 seconds later is left out. *)
Definition showHint (g : SpiderSolitaireGame) : option Hint :=
  match findMeaningfulMoves (state g) with
  | [] =>
      if canDeal g
      then Some (mkHint (-1) (-1) (-1) 100 "Deal new cards from stock")
      else None
  | m :: _ => Some (hint_of_move m)
  end.

Definition noMovesLeft (g : SpiderSolitaireGame) : bool :=
  negb (gameWon (state g)) && bool_decide (0 < moves (state g))
  && negb (hasValidMoves (state g)).

(** ** Notions for the auto-move *)

(** What [findBestMove] records for a target pile: the number of cards
    counted from the top, and whether the count stopped at a face-down
    card or a break in the ranks. *)
Definition rate_target (tgt : Pile) : nat * bool :=
  match reverse (cards tgt) with
  | [] => (0%nat, false)
  | top :: below => let '(n, u) := ordered_scan top below in (S n, u)
  end.

(** Pile [i] is a destination for a run that starts with [first] and
    comes from pile [p]. *)
Definition accepts (g : SpiderSolitaireGame) (p : nat) (first : Card)
    (i : nat) (tgt : Pile) : Prop :=
  tableau (state g) !! i = Some tgt ∧ i ≠ p
  ∧ canPlaceCard first (last (cards tgt)) = true.

(** The order of the comparator of [findBestMove] as one number. *)
Definition vm_key (v : ValidMove) : Z :=
  2 * Z.of_nat (vm_orderedCount v) + (if vm_hasUnordered v then 0 else 1).

(** The destinations collected by the loop of [findBestMove]. *)
Definition validMoves_of (g : SpiderSolitaireGame) (p : nat) (first : Card)
  : list ValidMove :=
  concat (imap (fun i tgt =>
    if bool_decide (i = p) then []
    else if canPlaceCard first (last (cards tgt)) then
      [mkValidMove i (rate_target tgt).1 (rate_target tgt).2]
    else []) (tableau (state g))).

(** ** Notions for games in progress *)

(** The games reached from [g0] by selections, moves, deals and undos. *)
Inductive played (g0 : SpiderSolitaireGame) : SpiderSolitaireGame → Prop :=
  | played_refl : played g0 g0
  | played_selectCards now p c skip g g' :
      played g0 g → selectCards now p c skip g = Ok g' → played g0 g'
  | played_setSelection p c pile card g :
      played g0 g → tableau (state g) !! p = Some pile →
      cards pile !! c = Some card → faceUp card = true →
      played g0 (setSelection p c g)
  | played_clearSelection g :
      played g0 g → played g0 (clearSelection g)
  | played_moveCards now t g g' :
      played g0 g → moveCards now t g = Ok g' → played g0 g'
  | played_deal now g g' :
      played g0 g → deal now g = Ok g' → played g0 g'
  | played_undo g g' :
      played g0 g → undo g = Ok g' → played g0 g'.

(** [undo] called [n] times. *)
Fixpoint undo_n (n : nat) (g : SpiderSolitaireGame) : result SpiderSolitaireGame :=
  match n with
  | O => Ok g
  | S n' => g' ← undo g; undo_n n' g'
  end.

(** A game on [mixed_run_state]. *)
Definition mixed_run_game : SpiderSolitaireGame :=
  {| state := mixed_run_state; history := []; selectedPile := None;
     selectedCardIndex := None; initialState := mixed_run_state |}.

(** A second game, started from [demo_fresh] on the hard level. *)
Definition demo_second : SpiderSolitaireGame :=
  Eval vm_compute in
    match newGame (Some hard) 1700000000002 208 demo_rand demo_fresh with
    | Ok g => g
    | Fail _ => game_with_empty_pile
    end.

Global Instance MeaningfulMove_eq_dec : EqDecision MeaningfulMove.
Proof. solve_decision. Defined.

(** ** Notions for the cards in play *)

(** The top card, if any, is face up. *)
Definition top_faceUp (cs : list Card) : Prop :=
  ∀ c, last cs = Some c → faceUp c = true.

(** The cards on the table and in the stock, plus 13 per completed
    sequence. *)
Definition card_total (s : GameState) : nat :=
  (length (all_cards s) + 13 * length (completedSequences s))%nat.

Record in_play (s : GameState) : Prop := mk_in_play {
  ip_tops : Forall (fun p => top_faceUp (cards p)) (tableau s);
  ip_total : card_total s = 104%nat
}.

(** [P] holds of every state that the records of the history lead back
    to. *)
Inductive hist_all (P : GameState → Prop) : GameState → list MoveHistory → Prop :=
  | hist_all_nil s : hist_all P s []
  | hist_all_snoc s s0 hs h :
      P s0 → hist_all P s0 hs → undo_state h s = Ok s0 →
      hist_all P s (hs ++ [h]).

(** The records of the history lead from [s] back to [s0]. *)
Inductive hist_to (s0 : GameState) : GameState → list MoveHistory → Prop :=
  | hist_to_nil : hist_to s0 s0 []
  | hist_to_snoc s s1 hs h :
      hist_to s0 s1 hs → undo_state h s = Ok s1 → hist_to s0 s (hs ++ [h]).

(** [P] holds of the state, of the states the history leads back to and
    of the initial state. *)
Definition lifted (P : GameState → Prop) (g : SpiderSolitaireGame) : Prop :=
  P (state g) ∧ hist_all P (state g) (history g) ∧ P (initialState g).

(** A won game: nothing on the table, nothing in the stock, 8 completed
    sequences. *)
Definition won_game : SpiderSolitaireGame :=
  let s := {| tableau := replicate 10 (mkPile []);
              stock := [];
              completedSequences :=
                (fun i => mkCompletedSequence ("♠-0-" +:+ pretty i) Spades) <$> seq 0 8;
              moves := 150;
              gameWon := true;
              difficulty := easy |} in
  {| state := s; history := []; selectedPile := None; selectedCardIndex := None;
     initialState := s |}.

(** * Properties *)

(** ** Deck Factory *)

Lemma createDeck_next d ts gid : (createDeck d ts gid).2 = (104 + gid)%nat.
Proof. destruct d; reflexivity. Qed.

Lemma createDeck_length d ts gid : length (createDeck d ts gid).1 = 104%nat.
Proof. destruct d; reflexivity. Qed.

Lemma createDeck_faceDown d ts gid :
  Forall (fun c => faceUp c = false) (createDeck d ts gid).1.
Proof.
  apply Forall_fmap with (f := faceUp) (P := fun b => b = false).
  destruct d; cbv -[cardId]; repeat constructor.
Qed.

Lemma createDeck_suits d ts gid :
  suit <$> (createDeck d ts gid).1 = s ← suitsToUse d; replicate 13 s.
Proof. destruct d; reflexivity. Qed.

Lemma createDeck_ranks d ts gid :
  rank <$> (createDeck d ts gid).1 = _ ← suitsToUse d; ranks.
Proof. destruct d; reflexivity. Qed.

(** C6, as amended: [createDeck] yields 104 face-down cards in 8
    sub-decks of the 13 ranks, one suit per sub-deck; the cards per suit
    are 104/0/0/0 for easy, 52/52/0/0 for medium and 26/26/26/26 for
    hard. *)
Theorem createDeck_distribution (d : Difficulty) (ts : Z) (gid : nat) :
  let deck := (createDeck d ts gid).1 in
  length deck = 104%nat
  ∧ Forall (fun c => faceUp c = false) deck
  ∧ length (suitsToUse d) = 8%nat
  ∧ (fun k => rank <$> take 13 (drop (13 * k) deck)) <$> seq 0 8 = replicate 8 ranks
  ∧ (fun k => suit <$> take 13 (drop (13 * k) deck)) <$> seq 0 8
    = replicate 13 <$> suitsToUse d
  ∧ suit_counts deck = match d with
                       | easy => [104; 0; 0; 0]
                       | medium => [52; 52; 0; 0]
                       | hard => [26; 26; 26; 26]
                       end%nat.
Proof.
  intros deck. split; [apply createDeck_length|].
  split; [apply createDeck_faceDown|].
  subst deck. destruct d; cbv -[cardId]; repeat split; reflexivity.
Qed.

(** C6, as stated, fails for hard: a suit has 26 cards, not 8. *)
Lemma createDeck_hard_not_8_per_suit :
  suit_counts (createDeck hard 0 0).1 ≠ [8; 8; 8; 8]%nat.
Proof. cbv -[cardId]. discriminate. Qed.

(** ** Layout Builder *)

Lemma swap_Permutation i j l : swap i j l ≡ₚ l.
Proof.
  unfold swap. destruct (l !! i) as [a|] eqn:Hi; [|done].
  destruct (l !! j) as [b|] eqn:Hj; [|done].
  by apply Permutation_insert_swap.
Qed.

Lemma shuffle_loop_Permutation rand i l : shuffle_loop rand i l ≡ₚ l.
Proof.
  revert l. induction i as [|i IH]; intros l; simpl; [done|].
  by rewrite IH, swap_Permutation.
Qed.

Lemma shuffleDeck_Permutation rand deck : shuffleDeck rand deck ≡ₚ deck.
Proof. apply shuffle_loop_Permutation. Qed.

Lemma shuffled_length d ts gid rand :
  length (shuffleDeck rand (createDeck d ts gid).1) = 104%nat.
Proof.
  rewrite (Permutation_length (shuffleDeck_Permutation _ _)).
  apply createDeck_length.
Qed.

Lemma shuffled_faceDown d ts gid rand :
  Forall (fun c => faceUp c = false) (shuffleDeck rand (createDeck d ts gid).1).
Proof.
  rewrite shuffleDeck_Permutation. apply createDeck_faceDown.
Qed.

(** A list of known length is a list of that many elements. *)
Ltac explode_list l H :=
  repeat (destruct l as [|? l]; [simpl in H; lia|]);
  try (destruct l; [|simpl in H; lia]).

Lemma initializeGame_deck (d : Difficulty) ts gid rand deck :
  deck = shuffleDeck rand (createDeck d ts gid).1 →
  initializeGame d ts gid rand =
    Ok (initial_layout d deck).
Proof.
  intros Hdeck. unfold initializeGame, initial_layout. rewrite <- Hdeck.
  pose proof (shuffled_length d ts gid rand) as Hlen. rewrite <- Hdeck in Hlen.
  clear Hdeck. explode_list deck Hlen. reflexivity.
Qed.

Lemma setFaceUp_setFaceUp b b' c : setFaceUp b (setFaceUp b' c) = setFaceUp b c.
Proof. reflexivity. Qed.

Lemma setFaceUp_id c : setFaceUp (faceUp c) c = c.
Proof. by destruct c. Qed.

Lemma setFaceUp_false_id b c : faceUp c = false → setFaceUp false (setFaceUp b c) = c.
Proof. intros H. rewrite setFaceUp_setFaceUp, <- H. apply setFaceUp_id. Qed.

Lemma fmap_faceUp_setFaceUp b (l : list Card) :
  faceUp <$> (setFaceUp b <$> l) = replicate (length l) b.
Proof. induction l as [|c l IH]; csimpl; [done|]. by rewrite IH. Qed.

Lemma fmap_setFaceUp_false_id b (l : list Card) :
  Forall (fun c => faceUp c = false) l →
  setFaceUp false <$> (setFaceUp b <$> l) = l.
Proof.
  induction 1 as [|c l H _ IH]; csimpl; [done|].
  by rewrite IH, setFaceUp_false_id.
Qed.

Lemma take_drop_glue {A} (n k m : nat) (l : list A) :
  m = (k + n)%nat → take n (drop k l) ++ drop m l = drop k l.
Proof. intros ->. by rewrite <- drop_drop, take_drop. Qed.

(** C7: [initializeGame] deals the shuffled deck in order: 6 cards to
    each of the first 4 piles and 5 to each of the other 6, 54 in all,
    the other 50 to the stock; in every pile exactly the last card is
    face up; no moves, not won, no completed sequence. *)
Theorem initializeGame_layout (d : Difficulty) (ts : Z) (gid : nat) (rand : nat → nat) :
  ∃ s, initializeGame d ts gid rand = Ok s
    ∧ (fun p => length (cards p)) <$> tableau s = [6; 6; 6; 6; 5; 5; 5; 5; 5; 5]%nat
    ∧ length (concat (cards <$> tableau s)) = 54%nat
    ∧ length (stock s) = 50%nat
    ∧ Forall (fun p => faceUp <$> cards p
                       = replicate (length (cards p) - 1) false ++ [true]) (tableau s)
    ∧ (setFaceUp false <$> concat (cards <$> tableau s)) ++ stock s
      = shuffleDeck rand (createDeck d ts gid).1
    ∧ completedSequences s = [] ∧ moves s = 0 ∧ gameWon s = false
    ∧ difficulty s = d.
Proof.
  eexists. split; [by apply initializeGame_deck|].
  pose proof (shuffled_length d ts gid rand) as Hlen.
  pose proof (shuffled_faceDown d ts gid rand) as Hfd.
  remember (shuffleDeck rand (createDeck d ts gid).1) as deck eqn:E. clear E.
  unfold initial_layout.
  cbn [tableau stock completedSequences moves gameWon difficulty].
  repeat split.
  - cbn. rewrite !length_app, !length_fmap, !length_take, !length_drop, Hlen.
    reflexivity.
  - rewrite length_concat. cbn.
    rewrite !length_app, !length_fmap, !length_take, !length_drop, Hlen.
    reflexivity.
  - by rewrite length_drop, Hlen.
  - repeat (apply Forall_cons_2 || apply Forall_nil_2); cbn [cards];
      rewrite fmap_app, !fmap_faceUp_setFaceUp, !length_app, !length_fmap,
        !length_take, !length_drop, Hlen; reflexivity.
  - cbn [fmap list_fmap cards concat]. rewrite app_nil_r, !fmap_app.
    rewrite !fmap_setFaceUp_false_id
      by eauto using Forall_take, Forall_drop.
    rewrite <- !(assoc (++)).
    rewrite !take_drop_glue by reflexivity.
    apply take_drop.
Qed.

(** ** Move Engine *)

Lemma descending_cons a b l :
  descending (a :: b :: l) = true ↔
  rankValues (rank a) = rankValues (rank b) + 1 ∧ descending (b :: l) = true.
Proof.
  cbn [descending]. case_bool_decide as H; [|tauto].
  split; [done|]. intros [? _]. done.
Qed.

Lemma descending_rank_chain cs : descending cs = true ↔ rank_chain cs.
Proof.
  induction cs as [|a [|b l] IH].
  - split; [|done]. by intros _ [|?] ???.
  - split; [|done]. intros _ [|[|?]] ? ? ? ?; simplify_eq/=.
  - rewrite descending_cons, IH. split.
    + intros [Hab Hl] [|i] x y Hx Hy; simplify_eq/=; [done|]. by apply (Hl i).
    + intros H. split; [by apply (H 0%nat)|].
      intros i x y Hx Hy. by apply (H (S i)).
Qed.

Lemma rank_chain_short cs : (length cs ≤ 1)%nat → rank_chain cs.
Proof.
  intros Hlen i a b Ha Hb. apply lookup_lt_Some in Hb. lia.
Qed.

(** C4: [getMovableCards] returns the cards from [startIndex] to the top
    of the pile exactly when each is one rank above the next, whatever
    the suits, and the empty run otherwise.  The function does not look
    at [faceUp]: the cards returned are face up when those of the pile
    from [startIndex] are. *)
Theorem getMovableCards_spec (pile : Pile) (startIndex : nat) :
  let run := drop startIndex (cards pile) in
  ((rank_chain run ∧ getMovableCards pile startIndex = run)
   ∨ (¬ rank_chain run ∧ getMovableCards pile startIndex = []))
  ∧ (getMovableCards pile startIndex = run ↔ rank_chain run)
  ∧ (Forall (fun c => faceUp c = true) run →
     Forall (fun c => faceUp c = true) (getMovableCards pile startIndex)).
Proof.
  intros run. unfold getMovableCards. fold run.
  destruct (descending run) eqn:Hd.
  - apply descending_rank_chain in Hd. tauto.
  - assert (¬ rank_chain run) as Hn.
    { rewrite <- descending_rank_chain. congruence. }
    split; [tauto|]. split; [|by constructor].
    split; [|tauto]. intros E. destruct Hn. apply rank_chain_short.
    rewrite <- E. simpl. lia.
Qed.

(** A run of mixed suits is movable. *)
Example getMovableCards_mixed_suits :
  getMovableCards
    (mkPile [mkCard "a" Spades R9 false; mkCard "b" Hearts R5 true;
             mkCard "c" Spades R4 true]) 1
  = [mkCard "b" Hearts R5 true; mkCard "c" Spades R4 true].
Proof. reflexivity. Qed.

(** ** Sequence Detector *)

Lemma ranks_from_king j : (j < 13)%nat → ranks !! (12 - j)%nat = kingToAce !! j.
Proof. intros H. do 13 (destruct j as [|j]; [reflexivity|]). lia. Qed.

Lemma forallb_seq_lt (f : nat → bool) n :
  forallb f (seq 0 n) = true ↔ ∀ j, (j < n)%nat → f j = true.
Proof.
  rewrite forallb_forall. split.
  - intros H j Hj. apply H, in_seq. lia.
  - intros H j Hj%in_seq. apply H. lia.
Qed.

Lemma forallb_Forall_true {A} (f : A → bool) l :
  forallb f l = true ↔ Forall (fun x => f x = true) l.
Proof.
  rewrite forallb_forall, Forall_forall. by setoid_rewrite list_elem_of_In.
Qed.

(** What the body of the scan decides, card by card. *)
Lemma window_ok_pointwise (sequence : list Card) (s : Suit) :
  window_ok sequence = Some s ↔
  Forall (fun c => faceUp c = true) sequence
  ∧ ∀ j, (j < 13)%nat →
      ∃ c, sequence !! j = Some c ∧ suit c = s ∧ Some (rank c) = kingToAce !! j.
Proof.
  unfold window_ok. rewrite <- forallb_Forall_true.
  destruct (forallb faceUp sequence); cbn [negb];
    [|split; [done|by intros [? _]]].
  destruct (sequence !! 0%nat) as [c0|] eqn:H0.
  2: { split; [done|]. intros [_ H]. destruct (H 0%nat) as (c & Hc & _); [lia|].
       congruence. }
  match goal with |- context [forallb ?f _] => destruct (forallb f (seq 0 13)) eqn:Hall end.
  - rewrite forallb_seq_lt in Hall. split.
    + intros [= <-]. split; [done|]. intros j Hj. specialize (Hall j Hj).
      destruct (sequence !! j) as [c|]; [|done].
      rewrite ranks_from_king in Hall by done.
      destruct (kingToAce !! j) as [r|]; [|done].
      apply negb_true_iff, bool_decide_eq_false in Hall.
      exists c. split; [done|].
      split.
      * destruct (decide (suit c = suit c0)); [done|]. destruct Hall. by left.
      * destruct (decide (rank c = r)) as [->|]; [done|]. destruct Hall. by right.
    + intros [_ H]. destruct (H 0%nat) as (c & Hc & Hs & _); [lia|]. congruence.
  - split; [done|]. intros [_ H]. exfalso.
    assert (Hall' : forallb (fun j =>
                match sequence !! j, ranks !! (12 - j)%nat with
                | Some c, Some expectedRank =>
                    negb (bool_decide (suit c ≠ suit c0 ∨ rank c ≠ expectedRank))
                | _, _ => false
                end) (seq 0 13) = true); [|congruence].
    apply forallb_seq_lt. intros j Hj.
    destruct (H 0%nat) as (c' & Hc' & Hs' & _); [lia|]. simplify_eq.
    destruct (H j Hj) as (c & -> & Hs & Hr).
    rewrite ranks_from_king, <- Hr by done.
    apply negb_true_iff, bool_decide_eq_false. intros [?|?]; congruence.
Qed.

Lemma window_at_pointwise (sequence : list Card) (s : Suit) :
  (length sequence ≤ 13)%nat →
  (rank <$> sequence = kingToAce
   ∧ Forall (fun c => faceUp c = true ∧ suit c = s) sequence) ↔
  Forall (fun c => faceUp c = true) sequence
  ∧ ∀ j, (j < 13)%nat →
      ∃ c, sequence !! j = Some c ∧ suit c = s ∧ Some (rank c) = kingToAce !! j.
Proof.
  intros Hlen. split.
  - intros [Hr Hf]. split; [eapply Forall_impl; [done|by intros ? [? _]]|].
    intros j Hj.
    assert (length sequence = 13%nat) as Hl13.
    { by rewrite <- (length_fmap rank), Hr. }
    destruct (lookup_lt_is_Some_2 sequence j) as [c Hc]; [lia|].
    exists c. split; [done|]. split.
    + rewrite Forall_lookup in Hf. by destruct (Hf j c Hc).
    + by rewrite <- Hr, list_lookup_fmap, Hc.
  - intros [Hf H].
    assert (length sequence = 13%nat) as Hl13.
    { destruct (H 12%nat) as (c & Hc%lookup_lt_Some & _); lia. }
    split.
    + apply list_eq. intros j. rewrite list_lookup_fmap.
      destruct (decide (j < 13)%nat) as [Hj|Hj].
      * destruct (H j Hj) as (c & -> & _ & <-). done.
      * rewrite (lookup_ge_None_2 sequence), (lookup_ge_None_2 kingToAce);
          simpl; [done|lia|lia].
    + apply Forall_lookup. intros j c Hc. split.
      * rewrite Forall_lookup in Hf. eauto.
      * destruct (H j) as (c' & Hc' & Hs & _); [apply lookup_lt_Some in Hc; lia|].
        congruence.
Qed.

Lemma window_ok_spec (cs : list Card) (i : nat) (s : Suit) :
  window_ok (take 13 (drop i cs)) = Some s ↔ window_at cs i s.
Proof.
  unfold window_at. rewrite window_ok_pointwise, window_at_pointwise; [done|].
  rewrite length_take. lia.
Qed.

Lemma window_at_bound cs i s : window_at cs i s → (i + 13 ≤ length cs)%nat.
Proof.
  intros [Hr _]. apply (f_equal length) in Hr.
  rewrite length_fmap, length_take, length_drop in Hr.
  change (length kingToAce) with 13%nat in Hr. lia.
Qed.

Lemma window_at_suit_unique cs i s s' : window_at cs i s → window_at cs i s' → s = s'.
Proof.
  intros [Hr Hf] [_ Hf'].
  destruct (take 13 (drop i cs)) as [|c l]; [done|].
  apply Forall_cons in Hf as [[_ <-] _]. apply Forall_cons in Hf' as [[_ <-] _]. done.
Qed.

(** The scan from [i] downwards stops at the first window it meets. *)
Lemma scan_windows_spec (cs : list Card) (i : nat) :
  (∃ k s, (k ≤ i)%nat ∧ window_at cs k s
          ∧ (∀ j s', (j ≤ i)%nat → window_at cs j s' → (j ≤ k)%nat)
          ∧ scan_windows cs i = mkCheckResult true (Z.of_nat k) (Some s))
  ∨ ((∀ j s', (j ≤ i)%nat → ¬ window_at cs j s')
     ∧ scan_windows cs i = mkCheckResult false (-1) None).
Proof.
  induction i as [|i IH]; simpl.
  - destruct (window_ok (take 13 (drop 0 cs))) as [s|] eqn:Hw.
    + left. exists 0%nat, s. apply window_ok_spec in Hw.
      split; [done|]. split; [done|]. split; [|done]. intros; lia.
    + right. split; [|done]. intros j s' Hj Hat. assert (j = 0%nat) as -> by lia.
      apply window_ok_spec in Hat. congruence.
  - destruct (window_ok (take 13 (drop (S i) cs))) as [s|] eqn:Hw.
    + left. exists (S i), s. apply window_ok_spec in Hw.
      split; [done|]. split; [done|]. split; [|done]. intros; lia.
    + assert (∀ s', ¬ window_at cs (S i) s') as Hno.
      { intros s' Hat%window_ok_spec. congruence. }
      destruct IH as [(k & s & Hk & Hat & Hmax & ->)|[Hnone ->]].
      * left. exists k, s. split; [lia|]. split; [done|]. split; [|done].
        intros j s' Hj Hj'. destruct (decide (j = S i)) as [->|]; [by destruct (Hno s' Hj')|].
        apply (Hmax j s'); [lia|done].
      * right. split; [|done]. intros j s' Hj.
        destruct (decide (j = S i)) as [->|]; [apply Hno|]. apply Hnone. lia.
Qed.

(** C3, as amended: [checkForCompletedSequence] reports a completed
    sequence exactly when the pile holds a window of 13 face-up cards of
    one suit reading K down to A.  It then returns the window with the
    highest start index, the one nearest the top of the pile, and its
    suit; otherwise it returns [completed = false], [startIndex = -1]
    and no suit. *)
Theorem checkForCompletedSequence_spec (pile : Pile) :
  (∃ i s, window_at (cards pile) i s
          ∧ (∀ j s', window_at (cards pile) j s' → (j ≤ i)%nat)
          ∧ checkForCompletedSequence pile = mkCheckResult true (Z.of_nat i) (Some s))
  ∨ ((∀ j s', ¬ window_at (cards pile) j s')
     ∧ checkForCompletedSequence pile = mkCheckResult false (-1) None).
Proof.
  unfold checkForCompletedSequence. case_bool_decide as Hlen.
  - right. split; [|done]. intros j s' Hat%window_at_bound. lia.
  - destruct (scan_windows_spec (cards pile) (length (cards pile) - 13))
      as [(k & s & Hk & Hat & Hmax & ->)|[Hnone ->]].
    + left. exists k, s. split; [done|]. split; [|done].
      intros j s' Hj. apply (Hmax j s'); [|done]. apply window_at_bound in Hj. lia.
    + right. split; [|done]. intros j s' Hj. apply (Hnone j s'); [|done].
      apply window_at_bound in Hj. lia.
Qed.

(** C3, as stated, fails on a pile of two complete runs: the window
    at index 0 is valid and is the bottom-most, yet the window at
    index 13 is the one returned. *)
Lemma checkForCompletedSequence_not_bottom_most :
  let pile := mkPile (kingToAce_cards Spades ++ kingToAce_cards Spades) in
  window_at (cards pile) 0 Spades
  ∧ checkForCompletedSequence pile = mkCheckResult true 13 (Some Spades).
Proof.
  split; [|reflexivity].
  split; [reflexivity|]. cbn. repeat constructor.
Qed.

(** ** Deal Engine *)

Lemma dealFromStock_mapM (st : list Card) (tab : list Pile) (k : nat) :
  (length tab + k ≤ length st)%nat →
  mapM (fun '(index, pile) =>
          card ← orFail NotACard (st !! index);
          mret (mkPile (cards pile ++ [setFaceUp true card])))
       (imap (fun i => pair (k + i)%nat) tab)
  = Ok (deal_onto tab (drop k st)).
Proof.
  revert k. induction tab as [|pile tab IH]; intros k Hlen; [done|].
  simpl in Hlen. cbn [imap mapM].
  destruct (lookup_lt_is_Some_2 st k) as [card Hcard]; [lia|].
  rewrite Nat.add_0_r, Hcard. cbn.
  rewrite (imap_ext _ (fun i => pair (S k + i)%nat)).
  2: { intros i x _. simpl. f_equal. lia. }
  rewrite IH by lia. cbn. unfold deal_onto.
  rewrite (drop_S _ _ _ Hcard). done.
Qed.

Lemma dealFromStock_Ok (s : GameState) :
  (10 ≤ length (stock s))%nat →
  (length (tableau s) ≤ length (stock s))%nat →
  dealFromStock s =
    Ok {| tableau := deal_onto (tableau s) (stock s);
          stock := drop 10 (stock s);
          completedSequences := completedSequences s;
          moves := moves s + 1;
          gameWon := gameWon s;
          difficulty := difficulty s |}.
Proof.
  intros H10 Hlen. unfold dealFromStock.
  rewrite bool_decide_eq_false_2 by lia.
  rewrite (imap_ext _ (fun i => pair (0 + i)%nat)) by done.
  by rewrite dealFromStock_mapM by lia.
Qed.

Lemma deal_onto_lookup tab st i pile card :
  tab !! i = Some pile → st !! i = Some card →
  deal_onto tab st !! i = Some (mkPile (cards pile ++ [setFaceUp true card])).
Proof.
  intros Hp Hc. unfold deal_onto. by rewrite lookup_zip_with, Hp, Hc.
Qed.

Lemma deal_onto_length tab st :
  (length tab ≤ length st)%nat → length (deal_onto tab st) = length tab.
Proof. intros H. unfold deal_onto. rewrite length_zip_with. lia. Qed.

(** C10: with at least 10 cards in the stock, [dealFromStock] puts the
    [i]-th card of the stock, face up, on top of pile [i], for each of
    the 10 piles, drops the first 10 cards of the stock and adds 1 to
    [moves]; [completedSequences], [gameWon] and [difficulty] stay as
    they are. *)
Theorem dealFromStock_frame (s : GameState) :
  (10 ≤ length (stock s))%nat →
  length (tableau s) = 10%nat →
  ∃ s', dealFromStock s = Ok s'
    ∧ length (tableau s') = 10%nat
    ∧ (∀ i pile, tableau s !! i = Some pile →
         ∃ card, stock s !! i = Some card
           ∧ tableau s' !! i = Some (mkPile (cards pile ++ [setFaceUp true card])))
    ∧ stock s' = drop 10 (stock s)
    ∧ moves s' = moves s + 1
    ∧ completedSequences s' = completedSequences s
    ∧ gameWon s' = gameWon s
    ∧ difficulty s' = difficulty s.
Proof.
  intros H10 Hlen. eexists. split; [apply dealFromStock_Ok; lia|].
  cbn. split; [rewrite deal_onto_length; lia|].
  split; [|done]. intros i pile Hp.
  destruct (lookup_lt_is_Some_2 (stock s) i) as [card Hc].
  { apply lookup_lt_Some in Hp. lia. }
  exists card. split; [done|]. by apply deal_onto_lookup.
Qed.

Lemma dealFromStock_frame_witness :
  let s := state game_with_empty_pile in
  (10 ≤ length (stock s))%nat ∧ length (tableau s) = 10%nat
  ∧ ∃ s', dealFromStock s = Ok s'
    ∧ length (tableau s') = 10%nat
    ∧ (∀ i pile, tableau s !! i = Some pile →
         ∃ card, stock s !! i = Some card
           ∧ tableau s' !! i = Some (mkPile (cards pile ++ [setFaceUp true card])))
    ∧ stock s' = drop 10 (stock s)
    ∧ moves s' = moves s + 1
    ∧ completedSequences s' = completedSequences s
    ∧ gameWon s' = gameWon s
    ∧ difficulty s' = difficulty s.
Proof.
  split; [|split]; [vm_compute; lia|reflexivity|].
  apply (dealFromStock_frame (state game_with_empty_pile)); [vm_compute; lia|reflexivity].
Defined.

Lemma forallb_nonempty_false (tab : list Pile) :
  forallb (fun pile => bool_decide (0 < length (cards pile))%nat) tab = false ↔
  Exists (fun pile => cards pile = []) tab.
Proof.
  induction tab as [|pile tab IH]; simpl.
  - split; [done|]. by intros ?%Exists_nil.
  - rewrite Exists_cons, andb_false_iff, IH, bool_decide_eq_false.
    destruct (cards pile); simpl; split; intros [?|?]; auto; try lia; done.
Qed.

Lemma canDeal_false (g : SpiderSolitaireGame) :
  canDeal g = false ↔
  (length (stock (state g)) < 10)%nat
  ∨ Exists (fun pile => cards pile = []) (tableau (state g)).
Proof.
  unfold canDeal.
  rewrite andb_false_iff, bool_decide_eq_false, forallb_nonempty_false.
  split; (intros [?|?]; [left; lia|by right]).
Qed.

(** C2, as amended: [dealFromStock] itself rejects a deal only when
    the stock has fewer than 10 cards, returning the state as it is.
    That every pile be non-empty is required by the store: [deal] is
    guarded by [canDeal] and leaves the game as it is when the stock has
    fewer than 10 cards or some pile is empty. *)
Theorem deal_rejected (now : nat → Z) (g : SpiderSolitaireGame) :
  (length (stock (state g)) < 10)%nat
  ∨ Exists (fun pile => cards pile = []) (tableau (state g)) →
  deal now g = Ok g
  ∧ ((length (stock (state g)) < 10)%nat → dealFromStock (state g) = Ok (state g)).
Proof.
  intros H%canDeal_false. split.
  - unfold deal. by rewrite H.
  - intros Hlt. unfold dealFromStock. by rewrite bool_decide_eq_true_2.
Qed.

Lemma deal_rejected_witness :
  ((length (stock (state game_with_empty_pile)) < 10)%nat
   ∨ Exists (fun pile => cards pile = []) (tableau (state game_with_empty_pile)))
  ∧ deal (fun _ => 0) game_with_empty_pile = Ok game_with_empty_pile.
Proof.
  assert ((length (stock (state game_with_empty_pile)) < 10)%nat
          ∨ Exists (fun pile => cards pile = []) (tableau (state game_with_empty_pile)))
    as H by (right; by left).
  split; [exact H|]. exact (proj1 (deal_rejected (fun _ => 0) game_with_empty_pile H)).
Defined.

(** C2, as stated, fails for [dealFromStock]: with 10 cards in the stock
    it deals onto an empty pile. *)
Lemma dealFromStock_deals_onto_empty_pile :
  let s := state game_with_empty_pile in
  Exists (fun pile => cards pile = []) (tableau s)
  ∧ dealFromStock s ≠ Ok s.
Proof.
  split; [by left|]. vm_compute. discriminate.
Qed.

(** ** History Manager: lists of cards *)

Lemma mkPile_cards p : mkPile (cards p) = p.
Proof. by destruct p. Qed.

Lemma flipTop_snoc_down pre c :
  faceUp c = false →
  flipTop (pre ++ [c]) = (pre ++ [setFaceUp true c], Some (id c)).
Proof.
  intros Hc. unfold flipTop. rewrite last_snoc, Hc. cbn [negb].
  rewrite length_app. cbn [length].
  replace (length pre + 1 - 1)%nat with (length pre + 0)%nat by lia.
  by rewrite insert_app_r.
Qed.

Lemma flipTop_snoc_up pre c :
  faceUp c = true → flipTop (pre ++ [c]) = (pre ++ [c], None).
Proof. intros Hc. unfold flipTop. by rewrite last_snoc, Hc. Qed.

Lemma flipTop_nil : flipTop [] = ([], None).
Proof. done. Qed.

(** The three cases of [flipTop]. *)
Lemma flipTop_cases cs :
  (∃ pre c, cs = pre ++ [c] ∧ faceUp c = false
            ∧ flipTop cs = (pre ++ [setFaceUp true c], Some (id c)))
  ∨ ((cs = [] ∨ ∃ pre c, cs = pre ++ [c] ∧ faceUp c = true)
     ∧ flipTop cs = (cs, None)).
Proof.
  destruct (last cs) as [c|] eqn:Hl.
  - apply last_Some in Hl as [pre ->]. destruct (faceUp c) eqn:Hc.
    + right. split; [right; eauto|]. by apply flipTop_snoc_up.
    + left. exists pre, c. split; [done|]. split; [done|]. by apply flipTop_snoc_down.
  - apply last_None in Hl as ->. right. split; [by left|done].
Qed.

Lemma flipTop_ids cs : id <$> (flipTop cs).1 = id <$> cs.
Proof.
  destruct (flipTop_cases cs) as [(pre & c & -> & _ & ->)|[_ ->]]; [|done].
  cbn. by rewrite !fmap_app.
Qed.

Lemma flipTop_length cs : length (flipTop cs).1 = length cs.
Proof. by rewrite <- (length_fmap id), flipTop_ids, length_fmap. Qed.

Lemma list_find_id_fresh (x : string) (pre : list Card) :
  x ∉ id <$> pre → list_find (fun c => id c = x) pre = None.
Proof.
  intros Hx. apply list_find_None, Forall_forall. intros c Hc E.
  apply Hx. rewrite <- E. by apply list_elem_of_fmap_2.
Qed.

(** Turning back the card that [flipTop] turned. *)
Lemma flipBackById_flipped pre c rest :
  faceUp c = false →
  id c ∉ id <$> pre →
  flipBackById (id c) ((pre ++ [setFaceUp true c]) ++ rest) = (pre ++ [c]) ++ rest.
Proof.
  intros Hc Hfresh. unfold flipBackById.
  rewrite <- !(assoc (++)). rewrite list_find_app_r by by apply list_find_id_fresh.
  cbn. rewrite decide_True by done. cbn.
  rewrite <- !(assoc (++)). rewrite insert_app_r_alt, Nat.sub_diag by lia. cbn.
  by rewrite setFaceUp_false_id.
Qed.

Lemma split_moved_go ids n (tgt back remaining : list Card) :
  fold_left (fun '(cardsToMoveBack, remainingTargetCards) card =>
               if bool_decide (id card ∈ ids)
                  && bool_decide (length cardsToMoveBack < n)%nat
               then (cardsToMoveBack ++ [card], remainingTargetCards)
               else (cardsToMoveBack, remainingTargetCards ++ [card]))
            tgt (back, remaining)
  = (back ++ (split_moved ids (n - length back) tgt).1,
     remaining ++ (split_moved ids (n - length back) tgt).2).
Proof.
  revert back remaining n. induction tgt as [|card tgt IH]; intros back remaining n.
  - cbn. by rewrite !app_nil_r.
  - unfold split_moved. cbn [fold_left].
    destruct (bool_decide (id card ∈ ids)) eqn:Hin; cbn [andb].
    + destruct (decide (length back < n)%nat) as [Hlt|Hge].
      * rewrite (bool_decide_eq_true_2 (length back < n)%nat) by done.
        rewrite (bool_decide_eq_true_2 (length [] < n - length back)%nat)
          by (simpl; lia).
        rewrite !IH. rewrite length_app. cbn.
        replace (n - length back - 1)%nat with (n - (length back + 1))%nat by lia.
        by rewrite <- !(assoc (++)).
      * rewrite (bool_decide_eq_false_2 (length back < n)%nat) by done.
        rewrite (bool_decide_eq_false_2 (length [] < n - length back)%nat)
          by (simpl; lia).
        rewrite !IH. cbn. rewrite ?Nat.sub_0_r. by rewrite <- !(assoc (++)).
    + rewrite !IH. cbn. rewrite ?Nat.sub_0_r. by rewrite <- !(assoc (++)).
Qed.

Lemma split_moved_cons ids n card tgt :
  split_moved ids n (card :: tgt)
  = if bool_decide (id card ∈ ids) && bool_decide (0 < n)%nat
    then (card :: (split_moved ids (n - 1) tgt).1, (split_moved ids (n - 1) tgt).2)
    else ((split_moved ids n tgt).1, card :: (split_moved ids n tgt).2).
Proof.
  unfold split_moved at 1. cbn [fold_left length].
  destruct (bool_decide (id card ∈ ids) && bool_decide (0 < n)%nat);
    rewrite split_moved_go; cbn; by rewrite ?Nat.sub_0_r.
Qed.

(** The target pile of a move splits into the cards below and the run. *)
Lemma split_moved_app (tgt run : list Card) :
  NoDup (id <$> (tgt ++ run)) →
  split_moved (id <$> run) (length run) (tgt ++ run) = (run, tgt).
Proof.
  rewrite fmap_app. intros (_ & Hdisj & Hrun)%NoDup_app.
  induction tgt as [|card tgt IH].
  - clear Hdisj. cbn [app].
    assert (∀ ids, (∀ c, c ∈ run → id c ∈ ids) →
                   split_moved ids (length run) run = (run, [])) as H.
    { intros ids. clear Hrun. induction run as [|c run IH]; intros Hin; [done|].
      rewrite split_moved_cons. rewrite bool_decide_eq_true_2 by (apply Hin; by left).
      cbn. rewrite Nat.sub_0_r, IH; [done|]. intros c' Hc'. apply Hin. by right. }
    apply H. intros c Hc. by apply list_elem_of_fmap_2.
  - cbn [app]. rewrite split_moved_cons.
    rewrite (bool_decide_eq_false_2 (id card ∈ id <$> run)).
    2: { apply Hdisj. rewrite fmap_cons. by left. }
    cbn [andb]. rewrite IH; [done|].
    intros x Hx. apply Hdisj. rewrite fmap_cons. by right.
Qed.

(** ** History Manager: one pile *)

Lemma no_window_top_only cs : no_window cs → top_only cs.
Proof. intros H i s Hw. by destruct (H i s). Qed.

Lemma window_at_take cs n i s :
  (i + 13 ≤ n)%nat → window_at (take n cs) i s ↔ window_at cs i s.
Proof.
  intros Hle. unfold window_at.
  replace (take 13 (drop i (take n cs))) with (take 13 (drop i cs)); [done|].
  apply list_eq. intros j. destruct (decide (j < 13)%nat).
  - rewrite !lookup_take_lt, !lookup_drop, lookup_take_lt by lia. done.
  - by rewrite !lookup_take_ge by lia.
Qed.

Lemma window_at_app_l cs rest i s :
  (i + 13 ≤ length cs)%nat → window_at (cs ++ rest) i s ↔ window_at cs i s.
Proof.
  intros Hle. rewrite <- (window_at_take (cs ++ rest) (length cs)) by done.
  by rewrite take_app_length.
Qed.

Lemma window_at_lookup cs i s j :
  window_at cs i s → (j < 13)%nat →
  ∃ c, cs !! (i + j)%nat = Some c ∧ faceUp c = true ∧ suit c = s
       ∧ Some (rank c) = kingToAce !! j.
Proof.
  intros Hw Hj. pose proof (window_at_bound _ _ _ Hw) as Hb.
  destruct Hw as [Hr Hf].
  destruct (lookup_lt_is_Some_2 cs (i + j)) as [c Hc]; [lia|].
  assert (take 13 (drop i cs) !! j = Some c) as Hc'.
  { by rewrite lookup_take_lt, lookup_drop by lia. }
  exists c. split; [done|].
  rewrite Forall_lookup in Hf. destruct (Hf j c Hc') as [? ?].
  split; [done|]. split; [done|].
  by rewrite <- Hr, list_lookup_fmap, Hc'.
Qed.

Lemma face_sorted_take cs n : face_sorted cs → face_sorted (take n cs).
Proof.
  intros H i j c d Hc Hd. apply lookup_take_Some in Hc as [Hc _].
  apply lookup_take_Some in Hd as [Hd _]. by apply (H i j).
Qed.

Lemma face_sorted_app cs run :
  face_sorted cs → Forall (fun c => faceUp c = true) run → face_sorted (cs ++ run).
Proof.
  intros H Hrun i j c d Hc Hd Hij Hup.
  apply lookup_app_Some in Hd as [Hd|[Hlen Hd]].
  - apply lookup_app_Some in Hc as [Hc|[Hlen' _]].
    + by apply (H i j c d).
    + apply lookup_lt_Some in Hd. lia.
  - rewrite Forall_lookup in Hrun. by eapply Hrun.
Qed.

Lemma face_sorted_drop_up cs i c :
  face_sorted cs → cs !! i = Some c → faceUp c = true →
  Forall (fun c => faceUp c = true) (drop i cs).
Proof.
  intros H Hc Hup. apply Forall_lookup. intros j d Hd.
  rewrite lookup_drop in Hd. apply (H i (i + j)%nat c d); [done|done|lia|done].
Qed.

(** After [flipTop] of a prefix of a pile there is no completed
    sequence left, and the faces stay sorted. *)
Lemma flipTop_prefix_ok cs k :
  face_sorted cs → (∀ i s, window_at cs i s → (k < i + 13)%nat) →
  face_sorted (flipTop (take k cs)).1 ∧ no_window (flipTop (take k cs)).1.
Proof.
  intros Hs Hw.
  assert (no_window (take k cs)) as Hnw.
  { intros i s Hi. pose proof (window_at_bound _ _ _ Hi) as Hb.
    rewrite length_take in Hb.
    apply window_at_take in Hi; [|lia]. apply Hw in Hi. lia. }
  destruct (flipTop_cases (take k cs)) as [(pre & c & E & Hc & ->)|[_ ->]];
    [|split; [by apply face_sorted_take|done]].
  cbn [fst].
  assert (Forall (fun d => faceUp d = false) pre) as Hpre.
  { apply Forall_lookup. intros i d Hd. destruct (faceUp d) eqn:Hup; [|done].
    pose proof (face_sorted_take cs k Hs) as Hs'. rewrite E in Hs'.
    rewrite <- Hc. symmetry.
    apply (Hs' i (length pre) d c).
    - by apply lookup_app_l_Some.
    - by rewrite lookup_app_r, Nat.sub_diag by lia.
    - apply lookup_lt_Some in Hd. lia.
    - done. }
  split.
  - intros i j x y Hx Hy Hij Hup.
    apply lookup_app_Some in Hx as [Hx|[Hlen Hx]].
    + rewrite Forall_lookup in Hpre. rewrite (Hpre i x Hx) in Hup. done.
    + apply lookup_app_Some in Hy as [Hy|[_ Hy]].
      * apply lookup_lt_Some in Hy. lia.
      * destruct (j - length pre)%nat as [|n]; [by simplify_eq/=|].
        by destruct n.
  - intros i s Hi. pose proof (window_at_bound _ _ _ Hi) as Hb.
    rewrite length_app in Hb. cbn in Hb.
    destruct (window_at_lookup _ i s 0 Hi) as (x & Hx & Hup & _); [lia|].
    rewrite Nat.add_0_r in Hx. rewrite lookup_app_l in Hx by lia.
    rewrite Forall_lookup in Hpre. rewrite (Hpre i x Hx) in Hup. done.
Qed.

Lemma top_only_max cs i s :
  top_only cs → window_at cs i s → ∀ j s', window_at cs j s' → (j ≤ i)%nat.
Proof. intros H Hi j s' Hj. apply H in Hi. apply H in Hj. lia. Qed.

(** The two outcomes of [checkForCompletedSequence]. *)
Lemma checkForCompletedSequence_cases (pile : Pile) :
  (∃ i s, window_at (cards pile) i s
          ∧ (∀ j s', window_at (cards pile) j s' → (j ≤ i)%nat)
          ∧ checkForCompletedSequence pile = mkCheckResult true (Z.of_nat i) (Some s))
  ∨ ((∀ j s', ¬ window_at (cards pile) j s')
     ∧ checkForCompletedSequence pile = mkCheckResult false (-1) None).
Proof.
  unfold checkForCompletedSequence. case_bool_decide as Hlen.
  - right. split; [|done]. intros j s' Hat%window_at_bound. lia.
  - destruct (scan_windows_spec (cards pile) (length (cards pile) - 13))
      as [(k & s & Hk & Hat & Hmax & ->)|[Hnone ->]].
    + left. exists k, s. split; [done|]. split; [|done].
      intros j s' Hj. apply (Hmax j s'); [|done]. apply window_at_bound in Hj. lia.
    + right. split; [|done]. intros j s' Hj. apply (Hnone j s'); [|done].
      apply window_at_bound in Hj. lia.
Qed.

(** The two cases of [check_pile]. *)
Lemma check_pile_cases now i pile :
  (∃ k s, window_at (cards pile) k s
          ∧ (∀ j s', window_at (cards pile) j s' → (j ≤ k)%nat)
          ∧ check_pile now i pile =
              (mkPile (flipTop (take k (cards pile))).1,
               Some ({| ci_pileIndex := i;
                        ci_cards := take 13 (drop k (cards pile));
                        ci_suit := s;
                        ci_flippedCard :=
                          match (flipTop (take k (cards pile))).2 with
                          | Some fid => if bool_decide (fid = "") then None else Some fid
                          | None => None
                          end |},
                     {| cs_id := suit_str s +:+ "-" +:+ pretty (now i) +:+ "-" +:+ pretty i;
                        cs_suit := s |})))
  ∨ (no_window (cards pile) ∧ check_pile now i pile = (pile, None)).
Proof.
  unfold check_pile.
  destruct (checkForCompletedSequence_cases pile)
    as [(k & s & Hk & Hmax & ->)|[Hnone ->]]; cbn.
  - left. exists k, s. split; [done|]. split; [done|].
    rewrite Nat2Z.id. by destruct (flipTop (take k (cards pile))).
  - by right.
Qed.

(** Putting a removed sequence back on its pile. *)
Lemma restore_check_pile now i pile pile' info sq :
  NoDup (id <$> cards pile) →
  Forall (fun c => id c ≠ "") (cards pile) →
  top_only (cards pile) →
  check_pile now i pile = (pile', Some (info, sq)) →
  ci_pileIndex info = i
  ∧ mkPile (match ci_flippedCard info with
            | Some cardId => flipBackById cardId (cards pile' ++ ci_cards info)
            | None => cards pile' ++ ci_cards info
            end) = pile.
Proof.
  intros Hnd Hne Htop Hcheck.
  destruct (check_pile_cases now i pile) as [(k & s & Hk & _ & E)|[_ E]];
    rewrite E in Hcheck; [|done].
  injection Hcheck as <- <- <-. cbn. split; [done|].
  pose proof (Htop k s Hk) as Hlen.
  rewrite (take_ge (drop k (cards pile))) by (rewrite length_drop; lia).
  transitivity (mkPile (cards pile)); [f_equal|apply mkPile_cards].
  destruct (flipTop_cases (take k (cards pile)))
    as [(pre & c & Epre & Hc & ->)|[_ ->]]; cbn; [|apply take_drop].
  assert (c ∈ cards pile) as Hin.
  { assert (c ∈ take k (cards pile)) as Hin.
    { rewrite Epre. apply elem_of_app. right. by left. }
    apply elem_of_take in Hin as (j & Hj & _). by eapply list_elem_of_lookup_2. }
  rewrite Forall_forall in Hne.
  rewrite bool_decide_eq_false_2 by by apply Hne.
  rewrite flipBackById_flipped; [by rewrite <- Epre, take_drop|done|].
  rewrite <- (take_drop k (cards pile)), Epre, !fmap_app in Hnd.
  apply NoDup_app in Hnd as [Hnd _]. apply NoDup_app in Hnd as (_ & Hd & _).
  intros Hp. apply (Hd _ Hp). cbn. by left.
Qed.

Lemma check_pile_ok now i pile :
  face_sorted (cards pile) → top_only (cards pile) →
  face_sorted (cards (check_pile now i pile).1)
  ∧ no_window (cards (check_pile now i pile).1).
Proof.
  intros Hs Htop.
  destruct (check_pile_cases now i pile) as [(k & s & Hk & _ & ->)|[Hnw ->]];
    [|done].
  cbn [fst cards]. apply flipTop_prefix_ok; [done|].
  intros j s' Hj. apply Htop in Hk. apply Htop in Hj. lia.
Qed.

Lemma check_pile_ids now i pile :
  id <$> cards (check_pile now i pile).1 `sublist_of` id <$> cards pile.
Proof.
  destruct (check_pile_cases now i pile) as [(k & s & Hk & _ & ->)|[Hnw ->]];
    [|done].
  cbn [fst cards]. rewrite flipTop_ids, fmap_take. apply sublist_take.
Qed.

(** ** History Manager: removing completed sequences and putting them back *)

Section check.
Context (now : nat → Z).

Lemma check_pile_index i pile info sq pile' :
  check_pile now i pile = (pile', Some (info, sq)) → ci_pileIndex info = i.
Proof.
  intros H. destruct (check_pile_cases now i pile) as [(k & s & _ & _ & E)|[_ E]];
    rewrite E in H; [|done]. by injection H as <- <- <-.
Qed.

Lemma find_completed_lt (T : list Pile) (k j : nat) :
  (j < k)%nat →
  find (fun cs => bool_decide (ci_pileIndex cs = j))
       (omap (fun r => fst <$> r.2) (imap (fun i => check_pile now (k + i)) T))
  = None.
Proof.
  revert k. induction T as [|p T IH]; intros k Hj; [done|].
  rewrite imap_cons. cbn [omap list_omap].
  rewrite (imap_ext _ (fun i => check_pile now (S k + i))).
  2: { intros i x _. cbn. f_equal. lia. }
  rewrite Nat.add_0_r.
  destruct (check_pile now k p) as [p' [[info sq]|]] eqn:E; cbn.
  - rewrite (check_pile_index _ _ _ _ _ E).
    rewrite bool_decide_eq_false_2 by lia. apply (IH (S k)). lia.
  - apply (IH (S k)). lia.
Qed.

Lemma find_completed (T : list Pile) (k idx : nat) :
  find (fun cs => bool_decide (ci_pileIndex cs = (k + idx)%nat))
       (omap (fun r => fst <$> r.2) (imap (fun i => check_pile now (k + i)) T))
  = T !! idx ≫= fun p => fst <$> (check_pile now (k + idx) p).2.
Proof.
  revert k idx. induction T as [|p T IH]; intros k idx; [done|].
  rewrite imap_cons. cbn [omap list_omap].
  rewrite (imap_ext _ (fun i => check_pile now (S k + i))).
  2: { intros i x _. cbn. f_equal. lia. }
  rewrite Nat.add_0_r.
  destruct (check_pile now k p) as [p' [[info sq]|]] eqn:E; cbn.
  - rewrite (check_pile_index _ _ _ _ _ E).
    destruct idx as [|idx]; cbn.
    + rewrite Nat.add_0_r, bool_decide_eq_true_2 by done. by rewrite E.
    + rewrite bool_decide_eq_false_2 by lia.
      replace (k + S idx)%nat with (S k + idx)%nat by lia. apply (IH (S k)).
  - destruct idx as [|idx]; cbn.
    + rewrite Nat.add_0_r, E. cbn. apply (find_completed_lt T (S k)). lia.
    + replace (k + S idx)%nat with (S k + idx)%nat by lia. apply (IH (S k)).
Qed.

Lemma omap_completed_length {A B C} (l : list (A * option (B * C))) :
  length (omap (fun r => fst <$> r.2) l) = length (omap (fun r => snd <$> r.2) l).
Proof.
  induction l as [|[a [[b c]|]] l IH]; cbn; [done| |done]. by rewrite IH.
Qed.

Lemma no_changes {A B} (l : list (A * option B)) :
  existsb (fun r => bool_decide (is_Some r.2)) l = false →
  Forall (fun r => r.2 = None) l.
Proof.
  induction l as [|[a [b|]] l IH]; cbn; [done|done|].
  intros H. constructor; [done|]. by apply IH.
Qed.

Lemma no_changes_omap {A B C} (f : B → C) (l : list (A * option B)) :
  Forall (fun r => r.2 = None) l → omap (fun r => f <$> r.2) l = [].
Proof.
  induction 1 as [|[a o] l Ho _ IH]; [done|]. cbn in Ho. subst o. by cbn.
Qed.

Lemma has_changes {A B C} (l : list (A * option (B * C))) :
  existsb (fun r => bool_decide (is_Some r.2)) l = true →
  (0 < length (omap (fun r => fst <$> r.2) l))%nat.
Proof.
  induction l as [|[a [[b c]|]] l IH]; cbn; [done|lia|done].
Qed.

(** The tableau and the completed sequences after the check, whether
    or not the check found something. *)
Lemma checkCompletedSequences_tableau g :
  tableau (state (checkCompletedSequences now g))
  = fst <$> imap (check_pile now) (tableau (state g)).
Proof.
  unfold checkCompletedSequences.
  destruct (existsb _ _) eqn:E; [done|].
  apply no_changes in E. apply list_eq. intros i.
  rewrite list_lookup_fmap, list_lookup_imap.
  destruct (tableau (state g) !! i) as [p|] eqn:Hp; [|done]. cbn.
  rewrite Forall_lookup in E.
  specialize (E i (check_pile now i p)). rewrite list_lookup_imap, Hp in E.
  specialize (E eq_refl).
  destruct (check_pile_cases now i p) as [(k & s & _ & _ & E')|[_ E']];
    rewrite E' in E |- *; done.
Qed.

Lemma checkCompletedSequences_completed g :
  completedSequences (state (checkCompletedSequences now g))
  = completedSequences (state g)
    ++ omap (fun r => snd <$> r.2) (imap (check_pile now) (tableau (state g))).
Proof.
  unfold checkCompletedSequences.
  destruct (existsb _ _) eqn:E; [done|].
  apply no_changes in E.
  by rewrite no_changes_omap, app_nil_r.
Qed.

Lemma checkCompletedSequences_frame g :
  let g' := checkCompletedSequences now g in
  stock (state g') = stock (state g)
  ∧ moves (state g') = moves (state g)
  ∧ difficulty (state g') = difficulty (state g)
  ∧ selectedPile g' = selectedPile g
  ∧ selectedCardIndex g' = selectedCardIndex g
  ∧ initialState g' = initialState g.
Proof. unfold checkCompletedSequences. by destruct (existsb _ _). Qed.

Lemma checkCompletedSequences_won g :
  gameWon (state g) = bool_decide (length (completedSequences (state g)) = 8%nat) →
  gameWon (state (checkCompletedSequences now g))
  = bool_decide (length (completedSequences (state (checkCompletedSequences now g))) = 8%nat).
Proof. unfold checkCompletedSequences. by destruct (existsb _ _). Qed.

Lemma attach_completed_snoc css hs h :
  attach_completed css (hs ++ [h]) = hs ++ [set_completed (Some css) h].
Proof.
  unfold attach_completed. rewrite last_snoc, length_app. cbn.
  replace (length hs + 1 - 1)%nat with (length hs + 0)%nat by lia.
  by rewrite insert_app_r.
Qed.

Lemma set_completed_None h :
  mh_completedSequences h = None → set_completed None h = h.
Proof. destruct h; cbn. by intros ->. Qed.

(** The history after the check: the last record carries what was
    removed, and [restore_completed] on it gives back the tableau and
    the completed sequences of before the check. *)
Lemma checkCompletedSequences_restore g hs h :
  history g = hs ++ [h] →
  mh_completedSequences h = None →
  Forall (fun p => NoDup (id <$> cards p) ∧ Forall (fun c => id c ≠ "") (cards p)
                   ∧ top_only (cards p)) (tableau (state g)) →
  ∃ css,
    history (checkCompletedSequences now g) = hs ++ [set_completed css h]
    ∧ restore_completed (set_completed css h) (state (checkCompletedSequences now g))
      = (completedSequences (state g), tableau (state g)).
Proof.
  intros Hh Hnone Hpiles.
  pose proof (checkCompletedSequences_tableau g) as HT.
  pose proof (checkCompletedSequences_completed g) as HC.
  unfold checkCompletedSequences in *.
  destruct (existsb _ _) eqn:E.
  - pose proof (has_changes _ E) as Hpos. cbn [history state].
    rewrite Hh, length_app. cbn [length].
    rewrite (bool_decide_eq_true_2 (0 < length hs + 1)%nat) by lia.
    rewrite (bool_decide_eq_true_2 _ Hpos). cbn [andb].
    rewrite attach_completed_snoc. eexists. split; [done|].
    unfold restore_completed. cbn [mh_completedSequences set_completed].
    rewrite (bool_decide_eq_true_2 _ Hpos). cbn [completedSequences tableau].
    f_equal.
    + rewrite omap_completed_length, length_app, Nat.add_sub.
      by rewrite take_app_length.
    + apply list_eq. intros i.
      rewrite list_lookup_imap, list_lookup_fmap, list_lookup_imap.
      destruct (tableau (state g) !! i) as [p|] eqn:Hp; [|done]. cbn.
      f_equal. unfold restore_pile.
      assert (find (fun cs => bool_decide (ci_pileIndex cs = i))
                (omap (fun r => fst <$> r.2)
                   (imap (check_pile now) (tableau (state g))))
              = tableau (state g) !! i ≫= fun p => fst <$> (check_pile now i p).2)
        as Hf by exact (find_completed (tableau (state g)) 0 i).
      rewrite Hf, Hp. cbn.
      rewrite Forall_lookup in Hpiles. destruct (Hpiles i p Hp) as (Hnd & Hne & Htop).
      destruct (check_pile now i p) as [p' [[info sq]|]] eqn:Ep; cbn.
      * by destruct (restore_check_pile now i p p' info sq Hnd Hne Htop Ep).
      * destruct (check_pile_cases now i p) as [(k & s & _ & _ & E')|[_ E']];
          rewrite E' in Ep; by simplify_eq.
  - exists None. rewrite set_completed_None by done. split; [done|].
    unfold restore_completed. by rewrite Hnone.
Qed.
End check.

(** ** History Manager: the cards of a state *)

Lemma all_cards_ids (s : GameState) :
  id <$> all_cards s
  = concat ((fun p => id <$> cards p) <$> tableau s) ++ (id <$> stock s).
Proof.
  unfold all_cards. rewrite fmap_app. f_equal.
  induction (tableau s) as [|p T IH]; [done|].
  cbn. by rewrite fmap_app, IH.
Qed.

Lemma concat_sublist {A} (f g : nat → Pile → list A) (T : list Pile) :
  (∀ i p, T !! i = Some p → f i p `sublist_of` g i p) →
  concat (imap f T) `sublist_of` concat (imap g T).
Proof.
  revert f g. induction T as [|p T IH]; intros f g H; [done|].
  rewrite !imap_cons. cbn. apply sublist_app.
  - by apply (H 0%nat).
  - apply IH. intros i q Hq. by apply (H (S i)).
Qed.

Lemma concat_insert_Permutation {A} (L : list (list A)) i x y :
  L !! i = Some x → concat (<[i:=y]> L) ++ x ≡ₚ concat L ++ y.
Proof.
  revert i. induction L as [|z L IH]; intros [|i] Hi; simplify_eq/=.
  - rewrite <- !(assoc (++)). rewrite (comm (++) (concat L) x).
    rewrite (comm (++) (concat L) y). by rewrite !(assoc (++)), (comm (++) y x).
  - rewrite <- !(assoc (++)). by rewrite IH.
Qed.

Lemma concat_lookup_sublist {A} (L : list (list A)) i x :
  L !! i = Some x → x `sublist_of` concat L.
Proof.
  revert i. induction L as [|z L IH]; intros [|i] Hi; simplify_eq/=.
  - by apply sublist_inserts_r.
  - apply sublist_inserts_l. by apply (IH i).
Qed.

Lemma concat_NoDup_disjoint_lt {A} (L : list (list A)) i j a b :
  NoDup (concat L) → L !! i = Some a → L !! j = Some b → (i < j)%nat →
  ∀ x, x ∈ a → x ∉ b.
Proof.
  revert i j. induction L as [|z L IH]; intros [|i] [|j] Hnd Ha Hb Hij;
    simplify_eq/=; try lia.
  - apply NoDup_app in Hnd as (_ & Hd & _). intros x Hx Hxb. apply (Hd x Hx).
    eapply elem_of_sublist; [done|]. by eapply concat_lookup_sublist.
  - apply NoDup_app in Hnd as (_ & _ & Hnd). apply (IH i j); [done..|lia].
Qed.

Lemma concat_NoDup_disjoint {A} (L : list (list A)) i j a b :
  NoDup (concat L) → L !! i = Some a → L !! j = Some b → i ≠ j →
  ∀ x, x ∈ a → x ∉ b.
Proof.
  intros Hnd Ha Hb Hij x Hx Hxb.
  destruct (decide (i < j)%nat).
  - by apply (concat_NoDup_disjoint_lt L i j a b Hnd Ha Hb ltac:(lia) x).
  - by apply (concat_NoDup_disjoint_lt L j i b a Hnd Hb Ha ltac:(lia) x).
Qed.

(** Consequences of the uniqueness of ids for single piles. *)
Section ids.
Context (s : GameState).
Context (Hnd : NoDup (id <$> all_cards s)).

Lemma tableau_ids_NoDup :
  NoDup (concat ((fun p => id <$> cards p) <$> tableau s)).
Proof. rewrite all_cards_ids in Hnd. by apply NoDup_app in Hnd as [? _]. Qed.

Lemma pile_ids_NoDup i p :
  tableau s !! i = Some p → NoDup (id <$> cards p).
Proof.
  intros Hp. eapply sublist_NoDup; [apply tableau_ids_NoDup|].
  apply (concat_lookup_sublist _ i). by rewrite list_lookup_fmap, Hp.
Qed.

Lemma two_piles_ids_NoDup i j p q :
  tableau s !! i = Some p → tableau s !! j = Some q → i ≠ j →
  NoDup ((id <$> cards p) ++ (id <$> cards q)).
Proof.
  intros Hp Hq Hij. apply NoDup_app.
  split; [by eapply pile_ids_NoDup|]. split; [|by eapply pile_ids_NoDup].
  apply (concat_NoDup_disjoint ((fun p => id <$> cards p) <$> tableau s) i j);
    [apply tableau_ids_NoDup|..|done].
  - by rewrite list_lookup_fmap, Hp.
  - by rewrite list_lookup_fmap, Hq.
Qed.

Lemma pile_stock_ids_disjoint i p x :
  tableau s !! i = Some p → x ∈ id <$> cards p → x ∉ id <$> stock s.
Proof.
  intros Hp Hx. rewrite all_cards_ids in Hnd.
  apply NoDup_app in Hnd as (_ & Hd & _). apply Hd.
  eapply elem_of_sublist; [done|].
  apply (concat_lookup_sublist _ i). by rewrite list_lookup_fmap, Hp.
Qed.

Lemma pile_ids_nonempty i p :
  "" ∉ id <$> all_cards s →
  tableau s !! i = Some p → Forall (fun c => id c ≠ "") (cards p).
Proof.
  intros Hne Hp. apply Forall_forall. intros c Hc E. apply Hne.
  rewrite all_cards_ids. apply elem_of_app. left.
  eapply elem_of_sublist.
  2: { apply (concat_lookup_sublist _ i). by rewrite list_lookup_fmap, Hp. }
  rewrite <- E. by apply list_elem_of_fmap_2.
Qed.
End ids.

(** After the check every pile is free of completed sequences. *)
Lemma checkCompletedSequences_wf now g :
  pre_state (state g) → wf_state (state (checkCompletedSequences now g)).
Proof.
  intros [Hnd Hne Hpiles Hlen Hstock Hwon].
  destruct (checkCompletedSequences_frame now g) as (Hst & _).
  assert (id <$> all_cards (state (checkCompletedSequences now g))
          `sublist_of` id <$> all_cards (state g)) as Hsub.
  { rewrite !all_cards_ids, Hst, checkCompletedSequences_tableau.
    apply sublist_app; [|done].
    rewrite <- list_fmap_compose, fmap_imap.
    rewrite <- (imap_const (fun p => id <$> cards p)).
    apply concat_sublist. intros i p _. apply check_pile_ids. }
  split.
  - by eapply sublist_NoDup.
  - intros H. apply Hne. by eapply elem_of_sublist.
  - rewrite checkCompletedSequences_tableau. apply Forall_lookup. intros i p Hp.
    rewrite list_lookup_fmap, list_lookup_imap in Hp.
    destruct (tableau (state g) !! i) as [q|] eqn:Hq; simplify_eq/=.
    rewrite Forall_lookup in Hpiles. destruct (Hpiles i q Hq).
    by apply check_pile_ok.
  - by rewrite checkCompletedSequences_tableau, length_fmap, length_imap.
  - by rewrite Hst.
  - by apply checkCompletedSequences_won.
Qed.

Lemma pre_state_restorable (s : GameState) :
  pre_state s →
  Forall (fun p => NoDup (id <$> cards p) ∧ Forall (fun c => id c ≠ "") (cards p)
                   ∧ top_only (cards p)) (tableau s).
Proof.
  intros [Hnd Hne Hpiles _ _ _]. apply Forall_lookup. intros i p Hp.
  rewrite Forall_lookup in Hpiles. destruct (Hpiles i p Hp) as [_ Htop].
  split; [by eapply pile_ids_NoDup|]. split; [by eapply pile_ids_nonempty|done].
Qed.

(** Undoing after the check is undoing the move or deal itself. *)
Lemma undo_state_set_completed css h s2 s1 :
  mh_completedSequences h = None →
  restore_completed (set_completed css h) s2 = (completedSequences s1, tableau s1) →
  stock s2 = stock s1 → moves s2 = moves s1 → difficulty s2 = difficulty s1 →
  undo_state (set_completed css h) s2 = undo_state h s1.
Proof.
  intros Hnone Hres Hst Hmv Hd. unfold undo_state. rewrite Hres.
  unfold restore_completed. rewrite Hnone. cbn [set_completed mh_type mh_dealtCards
    mh_cards mh_to mh_from mh_flippedCard].
  by rewrite Hst, Hmv, Hd.
Qed.

(** A move or deal followed by the check is undone by [undo_state] on
    the record the check leaves, when [undo_state] undoes the move or
    deal itself. *)
Lemma checked_round_trip now g hs h s0 :
  history g = hs ++ [h] →
  mh_completedSequences h = None →
  pre_state (state g) →
  undo_state h (state g) = Ok s0 →
  ∃ h', history (checkCompletedSequences now g) = hs ++ [h']
        ∧ mh_dealtCards h' = mh_dealtCards h
        ∧ undo_state h' (state (checkCompletedSequences now g)) = Ok s0
        ∧ wf_state (state (checkCompletedSequences now g)).
Proof.
  intros Hh Hnone Hpre Hundo.
  destruct (checkCompletedSequences_restore now g hs h Hh Hnone
              (pre_state_restorable _ Hpre)) as (css & Hh' & Hres).
  destruct (checkCompletedSequences_frame now g) as (Hst & Hmv & Hd & _).
  exists (set_completed css h). split; [done|]. split; [done|]. split.
  - by rewrite (undo_state_set_completed css h _ (state g)).
  - by apply checkCompletedSequences_wf.
Qed.

(** ** History Manager: a move and its undo *)

Lemma getMovableCards_cons pile ci first rest :
  getMovableCards pile ci = first :: rest →
  drop ci (cards pile) = first :: rest ∧ descending (drop ci (cards pile)) = true.
Proof.
  unfold getMovableCards. by destruct (descending (drop ci (cards pile))).
Qed.

(** The outcomes of [moveCards]: nothing selected, an illegal move, or
    the move followed by the check. *)
Lemma moveCards_cases now t g g' :
  moveCards now t g = Ok g' →
  ((selectedPile g = None ∨ selectedCardIndex g = None) ∧ g' = g)
  ∨ g' = clearSelection g
  ∨ ∃ sp ci src tgt first rest,
      selectedPile g = Some sp ∧ selectedCardIndex g = Some ci ∧ sp ≠ t
      ∧ tableau (state g) !! sp = Some src ∧ tableau (state g) !! t = Some tgt
      ∧ getMovableCards src ci = first :: rest
      ∧ canPlaceCard first (last (cards tgt)) = true
      ∧ g' = checkCompletedSequences now (moved_game sp ci t src tgt g).
Proof.
  unfold moveCards.
  destruct (selectedPile g) as [sp|]; [|intros [= <-]; left; auto].
  destruct (selectedCardIndex g) as [ci|]; [|intros [= <-]; left; auto].
  case_bool_decide as Hne; [intros [= <-]; right; by left|].
  destruct (tableau (state g) !! sp) as [src|] eqn:Hsrc; [|done]. cbn.
  destruct (getMovableCards src ci) as [|first rest] eqn:Hrun;
    [intros [= <-]; right; by left|].
  destruct (tableau (state g) !! t) as [tgt|] eqn:Htgt; [|done]. cbn.
  destruct (canPlaceCard first (last (cards tgt))) eqn:Hcan; cbn;
    [|intros [= <-]; right; by left].
  intros Hg'. right. right. exists sp, ci, src, tgt, first, rest.
  do 7 (split; [done|]).
  apply getMovableCards_cons in Hrun as [Hrun _].
  destruct (flipTop (take ci (cards src))) as [newSourceCards flipped] eqn:Hflip.
  injection Hg' as <-. unfold moved_game, moved_state, move_entry, move_tableau.
  by rewrite Hflip, Hrun.
Qed.

Lemma rankValues_pos r : 1 ≤ rankValues r.
Proof. by destruct r. Qed.

(** On top of a pile without completed sequence, a descending run can
    complete a sequence only at its very end. *)
Lemma top_only_app_run tgt run :
  no_window tgt → descending run = true → top_only (tgt ++ run).
Proof.
  intros Hnw Hdesc%descending_rank_chain i s Hw.
  pose proof (window_at_bound _ _ _ Hw) as Hb.
  destruct (decide (i + 13 ≤ length tgt)%nat) as [Hle|Hgt].
  { apply window_at_app_l in Hw; [|done]. by destruct (Hnw i s). }
  destruct (decide (i + 13 = length (tgt ++ run))%nat) as [|Hne]; [done|].
  exfalso.
  destruct (window_at_lookup _ i s 12 Hw) as (x & Hx & _ & _ & Hr); [lia|].
  injection Hr as Hr.
  destruct (lookup_lt_is_Some_2 (tgt ++ run) (i + 13)) as [y Hy]; [lia|].
  rewrite lookup_app_r in Hx, Hy by lia.
  replace (i + 13 - length tgt)%nat with (S (i + 12 - length tgt)) in Hy by lia.
  pose proof (Hdesc _ x y Hx Hy) as Hxy. rewrite Hr in Hxy. cbn in Hxy.
  pose proof (rankValues_pos (rank y)). lia.
Qed.

Lemma move_tableau_lookup sp ci t src tgt T i :
  move_tableau sp ci t src tgt T !! i
  = (fun pile =>
       if bool_decide (i = sp) then mkPile (flipTop (take ci (cards src))).1
       else if bool_decide (i = t) then mkPile (cards tgt ++ drop ci (cards src))
            else pile) <$> T !! i.
Proof. unfold move_tableau. by rewrite list_lookup_imap. Qed.

Lemma move_tableau_inserts sp ci t src tgt T :
  sp ≠ t → (sp < length T)%nat → (t < length T)%nat →
  move_tableau sp ci t src tgt T
  = <[sp := mkPile (flipTop (take ci (cards src))).1]>
      (<[t := mkPile (cards tgt ++ drop ci (cards src))]> T).
Proof.
  intros Hne Hsp Ht. apply list_eq. intros i. rewrite move_tableau_lookup.
  destruct (decide (i = sp)) as [->|Hi].
  { rewrite list_lookup_insert_eq by (by rewrite length_insert).
    destruct (lookup_lt_is_Some_2 T sp Hsp) as [p ->]. cbn.
    by rewrite bool_decide_eq_true_2. }
  rewrite list_lookup_insert_ne by done.
  destruct (decide (i = t)) as [->|Hi'].
  { rewrite list_lookup_insert_eq by done.
    destruct (lookup_lt_is_Some_2 T t Ht) as [p ->]. cbn.
    rewrite bool_decide_eq_false_2 by done. by rewrite bool_decide_eq_true_2. }
  rewrite list_lookup_insert_ne by done.
  destruct (T !! i); [|done]. cbn.
  by rewrite !bool_decide_eq_false_2.
Qed.

Section move.
Context (s : GameState) (sp ci t : nat) (src tgt : Pile).
Context (Hwf : wf_state s).
Context (Hne : sp ≠ t).
Context (Hsrc : tableau s !! sp = Some src).
Context (Htgt : tableau s !! t = Some tgt).
Context (Hdesc : descending (drop ci (cards src)) = true).
Context (Hup : Forall (fun c => faceUp c = true) (drop ci (cards src))).

Lemma moved_state_ids :
  id <$> all_cards (moved_state sp ci t src tgt s) ≡ₚ id <$> all_cards s.
Proof.
  rewrite !all_cards_ids. cbn [tableau stock moved_state]. f_equiv.
  rewrite move_tableau_inserts; [|done|by eapply lookup_lt_Some..].
  rewrite !list_fmap_insert. cbn [cards].
  set (L := (fun p => id <$> cards p) <$> tableau s).
  assert (L !! sp = Some (id <$> cards src)) as HLsp.
  { unfold L. by rewrite list_lookup_fmap, Hsrc. }
  assert (L !! t = Some (id <$> cards tgt)) as HLt.
  { unfold L. by rewrite list_lookup_fmap, Htgt. }
  apply (Permutation_app_inv_r ((id <$> cards src) ++ (id <$> cards tgt))).
  rewrite (assoc (++)).
  rewrite concat_insert_Permutation
    by (by rewrite list_lookup_insert_ne by done).
  rewrite <- (assoc (++)), (comm (++) _ (id <$> cards tgt)), (assoc (++)).
  rewrite concat_insert_Permutation by done.
  rewrite flipTop_ids, fmap_app, <- !(assoc (++)). f_equiv.
  rewrite (comm (++) (id <$> cards src)). f_equiv.
  rewrite (comm (++)), <- fmap_app. by rewrite take_drop.
Qed.

Lemma moved_state_pre : pre_state (moved_state sp ci t src tgt s).
Proof.
  destruct Hwf as [Hnd Hnempty Hpiles Hlen Hstock Hwon].
  split.
  - by rewrite moved_state_ids.
  - by rewrite moved_state_ids.
  - apply Forall_lookup. intros i p Hp. cbn in Hp.
    rewrite move_tableau_lookup in Hp.
    destruct (tableau s !! i) as [q|] eqn:Hq; [|done].
    cbn in Hp. injection Hp as <-.
    rewrite Forall_lookup in Hpiles.
    destruct (decide (i = sp)) as [->|Hi].
    { rewrite bool_decide_eq_true_2 by done. cbn [cards].
      destruct (Hpiles sp src Hsrc) as [Hs Hnw].
      destruct (flipTop_prefix_ok (cards src) ci Hs) as [? ?].
      { intros j s' Hj. by destruct (Hnw j s'). }
      split; [done|]. by apply no_window_top_only. }
    rewrite bool_decide_eq_false_2 by done.
    destruct (decide (i = t)) as [->|Hi'].
    { rewrite bool_decide_eq_true_2 by done. cbn [cards].
      destruct (Hpiles t tgt Htgt) as [Hs Hnw].
      split; [by apply face_sorted_app|by apply top_only_app_run]. }
    rewrite bool_decide_eq_false_2 by done.
    destruct (Hpiles i q Hq) as [Hs Hnw].
    split; [done|]. by apply no_window_top_only.
  - cbn. unfold move_tableau. by rewrite length_imap.
  - done.
  - done.
Qed.

Lemma moved_state_undo :
  undo_state (move_entry sp ci t src) (moved_state sp ci t src tgt s) = Ok s.
Proof.
  destruct Hwf as [Hnd Hnempty Hpiles Hlen Hstock Hwon].
  pose proof (pile_ids_NoDup _ Hnd _ _ Hsrc) as Hsrc_nd.
  pose proof (two_piles_ids_NoDup s Hnd t sp tgt src Htgt Hsrc ltac:(done)) as Hts_nd.
  unfold undo_state, restore_completed. cbn [move_entry mh_completedSequences
    mh_type mh_dealtCards mh_cards mh_to mh_from mh_flippedCard].
  cbn [moved_state completedSequences tableau stock moves difficulty].
  unfold lookupZ. rewrite (bool_decide_eq_true_2 (0 ≤ Z.of_nat t)) by lia.
  rewrite Nat2Z.id.
  rewrite move_tableau_lookup, Htgt. cbn [fmap option_fmap option_map orFail mbind
    result_bind].
  rewrite bool_decide_eq_false_2 by done. rewrite bool_decide_eq_true_2 by done.
  cbn [cards].
  rewrite split_moved_app.
  2: { rewrite fmap_app. eapply sublist_NoDup; [exact Hts_nd|].
       apply sublist_app; [done|]. rewrite fmap_drop. apply sublist_drop. }
  f_equal. rewrite <- Hwon.
  transitivity (mkGameState (tableau s) (stock s) (completedSequences s) (moves s)
                  (gameWon s) (difficulty s)); [|by destruct s].
  f_equal; [|lia].
  apply list_eq. intros i. rewrite list_lookup_imap, move_tableau_lookup.
  destruct (tableau s !! i) as [q|] eqn:Hq; [|done]. cbn.
  destruct (decide (i = t)) as [->|Hit].
  { rewrite (bool_decide_eq_true_2 (Z.of_nat t = Z.of_nat t)) by done.
    assert (q = tgt) as -> by congruence. by rewrite mkPile_cards. }
  rewrite (bool_decide_eq_false_2 (Z.of_nat i = Z.of_nat t)) by lia.
  destruct (decide (i = sp)) as [->|His].
  2: { rewrite (bool_decide_eq_false_2 (Z.of_nat i = Z.of_nat sp)) by lia.
       by rewrite !bool_decide_eq_false_2 by done. }
  rewrite (bool_decide_eq_true_2 (Z.of_nat sp = Z.of_nat sp)) by done.
  rewrite (bool_decide_eq_true_2 (sp = sp)) by done. cbn [cards].
  assert (q = src) as -> by congruence.
  f_equal. transitivity (mkPile (cards src)); [f_equal|apply mkPile_cards].
  destruct (flipTop_cases (take ci (cards src)))
    as [(pre & c & Epre & Hc & ->)|[_ ->]]; cbn.
  - rewrite bool_decide_eq_true_2 by done.
    rewrite flipBackById_flipped; [by rewrite <- Epre, take_drop|done|].
    rewrite <- (take_drop ci (cards src)), Epre, !fmap_app in Hsrc_nd.
    apply NoDup_app in Hsrc_nd as [Hq' _]. apply NoDup_app in Hq' as (_ & Hd & _).
    intros Hp. apply (Hd _ Hp). cbn. by left.
  - apply take_drop.
Qed.
End move.

(** ** History Manager: a deal and its undo *)

Lemma deal_onto_cons p T c st :
  deal_onto (p :: T) (c :: st) = mkPile (cards p ++ [setFaceUp true c]) :: deal_onto T st.
Proof. done. Qed.

Lemma deal_onto_ids T st :
  (length T ≤ length st)%nat →
  concat ((fun p => id <$> cards p) <$> deal_onto T st)
  ≡ₚ concat ((fun p => id <$> cards p) <$> T) ++ (id <$> take (length T) st).
Proof.
  revert st. induction T as [|p T IH]; intros [|c st] Hlen; simpl in Hlen;
    [done|done|lia|].
  rewrite deal_onto_cons. cbn [fmap list_fmap concat cards length take].
  change (list_fmap ?A ?B ?f ?l) with (f <$> l).
  rewrite IH by lia. rewrite fmap_app, fmap_cons. cbn [id setFaceUp fmap list_fmap].
  rewrite <- !(assoc (++)). f_equiv. cbn.
  by rewrite <- Permutation_middle.
Qed.

Lemma deal_onto_undo T st :
  (length T ≤ length st)%nat →
  (fun pile => mkPile (take (length (cards pile) - 1) (cards pile))) <$> deal_onto T st
  = T.
Proof.
  revert st. induction T as [|p T IH]; intros [|c st] Hlen; simpl in Hlen;
    [done|done|lia|].
  rewrite deal_onto_cons, fmap_cons, IH by lia. f_equal. cbn [cards].
  rewrite length_app. cbn [length].
  replace (length (cards p) + 1 - 1)%nat with (length (cards p)) by lia.
  by rewrite take_app_length, mkPile_cards.
Qed.

Lemma concat_singletons {A} (l : list A) : concat ((fun c => [c]) <$> l) = l.
Proof. induction l as [|x l IH]; [done|]. cbn. by rewrite IH. Qed.

Lemma canDeal_true g :
  canDeal g = true → (10 ≤ length (stock (state g)))%nat.
Proof. unfold canDeal. intros [H _]%andb_prop. by apply bool_decide_eq_true in H. Qed.

(** The outcomes of [deal]. *)
Lemma deal_cases now g g' :
  (length (tableau (state g)) ≤ 10)%nat →
  deal now g = Ok g' →
  (canDeal g = false ∧ g' = g)
  ∨ (canDeal g = true ∧ g' = checkCompletedSequences now (dealt_game g)).
Proof.
  intros Hlen. unfold deal. destruct (canDeal g) eqn:Hcan; cbn [negb].
  - pose proof (canDeal_true g Hcan) as H10.
    rewrite dealFromStock_Ok by lia. cbn. intros [= <-]. by right.
  - intros [= <-]. by left.
Qed.

Lemma mod10_sub n : (10 ≤ n → n mod 10 = 0 → (n - 10) mod 10 = 0)%nat.
Proof.
  intros Hle H. apply Nat.Div0.div_exact in H.
  replace (n - 10)%nat with ((n / 10 - 1) * 10)%nat by lia.
  apply Nat.Div0.mod_mul.
Qed.

Section deal.
Context (s : GameState).
Context (Hwf : wf_state s).
Context (H10 : (10 ≤ length (stock s))%nat).

Lemma dealt_state_ids :
  id <$> all_cards (dealt_state s) ≡ₚ id <$> all_cards s.
Proof.
  destruct Hwf as [_ _ _ Hlen _ _].
  rewrite !all_cards_ids. cbn [tableau stock dealt_state].
  rewrite deal_onto_ids by lia. rewrite Hlen, <- (assoc (++)). f_equiv.
  by rewrite <- fmap_app, take_drop.
Qed.

Lemma dealt_state_pre : pre_state (dealt_state s).
Proof.
  destruct Hwf as [Hnd Hnempty Hpiles Hlen Hstock Hwon].
  split.
  - by rewrite dealt_state_ids.
  - by rewrite dealt_state_ids.
  - apply Forall_lookup. intros i p Hp. cbn in Hp.
    unfold deal_onto in Hp. apply lookup_zip_with_Some in Hp as (q & c & -> & Hq & Hc).
    rewrite Forall_lookup in Hpiles. destruct (Hpiles i q Hq) as [Hs Hnw].
    cbn [cards]. split.
    + apply face_sorted_app; [done|]. by repeat constructor.
    + by apply top_only_app_run.
  - cbn. rewrite deal_onto_length; lia.
  - cbn [stock dealt_state]. rewrite length_drop. by apply mod10_sub.
  - done.
Qed.

Lemma dealt_state_undo : undo_state (deal_entry s) (dealt_state s) = Ok s.
Proof.
  destruct Hwf as [Hnd Hnempty Hpiles Hlen Hstock Hwon].
  unfold undo_state, restore_completed. cbn [deal_entry mh_completedSequences
    mh_type mh_dealtCards].
  cbn [dealt_state completedSequences tableau stock moves difficulty].
  rewrite deal_onto_undo by lia. rewrite concat_singletons, take_drop.
  f_equal. rewrite <- Hwon.
  transitivity (mkGameState (tableau s) (stock s) (completedSequences s) (moves s)
                  (gameWon s) (difficulty s)); [|by destruct s].
  f_equal. lia.
Qed.
End deal.

(** ** History Manager: round trips on well-formed games *)

Lemma sel_ok_run g sp ci src :
  wf_state (state g) → sel_ok g →
  selectedPile g = Some sp → selectedCardIndex g = Some ci →
  tableau (state g) !! sp = Some src →
  Forall (fun c => faceUp c = true) (drop ci (cards src)).
Proof.
  intros [_ _ Hpiles _ _ _] Hsel Hsp Hci Hsrc.
  destruct (Hsel sp ci Hsp Hci) as (pile & card & Hpile & Hcard & Hup).
  assert (pile = src) as -> by congruence.
  rewrite Forall_lookup in Hpiles. destruct (Hpiles sp src Hsrc) as [Hs _].
  by eapply face_sorted_drop_up.
Qed.

(** A legal move is undone by [undo_state] on the record it pushed,
    and leaves a well-formed state. *)
Lemma moved_game_round_trip now g sp ci t src tgt first rest :
  wf_state (state g) → sel_ok g →
  selectedPile g = Some sp → selectedCardIndex g = Some ci → sp ≠ t →
  tableau (state g) !! sp = Some src → tableau (state g) !! t = Some tgt →
  getMovableCards src ci = first :: rest →
  let g' := checkCompletedSequences now (moved_game sp ci t src tgt g) in
  ∃ h, history g' = history g ++ [h]
       ∧ record_ok h
       ∧ undo_state h (state g') = Ok (state g)
       ∧ wf_state (state g')
       ∧ moves (state g') = moves (state g) + 1
       ∧ selectedPile g' = None ∧ selectedCardIndex g' = None
       ∧ initialState g' = initialState g.
Proof.
  intros Hwf Hsel Hsp Hci Hne Hsrc Htgt Hrun g'.
  apply getMovableCards_cons in Hrun as [Hrun Hdesc].
  pose proof (sel_ok_run g sp ci src Hwf Hsel Hsp Hci Hsrc) as Hup.
  destruct (checked_round_trip now (moved_game sp ci t src tgt g) (history g)
              (move_entry sp ci t src) (state g)) as (h' & Hh' & Hd & Hundo & Hwf');
    [done|done|by apply moved_state_pre|by apply moved_state_undo|].
  exists h'. split; [done|]. split; [unfold record_ok; by rewrite Hd|].
  split; [done|]. split; [done|].
  subst g'.
  destruct (checkCompletedSequences_frame now (moved_game sp ci t src tgt g))
    as (_ & Hm & _ & Hs1 & Hs2 & Hi).
  by rewrite Hm, Hs1, Hs2, Hi.
Qed.

(** The same for a deal. *)
Lemma dealt_game_round_trip now g :
  wf_state (state g) → canDeal g = true →
  let g' := checkCompletedSequences now (dealt_game g) in
  ∃ h, history g' = history g ++ [h]
       ∧ record_ok h
       ∧ undo_state h (state g') = Ok (state g)
       ∧ wf_state (state g')
       ∧ moves (state g') = moves (state g) + 1
       ∧ stock (state g') = drop 10 (stock (state g))
       ∧ selectedPile g' = None ∧ selectedCardIndex g' = None
       ∧ initialState g' = initialState g.
Proof.
  intros Hwf Hcan g'.
  pose proof (canDeal_true g Hcan) as H10.
  destruct (checked_round_trip now (dealt_game g) (history g)
              (deal_entry (state g)) (state g)) as (h' & Hh' & Hd & Hundo & Hwf');
    [done|done|by apply dealt_state_pre|by apply dealt_state_undo|].
  exists h'. split; [done|]. split.
  { unfold record_ok. rewrite Hd. cbn. rewrite concat_singletons, length_take. lia. }
  split; [done|]. split; [done|].
  subst g'.
  destruct (checkCompletedSequences_frame now (dealt_game g))
    as (Hst & Hm & _ & Hs1 & Hs2 & Hi).
  by rewrite Hst, Hm, Hs1, Hs2, Hi.
Qed.

(** ** The initial game is well formed *)

Lemma cardId_inj ts s r n s' r' n' :
  cardId ts s r n = cardId ts s' r' n' → n = n'.
Proof.
  unfold cardId. intros H. apply (inj (String.append (pretty ts))) in H.
  destruct s, s'; cbv [String.append suit_str] in H; simplify_eq;
    destruct r, r'; cbv [String.append rank_str] in H; simplify_eq;
    by apply (inj pretty).
Qed.

Lemma cardId_nonempty ts s r n : cardId ts s r n ≠ "".
Proof. unfold cardId. by destruct (pretty ts). Qed.

Lemma createDeck_closed d ts gid :
  (createDeck d ts gid).1
  = imap (fun k sr => mkCard (cardId ts sr.1 sr.2 (k + gid)) sr.1 sr.2 false)
         (s ← suitsToUse d; pair s <$> ranks).
Proof. destruct d; reflexivity. Qed.

Lemma NoDup_imap_index {A B} (f : nat → A → B) (l : list A) :
  (∀ i j x y, f i x = f j y → i = j) → NoDup (imap f l).
Proof.
  intros Hf. apply NoDup_alt. intros i j y Hi Hj.
  apply list_lookup_imap_Some in Hi as (x & _ & ->).
  apply list_lookup_imap_Some in Hj as (x' & _ & Hj). by eapply Hf.
Qed.

Lemma createDeck_ids_NoDup d ts gid : NoDup (id <$> (createDeck d ts gid).1).
Proof.
  rewrite createDeck_closed, fmap_imap. apply NoDup_imap_index.
  intros i j [s r] [s' r'] H. cbn in H. apply cardId_inj in H. lia.
Qed.

Lemma createDeck_ids_nonempty d ts gid : "" ∉ id <$> (createDeck d ts gid).1.
Proof.
  rewrite createDeck_closed, fmap_imap. intros H.
  apply list_elem_of_lookup in H as [i H].
  apply list_lookup_imap_Some in H as ([s r] & _ & H). cbn in H.
  by eapply cardId_nonempty.
Qed.

Lemma fmap_id_setFaceUp b (l : list Card) : id <$> (setFaceUp b <$> l) = id <$> l.
Proof. by rewrite <- list_fmap_compose. Qed.

Lemma initial_layout_ids d deck :
  id <$> all_cards (initial_layout d deck) = id <$> deck.
Proof.
  unfold all_cards, initial_layout. cbn [tableau stock fmap list_fmap cards concat].
  rewrite app_nil_r, <- !(assoc (++)), !fmap_app, !fmap_id_setFaceUp.
  rewrite <- !fmap_app. f_equal.
  rewrite !take_drop_glue by reflexivity. apply take_drop.
Qed.

Lemma face_sorted_down_up (l1 l2 : list Card) :
  face_sorted ((setFaceUp false <$> l1) ++ (setFaceUp true <$> l2)).
Proof.
  apply face_sorted_app.
  - intros i j c d' Hc _ _ Hup. apply list_lookup_fmap_Some in Hc as (c' & -> & _).
    done.
  - apply Forall_fmap, Forall_true. done.
Qed.

Lemma no_window_short cs : (length cs < 13)%nat → no_window cs.
Proof. intros Hlen i s Hw%window_at_bound. lia. Qed.

Lemma initial_layout_wf d deck :
  length deck = 104%nat → NoDup (id <$> deck) → "" ∉ id <$> deck →
  wf_state (initial_layout d deck).
Proof.
  intros Hlen Hnd Hne. split.
  - by rewrite initial_layout_ids.
  - by rewrite initial_layout_ids.
  - unfold initial_layout. cbn [tableau].
    repeat (apply Forall_cons_2 || apply Forall_nil_2); cbn [cards];
      (split; [apply face_sorted_down_up|]);
      apply no_window_short;
      rewrite length_app, !length_fmap, !length_take; lia.
  - done.
  - unfold initial_layout. cbn [stock]. by rewrite length_drop, Hlen.
  - done.
Qed.

Lemma initializeGame_wf d ts gid rand s :
  initializeGame d ts gid rand = Ok s → wf_state s.
Proof.
  rewrite (initializeGame_deck d ts gid rand _ eq_refl). intros [= <-].
  apply initial_layout_wf.
  - apply shuffled_length.
  - rewrite shuffleDeck_Permutation. apply createDeck_ids_NoDup.
  - rewrite shuffleDeck_Permutation. apply createDeck_ids_nonempty.
Qed.

(** ** Reachable games are well formed *)

Lemma hist_ok_inv s hs h :
  hist_ok s (hs ++ [h]) →
  ∃ s0, wf_state s0 ∧ hist_ok s0 hs ∧ record_ok h ∧ undo_state h s = Ok s0.
Proof.
  intros H. remember (hs ++ [h]) as l eqn:E.
  destruct H as [|s s0 hs' h' Hwf Hh Hr Hu].
  - by destruct hs.
  - apply app_inj_tail in E as [-> ->]. eauto.
Qed.

(** The outcomes of [undo]. *)
Lemma undo_cases g g' :
  undo g = Ok g' →
  (history g = [] ∧ g' = g)
  ∨ ∃ hs h s0, history g = hs ++ [h] ∧ undo_state h (state g) = Ok s0
      ∧ g' = {| state := s0; history := hs; selectedPile := None;
                selectedCardIndex := None; initialState := initialState g |}.
Proof.
  unfold undo. destruct (last (history g)) as [h|] eqn:Hl.
  - apply last_Some in Hl as [hs Hhs]. rewrite Hhs.
    destruct (undo_state h (state g)) as [s0|] eqn:Hu; [|done]. cbn.
    intros [= <-]. right. exists hs, h, s0. split; [done|]. split; [done|].
    rewrite length_app. cbn. by rewrite Nat.add_sub, take_app_length.
  - apply last_None in Hl. intros [= <-]. by left.
Qed.

Lemma moveCards_ok now t g g' :
  game_ok g → moveCards now t g = Ok g' → game_ok g'.
Proof.
  intros Hok Hmove. pose proof Hok as [Hwf Hh Hsel Hinit].
  destruct (moveCards_cases now t g g' Hmove)
    as [[_ ->]|[->|(sp & ci & src & tgt & first & rest & Hsp & Hci & Hne & Hsrc
                    & Htgt & Hrun & Hcan & ->)]]; [done| |].
  - split; [done|done| |done]. by intros p c [=].
  - destruct (moved_game_round_trip now g sp ci t src tgt first rest)
      as (h & Hh' & Hr & Hu & Hwf' & _ & Hs1 & Hs2 & Hi); [done..|].
    split; [done| | |by rewrite Hi].
    + rewrite Hh'. by apply (hist_ok_snoc _ (state g)).
    + intros p c. by rewrite Hs1.
Qed.

Lemma deal_ok now g g' : game_ok g → deal now g = Ok g' → game_ok g'.
Proof.
  intros Hok Hdeal. pose proof Hok as [Hwf Hh Hsel Hinit].
  destruct (deal_cases now g g') as [[_ ->]|[Hcan ->]]; [|done|done|].
  { destruct Hwf as [_ _ _ Hlen _ _]. lia. }
  destruct (dealt_game_round_trip now g)
    as (h & Hh' & Hr & Hu & Hwf' & _ & _ & Hs1 & Hs2 & Hi); [done..|].
  split; [done| | |by rewrite Hi].
  - rewrite Hh'. by apply (hist_ok_snoc _ (state g)).
  - intros p c. by rewrite Hs1.
Qed.

Lemma undo_ok g g' : game_ok g → undo g = Ok g' → game_ok g'.
Proof.
  intros Hok Hundo. pose proof Hok as [Hwf Hh Hsel Hinit].
  destruct (undo_cases g g' Hundo) as [[_ ->]|(hs & h & s0 & Hhs & Hu & ->)]; [done|].
  rewrite Hhs in Hh. apply hist_ok_inv in Hh as (s0' & Hwf0 & Hh0 & _ & Hu').
  assert (s0' = s0) as -> by congruence.
  split; [done|done| |done]. by intros p c [=].
Qed.

Lemma setSelection_ok p c pile card g :
  game_ok g → tableau (state g) !! p = Some pile → cards pile !! c = Some card →
  faceUp card = true → game_ok (setSelection p c g).
Proof.
  intros [Hwf Hh Hsel Hinit] Hp Hc Hup. split; [done|done| |done].
  intros p' c' [= <-] [= <-]. eauto.
Qed.

Lemma selectCards_ok now p c skip g g' :
  game_ok g → selectCards now p c skip g = Ok g' → game_ok g'.
Proof.
  intros Hok. unfold selectCards.
  destruct (tableau (state g) !! p) as [pile|] eqn:Hp; [|done]. cbn -[moveCards findBestMove].
  destruct (cards pile !! c) as [card|] eqn:Hc; [|done]. cbn -[moveCards findBestMove].
  destruct (faceUp card) eqn:Hup; cbn -[moveCards findBestMove]; [|by intros [= <-]].
  pose proof (setSelection_ok p c pile card g Hok Hp Hc Hup) as Hsel.
  destruct (getMovableCards pile c); [by intros [= <-]|].
  destruct skip; [by intros [= <-]|].
  destruct (findBestMove g p c) as [[b|]|]; cbn -[moveCards findBestMove]; [|by intros [= <-]|done].
  case_bool_decide; [|by intros [= <-]]. by apply moveCards_ok.
Qed.

Lemma initial_game_ok s s0 :
  wf_state s → wf_state s0 →
  game_ok {| state := s; history := []; selectedPile := None;
             selectedCardIndex := None; initialState := s0 |}.
Proof.
  intros Hs Hs0. split; [done|constructor| |done]. by intros p c [=].
Qed.

Lemma bind_Ok {A B} (m : result A) (f : A → result B) (b : B) :
  m ≫= f = Ok b → ∃ a, m = Ok a ∧ f a = Ok b.
Proof. destruct m as [a|e]; [|done]. intros H. by exists a. Qed.

Lemma newSpiderSolitaireGame_ok ts1 ts2 gid rand1 rand2 g :
  newSpiderSolitaireGame ts1 ts2 gid rand1 rand2 = Ok g → game_ok g.
Proof.
  unfold newSpiderSolitaireGame.
  intros (s & Hs & (s0 & Hs0 & H)%bind_Ok)%bind_Ok.
  injection H as <-.
  apply initial_game_ok;
    [exact (initializeGame_wf _ _ _ _ _ Hs)|exact (initializeGame_wf _ _ _ _ _ Hs0)].
Qed.

Lemma newGame_ok d ts gid rand g g' :
  newGame d ts gid rand g = Ok g' → game_ok g'.
Proof.
  unfold newGame. intros (s & Hs & H)%bind_Ok. injection H as <-.
  apply initial_game_ok; exact (initializeGame_wf _ _ _ _ _ Hs).
Qed.

Lemma reachable_ok g : reachable g → game_ok g.
Proof.
  induction 1 as [ts1 ts2 gid rand1 rand2 g Hnew
                 |d ts gid rand g g' _ IH Hnew
                 |g _ IH
                 |now p c skip g g' _ IH Hsel
                 |p c pile card g _ IH Hp Hc Hup
                 |g _ IH
                 |now t g g' _ IH Hmove
                 |now g g' _ IH Hdeal
                 |g g' _ IH Hundo].
  - by eapply newSpiderSolitaireGame_ok.
  - by eapply newGame_ok.
  - destruct IH as [_ _ _ Hinit]. by apply initial_game_ok.
  - by eapply selectCards_ok.
  - by eapply setSelection_ok.
  - destruct IH as [Hwf Hh _ Hinit]. split; [done|done| |done]. by intros p c [=].
  - by eapply moveCards_ok.
  - by eapply deal_ok.
  - by eapply undo_ok.
Qed.

Lemma legal_move_moveCards now t g :
  legal_move g t →
  ∃ sp ci src tgt first rest,
    selectedPile g = Some sp ∧ selectedCardIndex g = Some ci ∧ sp ≠ t
    ∧ tableau (state g) !! sp = Some src ∧ tableau (state g) !! t = Some tgt
    ∧ getMovableCards src ci = first :: rest
    ∧ moveCards now t g = Ok (checkCompletedSequences now (moved_game sp ci t src tgt g)).
Proof.
  intros (sp & ci & src & tgt & first & rest & Hsp & Hci & Hne & Hsrc & Htgt
          & Hrun & Hcan).
  exists sp, ci, src, tgt, first, rest. do 6 (split; [done|]).
  unfold moveCards. rewrite Hsp, Hci, bool_decide_eq_false_2 by done.
  rewrite Hsrc. cbn. rewrite Hrun, Htgt. cbn. rewrite Hcan. cbn.
  apply getMovableCards_cons in Hrun as [Hrun _].
  destruct (flipTop (take ci (cards src))) as [newSourceCards flipped] eqn:Hflip.
  unfold moved_game, moved_state, move_entry, move_tableau.
  by rewrite Hflip, Hrun.
Qed.

Lemma undo_snoc g h s0 hs :
  history g = hs ++ [h] → undo_state h (state g) = Ok s0 →
  undo g = Ok {| state := s0; history := hs; selectedPile := None;
                 selectedCardIndex := None; initialState := initialState g |}.
Proof.
  intros Hh Hu. unfold undo. rewrite Hh, last_snoc, Hu. cbn.
  rewrite length_app. cbn. by rewrite Nat.add_sub, take_app_length.
Qed.

(** C1: in every reachable game, a legal move followed by [undo], and
    a legal deal followed by [undo], gives back the state of before
    (tableau, stock, completed sequences, [gameWon], [moves] and
    difficulty, card for card with the faces as they were) and the
    history of before; the move or deal itself adds 1 to [moves]. *)
Theorem undo_round_trip (now : nat → Z) (t : nat) (g : SpiderSolitaireGame) :
  reachable g →
  (legal_move g t →
   ∃ g' g'', moveCards now t g = Ok g'
     ∧ moves (state g') = moves (state g) + 1
     ∧ undo g' = Ok g''
     ∧ state g'' = state g ∧ history g'' = history g)
  ∧ (canDeal g = true →
     ∃ g' g'', deal now g = Ok g'
       ∧ moves (state g') = moves (state g) + 1
       ∧ undo g' = Ok g''
       ∧ state g'' = state g ∧ history g'' = history g).
Proof.
  intros [Hwf Hh Hsel Hinit]%reachable_ok. split.
  - intros Hlegal.
    destruct (legal_move_moveCards now t g Hlegal)
      as (sp & ci & src & tgt & first & rest & Hsp & Hci & Hne & Hsrc & Htgt
          & Hrun & Hmove).
    destruct (moved_game_round_trip now g sp ci t src tgt first rest)
      as (h & Hh' & _ & Hu & _ & Hm & _); [done..|].
    eexists _, _. split; [exact Hmove|]. split; [done|].
    split; [by eapply undo_snoc|done].
  - intros Hcan.
    destruct (dealt_game_round_trip now g)
      as (h & Hh' & _ & Hu & _ & Hm & _); [done..|].
    eexists _, _. split.
    { unfold deal. rewrite Hcan. cbn [negb].
      rewrite dealFromStock_Ok; [done|by apply canDeal_true|].
      destruct Hwf as [_ _ _ Hlen _ _]. apply canDeal_true in Hcan. lia. }
    split; [done|]. split; [by eapply undo_snoc|done].
Qed.

(** ** Witness games *)

Lemma demo_new_Ok : demo_new = Ok demo_fresh.
Proof. vm_compute. reflexivity. Qed.

Lemma demo_game_reachable : reachable demo_game.
Proof.
  unfold demo_game.
  eapply (reach_setSelection 1 5).
  - eapply reach_new. exact demo_new_Ok.
  - vm_compute. reflexivity.
  - vm_compute. reflexivity.
  - reflexivity.
Defined.

Lemma demo_game_legal_move : legal_move demo_game 6.
Proof.
  unfold legal_move. eexists 1%nat, 5%nat, _, _, _, _.
  split; [reflexivity|]. split; [reflexivity|]. split; [lia|].
  split; [vm_compute; reflexivity|]. split; [vm_compute; reflexivity|].
  split; [vm_compute; reflexivity|]. vm_compute; reflexivity.
Defined.

Lemma undo_round_trip_witness :
  reachable demo_game ∧ legal_move demo_game 6 ∧ canDeal demo_game = true
  ∧ (∃ g' g'', moveCards (fun _ => 0) 6 demo_game = Ok g'
       ∧ moves (state g') = moves (state demo_game) + 1
       ∧ undo g' = Ok g''
       ∧ state g'' = state demo_game ∧ history g'' = history demo_game)
  ∧ (∃ g' g'', deal (fun _ => 0) demo_game = Ok g'
       ∧ moves (state g') = moves (state demo_game) + 1
       ∧ undo g' = Ok g''
       ∧ state g'' = state demo_game ∧ history g'' = history demo_game).
Proof.
  split; [exact demo_game_reachable|].
  split; [exact demo_game_legal_move|].
  split; [vm_compute; reflexivity|].
  destruct (undo_round_trip (fun _ => 0) 6 demo_game demo_game_reachable) as [Hm Hd].
  split.
  - exact (Hm demo_game_legal_move).
  - apply Hd. vm_compute; reflexivity.
Defined.

(** A move that completes a sequence: the 13 cards leave pile 0, the
    card under them and the card under the moved ace are turned face
    up, and [undo] puts everything back. *)
Example completed_sequence_undone :
  ∃ g', moveCards (fun _ => 1700000000500) 0 almost_complete_game = Ok g'
    ∧ cards <$> tableau (state g') !! 0%nat = Some [mkCard "h7" Hearts R7 true]
    ∧ cards <$> tableau (state g') !! 1%nat = Some [mkCard "hJ" Hearts RJ true]
    ∧ completedSequences (state g')
      = [mkCompletedSequence "♠-1700000000500-0" Spades]
    ∧ moves (state g') = 41
    ∧ length (history g') = 1%nat
    ∧ undo g' = Ok (clearSelection almost_complete_game).
Proof. eexists. split; [vm_compute; reflexivity|]. vm_compute. done. Qed.

(** ** The stock *)

Lemma moveCards_stock now t g g' :
  moveCards now t g = Ok g' → stock (state g') = stock (state g).
Proof.
  intros Hmove.
  destruct (moveCards_cases now t g g' Hmove)
    as [[_ ->]|[->|(sp & ci & src & tgt & first & rest & _ & _ & _ & _ & _ & _ & _ & ->)]];
    [done|done|].
  by destruct (checkCompletedSequences_frame now (moved_game sp ci t src tgt g))
    as (-> & _).
Qed.

Lemma selectCards_stock now p c skip g g' :
  selectCards now p c skip g = Ok g' → stock (state g') = stock (state g).
Proof.
  unfold selectCards.
  destruct (tableau (state g) !! p) as [pile|]; [|done]. cbn -[moveCards findBestMove].
  destruct (cards pile !! c) as [card|]; [|done]. cbn -[moveCards findBestMove].
  destruct (faceUp card); cbn -[moveCards findBestMove]; [|by intros [= <-]].
  destruct (getMovableCards pile c); [by intros [= <-]|].
  destruct skip; [by intros [= <-]|].
  destruct (findBestMove g p c) as [[b|]|]; cbn -[moveCards findBestMove];
    [|by intros [= <-]|done].
  case_bool_decide; [|by intros [= <-]].
  intros Hmove. by rewrite (moveCards_stock _ _ _ _ Hmove).
Qed.

Lemma undo_state_stock h s s0 :
  record_ok h → undo_state h s = Ok s0 →
  stock s0 = stock s
  ∨ ∃ dealt, length dealt = 10%nat ∧ stock s0 = dealt ++ stock s.
Proof.
  unfold record_ok, undo_state. intros Hr.
  destruct (restore_completed h s) as [cs T].
  destruct (mh_type h) as [[|]|], (mh_dealtCards h) as [dealt|];
    try (intros (tgt & _ & H)%bind_Ok;
         destruct (split_moved _ _ _); injection H as <-; by left).
  intros [= <-]. right. by exists (concat dealt).
Qed.

(** What [undo] does to the stock, by the kind of the record. *)
Lemma undo_state_stock_record h s s0 :
  undo_state h s = Ok s0 →
  match mh_type h, mh_dealtCards h with
  | Some TDeal, Some dealtCards => stock s0 = concat dealtCards ++ stock s
  | _, _ => stock s0 = stock s
  end.
Proof.
  unfold undo_state.
  destruct (restore_completed h s) as [cs T].
  destruct (mh_type h) as [[|]|], (mh_dealtCards h) as [dealt|];
    try (intros (tgt & _ & H)%bind_Ok;
         destruct (split_moved _ _ _); by injection H as <-).
  by intros [= <-].
Qed.

(** The record that a deal leaves on the history, and its [undo]. *)
Lemma dealt_game_record now g :
  wf_state (state g) → canDeal g = true →
  let g' := checkCompletedSequences now (dealt_game g) in
  ∃ h, history g' = history g ++ [h]
       ∧ mh_type h = Some TDeal
       ∧ mh_dealtCards h = Some ((fun c => [c]) <$> take 10 (stock (state g)))
       ∧ undo_state h (state g') = Ok (state g).
Proof.
  intros Hwf Hcan g'. pose proof (canDeal_true g Hcan) as H10.
  pose proof (dealt_state_pre (state g) Hwf H10) as Hpre.
  destruct (checkCompletedSequences_restore now (dealt_game g) (history g)
              (deal_entry (state g)) eq_refl eq_refl
              (pre_state_restorable _ Hpre)) as (css & Hh' & _).
  destruct (checked_round_trip now (dealt_game g) (history g)
              (deal_entry (state g)) (state g)) as (h' & Hh'' & _ & Hundo & _);
    [done|done|done|by apply dealt_state_undo|].
  subst g'. rewrite Hh' in Hh''. apply app_inj_tail in Hh'' as [_ <-].
  by eexists.
Qed.

(** C8: in every reachable game the number of cards in the stock is a
    multiple of 10.  [moveCards] and [selectCards] leave the stock as it
    is; a legal deal removes its first 10 cards and a rejected deal
    nothing.  [undo] acts by the record it pops: for the record of a
    deal it puts the 10 cards of the record back in front of the stock,
    for any other record it leaves the stock as it is, and with an
    empty history it does nothing; so a deal followed by [undo] puts
    exactly the 10 cards dealt back in front.  A new game has 50 cards
    in the stock, and a restarted game the stock of the initial
    state. *)
Theorem stock_multiple_of_10 (g : SpiderSolitaireGame) :
  reachable g →
  (length (stock (state g)) mod 10 = 0)%nat
  ∧ (∀ now t g', moveCards now t g = Ok g' → stock (state g') = stock (state g))
  ∧ (∀ now p c skip g', selectCards now p c skip g = Ok g' →
       stock (state g') = stock (state g))
  ∧ (∀ now g', deal now g = Ok g' →
       (canDeal g = false ∧ g' = g)
       ∨ (canDeal g = true ∧ stock (state g') = drop 10 (stock (state g))
          ∧ (length (stock (state g')) + 10 = length (stock (state g)))%nat))
  ∧ (∀ g', undo g = Ok g' →
       match last (history g) with
       | None => g' = g
       | Some h =>
           match mh_type h, mh_dealtCards h with
           | Some TDeal, Some dealtCards =>
               length (concat dealtCards) = 10%nat
               ∧ stock (state g') = concat dealtCards ++ stock (state g)
           | _, _ => stock (state g') = stock (state g)
           end
       end)
  ∧ (∀ now g' g'', canDeal g = true → deal now g = Ok g' → undo g' = Ok g'' →
       (∃ h, last (history g') = Some h ∧ mh_type h = Some TDeal
             ∧ mh_dealtCards h
               = Some ((fun c => [c]) <$> take 10 (stock (state g))))
       ∧ stock (state g'') = take 10 (stock (state g)) ++ stock (state g')
       ∧ stock (state g'') = stock (state g))
  ∧ (∀ d ts gid rand g', newGame d ts gid rand g = Ok g' →
       length (stock (state g')) = 50%nat)
  ∧ stock (state (restartGame g)) = stock (initialState g)
  ∧ (length (stock (initialState g)) mod 10 = 0)%nat.
Proof.
  intros Hok%reachable_ok. pose proof Hok as [Hwf Hh Hsel Hinit].
  split; [by destruct Hwf|].
  split; [intros now t g'; apply moveCards_stock|].
  split; [intros now p c skip g'; apply selectCards_stock|].
  split; [|split; [|split; [|split; [|split; [done|by destruct Hinit]]]]].
  - intros now g' Hdeal.
    destruct (deal_cases now g g') as [[Hcan ->]|[Hcan ->]]; [|done|by left|right].
    { destruct Hwf as [_ _ _ Hlen _ _]. lia. }
    split; [done|].
    destruct (checkCompletedSequences_frame now (dealt_game g)) as (-> & _).
    cbn. split; [done|]. rewrite length_drop. apply canDeal_true in Hcan. lia.
  - intros g' Hundo.
    destruct (undo_cases g g' Hundo) as [[-> ->]|(hs & h & s0 & Hhs & Hu & ->)];
      [done|].
    rewrite Hhs, last_snoc. rewrite Hhs in Hh.
    apply hist_ok_inv in Hh as (s0' & _ & _ & Hr & _).
    pose proof (undo_state_stock_record h (state g) s0 Hu) as Hs.
    unfold record_ok in Hr. cbn [state].
    destruct (mh_type h) as [[|]|], (mh_dealtCards h) as [dealt|]; try done.
  - intros now g' g'' Hcan Hdeal Hundo.
    destruct (deal_cases now g g') as [[Hcan' _]|[_ ->]]; [|done|congruence|].
    { destruct Hwf as [_ _ _ Hlen _ _]. lia. }
    destruct (dealt_game_record now g Hwf Hcan) as (h & Hh' & Hty & Hd & Hu).
    rewrite (undo_snoc _ _ _ _ Hh' Hu) in Hundo. injection Hundo as <-.
    cbn [state].
    destruct (checkCompletedSequences_frame now (dealt_game g)) as (-> & _).
    cbn [dealt_game state dealt_state stock].
    split; [|by rewrite take_drop].
    exists h. by rewrite Hh', last_snoc.
  - intros d ts gid rand g'. unfold newGame. intros (s & Hs & H)%bind_Ok.
    injection H as <-. cbn.
    rewrite (initializeGame_deck _ ts gid rand _ eq_refl) in Hs.
    injection Hs as <-. unfold initial_layout. cbn.
    by rewrite length_drop, shuffled_length.
Qed.

Lemma stock_multiple_of_10_witness :
  reachable demo_game ∧ canDeal demo_game = true
  ∧ (length (stock (state demo_game)) mod 10 = 0)%nat
  ∧ ∃ g' g'', deal (fun _ => 0) demo_game = Ok g' ∧ undo g' = Ok g''
      ∧ length (stock (state g')) = 40%nat
      ∧ stock (state g'') = take 10 (stock (state demo_game)) ++ stock (state g')
      ∧ stock (state g'') = stock (state demo_game).
Proof.
  assert (canDeal demo_game = true) as Hcan by (vm_compute; reflexivity).
  split; [exact demo_game_reachable|]. split; [exact Hcan|].
  destruct (stock_multiple_of_10 demo_game demo_game_reachable)
    as (Hmod & _ & _ & Hdeal & _ & Hdu & _).
  split; [exact Hmod|].
  destruct (deal (fun _ => 0) demo_game) as [g'|e] eqn:Ed.
  2: { exfalso. vm_compute in Ed. discriminate. }
  destruct (undo g') as [g''|e] eqn:Eu.
  2: { exfalso. revert Eu.
       assert (match deal (fun _ => 0) demo_game with
               | Ok x => match undo x with Ok _ => true | Fail _ => false end
               | Fail _ => false
               end = true) as Hc by (vm_compute; reflexivity).
       rewrite Ed in Hc. intros Eu. rewrite Eu in Hc. discriminate. }
  exists g', g''. split; [reflexivity|]. split; [exact Eu|].
  destruct (Hdeal (fun _ => 0) g' Ed) as [[Hf _]|(_ & _ & Hlen)]; [congruence|].
  destruct (Hdu (fun _ => 0) g' g'' Hcan Ed Eu) as (_ & H1 & H2).
  split; [|by split].
  assert (length (stock (state demo_game)) = 50%nat) as H50
    by (vm_compute; reflexivity).
  lia.
Defined.

(** ** Rejected operations *)

(** C5: an illegal move (same source and destination, no movable run,
    or a first card that cannot be placed), a deal that [canDeal]
    forbids and [undo] with an empty history return without raising;
    state and history stay as they are, and the illegal move clears the
    selection.  A move without a selection returns the game as it is. *)
Theorem rejected_operations (now : nat → Z) (t : nat) (g : SpiderSolitaireGame) :
  (illegal_move g t →
   ∃ g', moveCards now t g = Ok g'
     ∧ state g' = state g ∧ history g' = history g
     ∧ selectedPile g' = None ∧ selectedCardIndex g' = None)
  ∧ (canDeal g = false → deal now g = Ok g)
  ∧ (history g = [] → undo g = Ok g)
  ∧ (selectedPile g = None ∨ selectedCardIndex g = None → moveCards now t g = Ok g).
Proof.
  split; [|split; [|split]]; cycle 3.
  { unfold moveCards. intros [->| ->]; [done|]. by destruct (selectedPile g). }
  - intros (sp & ci & Hsp & Hci & Hcase). exists (clearSelection g).
    split; [|done]. unfold moveCards. rewrite Hsp, Hci.
    destruct Hcase as [->|(src & Hsrc & Hcase)].
    { by rewrite bool_decide_eq_true_2. }
    case_bool_decide; [done|]. rewrite Hsrc. cbn.
    destruct Hcase as [->|(first & rest & tgt & -> & -> & Hcan)]; [done|].
    cbn. by rewrite Hcan.
  - intros Hcan. unfold deal. by rewrite Hcan.
  - intros Hh. unfold undo. by rewrite Hh.
Qed.

Lemma rejected_operations_witness :
  illegal_move demo_game 0 ∧ canDeal game_with_empty_pile = false
  ∧ history demo_game = []
  ∧ (∃ g', moveCards (fun _ => 0) 0 demo_game = Ok g'
       ∧ state g' = state demo_game ∧ history g' = history demo_game
       ∧ selectedPile g' = None ∧ selectedCardIndex g' = None)
  ∧ deal (fun _ => 0) game_with_empty_pile = Ok game_with_empty_pile
  ∧ undo demo_game = Ok demo_game.
Proof.
  assert (illegal_move demo_game 0) as Hill.
  { exists 1%nat, 5%nat. split; [reflexivity|]. split; [reflexivity|].
    right. eexists. split; [vm_compute; reflexivity|].
    right. eexists _, _, _. split; [vm_compute; reflexivity|].
    split; vm_compute; reflexivity. }
  split; [exact Hill|]. split; [vm_compute; reflexivity|].
  split; [reflexivity|].
  split; [exact (proj1 (rejected_operations (fun _ => 0) 0 demo_game) Hill)|].
  split.
  - refine (proj1 (proj2 (rejected_operations (fun _ => 0) 0 game_with_empty_pile)) _).
    vm_compute; reflexivity.
  - refine (proj1 (proj2 (proj2 (rejected_operations (fun _ => 0) 0 demo_game))) _).
    reflexivity.
Defined.

(** ** Hint Advisor: the sort *)

Section js_sort.
Context {A : Type} (key : A → Z).
Let cmp := fun a b : A => key b - key a.

Lemma sort_insert_Permutation x l : sort_insert cmp x l ≡ₚ x :: l.
Proof.
  induction l as [|y l IH]; [done|]. cbn. case_bool_decide; [done|].
  by rewrite IH, Permutation_swap.
Qed.

Lemma js_sort_Permutation l : js_sort cmp l ≡ₚ l.
Proof.
  induction l as [|x l IH]; [done|]. cbn.
  by rewrite sort_insert_Permutation, IH.
Qed.

Lemma sort_insert_sorted x l :
  StronglySorted (fun a b => key b ≤ key a) l →
  StronglySorted (fun a b => key b ≤ key a) (sort_insert cmp x l).
Proof.
  induction 1 as [|y l Hl IH Hy]; cbn; [by repeat constructor|].
  unfold cmp at 1. case_bool_decide as Hxy.
  - constructor; [by constructor|]. constructor; [lia|].
    eapply Forall_impl; [exact Hy|]. cbn. intros z Hz. lia.
  - constructor; [done|]. rewrite sort_insert_Permutation.
    constructor; [lia|done].
Qed.

Lemma js_sort_sorted l : StronglySorted (fun a b => key b ≤ key a) (js_sort cmp l).
Proof.
  induction l as [|x l IH]; cbn; [constructor|]. by apply sort_insert_sorted.
Qed.

(** Elements of equal key keep their order: [x] is placed before the
    first element whose key is not greater. *)
Lemma sort_insert_stable p x l :
  filter (fun a => key a = p) (sort_insert cmp x l)
  = filter (fun a => key a = p) (x :: l).
Proof.
  induction l as [|y l IH]; [done|]. cbn [sort_insert].
  unfold cmp at 1. case_bool_decide as Hxy; [done|].
  rewrite filter_cons, IH, !filter_cons.
  destruct (decide (key y = p)), (decide (key x = p)); try done. lia.
Qed.

Lemma js_sort_stable p l :
  filter (fun a => key a = p) (js_sort cmp l) = filter (fun a => key a = p) l.
Proof.
  induction l as [|x l IH]; [done|]. cbn [js_sort foldr].
  fold (js_sort cmp l). by rewrite sort_insert_stable, !filter_cons, IH.
Qed.
End js_sort.

(** ** Hint Advisor: the moves discovered *)

Lemma elem_of_concat {A} (x : A) (ls : list (list A)) :
  x ∈ concat ls ↔ ∃ l, x ∈ l ∧ l ∈ ls.
Proof.
  induction ls as [|l ls IH]; cbn.
  - split; [by intros ?%elem_of_nil|]. by intros (l & _ & ?%elem_of_nil).
  - rewrite elem_of_app, IH. split.
    + intros [H|(l' & H & H')]; [exists l; split; [done|by left]|].
      exists l'. split; [done|by right].
    + intros (l' & H & [->|H']%elem_of_cons); [by left|]. right. eauto.
Qed.

Lemma elem_of_concat_imap {A B} (f : nat → A → list B) (T : list A) (x : B) :
  x ∈ concat (imap f T) ↔ ∃ i a, T !! i = Some a ∧ x ∈ f i a.
Proof.
  rewrite elem_of_concat. split.
  - intros (l & Hx & (i & a & -> & Ha)%elem_of_lookup_imap). eauto.
  - intros (i & a & Ha & Hx). exists (f i a). split; [done|].
    by apply elem_of_lookup_imap_2.
Qed.

Lemma StronglySorted_concat_imap {A B} (R : relation B)
    (f : nat → A → list B) (T : list A) :
  (∀ i a, T !! i = Some a → StronglySorted R (f i a)) →
  (∀ i j a b x y, T !! i = Some a → T !! j = Some b → (i < j)%nat →
                  x ∈ f i a → y ∈ f j b → R x y) →
  StronglySorted R (concat (imap f T)).
Proof.
  revert f. induction T as [|a T IH]; intros f Hs Hc; [constructor|].
  rewrite imap_cons. cbn [concat]. apply StronglySorted_app_2.
  - intros x y Hx (j & b & Hb & Hy)%elem_of_concat_imap.
    apply (Hc 0%nat (S j) a b); [done|done|lia|done|done].
  - by apply (Hs 0%nat).
  - apply IH.
    + intros i b Hb. by apply (Hs (S i)).
    + intros i j b c x y Hb Hc' Hij. apply (Hc (S i) (S j)); [done|done|lia].
Qed.

Lemma getSequenceLengthFromEnd_pos tgt top :
  last (cards tgt) = Some top →
  (0 < getSequenceLengthFromEnd tgt)%nat ↔ faceUp top = true.
Proof.
  intros Hl. unfold getSequenceLengthFromEnd.
  apply last_Some in Hl as [l ->]. rewrite reverse_snoc.
  destruct (faceUp top); cbn; split; intros; try done; lia.
Qed.

(** The body of the innermost loop against the table. *)
Lemma score_target_spec sp src ci run first tp tgt m :
  run = drop ci (cards src) → cards src !! ci = Some first → run ≠ [] →
  m ∈ score_target sp src ci run first (flips_card src ci) tp tgt ↔
  tp ≠ sp ∧ canPlaceCard first (last (cards tgt)) = true
  ∧ ∃ p, table_score src tgt ci first = Some p
         ∧ m = mkMeaningfulMove sp ci tp p (reason_of p).
Proof.
  intros Hrun Hfirst Hne. unfold score_target, table_score.
  case_bool_decide as Htp.
  { split; [by intros ?%elem_of_nil|]. by intros [? _]. }
  destruct (canPlaceCard first (last (cards tgt))) eqn:Hcan; cbn [negb].
  2: { split; [by intros ?%elem_of_nil|]. by intros (_ & ? & _). }
  destruct (last (cards tgt)) as [top|] eqn:Hlast.
  2: { rewrite list_elem_of_singleton. split.
       - intros ->. split; [done|]. split; [done|].
         eexists. split; [done|]. by destruct (flips_card src ci).
       - intros (_ & _ & p & [= <-] & ->). by destruct (flips_card src ci). }
  destruct (flips_card src ci) eqn:Hflip.
  { rewrite list_elem_of_singleton. split.
    - intros ->. split; [done|]. split; [done|].
      eexists. split; [done|]. by case_bool_decide.
    - intros (_ & _ & p & [= <-] & ->). by case_bool_decide. }
  case_bool_decide as Hsuit; cbn [andb].
  2: { split; [by intros ?%elem_of_nil|]. by intros (_ & _ & p & ? & _). }
  fold (joined_below src ci first).
  destruct (joined_below src ci first); cbn [negb andb].
  { rewrite andb_false_r.
    split; [by intros ?%elem_of_nil|]. by intros (_ & _ & p & ? & _). }
  rewrite andb_true_r.
  pose proof (getSequenceLengthFromEnd_pos tgt top Hlast) as Hpos.
  case_bool_decide as Hlen.
  - rewrite (proj1 Hpos) by lia. rewrite list_elem_of_singleton. split.
    + intros ->. split; [done|]. split; [done|]. by eexists.
    + by intros (_ & _ & p & [= <-] & ->).
  - destruct (faceUp top).
    { destruct Hlen. pose proof (proj2 Hpos eq_refl). lia. }
    split; [by intros ?%elem_of_nil|]. by intros (_ & _ & p & ? & _).
Qed.





(** The moves of one run start, by target pile. *)
Lemma run_moves_elem (s : GameState) sp src ci first m :
  cards src !! ci = Some first →
  m ∈ concat (imap (score_target sp src ci (drop ci (cards src)) first
                      (flips_card src ci)) (tableau s)) ↔
  ∃ tp tgt, tableau s !! tp = Some tgt ∧ tp ≠ sp
    ∧ canPlaceCard first (last (cards tgt)) = true
    ∧ ∃ p, table_score src tgt ci first = Some p
           ∧ m = mkMeaningfulMove sp ci tp p (reason_of p).
Proof.
  intros Hfirst. rewrite elem_of_concat_imap.
  assert (drop ci (cards src) ≠ []) as Hne.
  { intros E. apply (f_equal length) in E. rewrite length_drop in E.
    apply lookup_lt_Some in Hfirst. cbn in E. lia. }
  split.
  - intros (tp & tgt & Htgt & Hm).
    apply score_target_spec in Hm as (? & ? & ?); [|done..]. eauto 10.
  - intros (tp & tgt & Htgt & Htp & Hcan & Hp). exists tp, tgt.
    split; [done|]. apply score_target_spec; [done..|]. eauto.
Qed.

Lemma discovered_moves_eq s :
  discovered_moves s
  = concat (imap (fun sp src => concat (imap (card_moves s sp src) (cards src)))
                 (tableau s)).
Proof. done. Qed.

Lemma card_moves_elem s sp src ci card m :
  cards src !! ci = Some card →
  m ∈ card_moves s sp src ci card ↔
  faceUp card = true ∧ rank_chain (drop ci (cards src))
  ∧ ∃ tp tgt, tableau s !! tp = Some tgt ∧ tp ≠ sp
      ∧ canPlaceCard card (last (cards tgt)) = true
      ∧ ∃ p, table_score src tgt ci card = Some p
             ∧ m = mkMeaningfulMove sp ci tp p (reason_of p).
Proof.
  intros Hcard. unfold card_moves.
  destruct (faceUp card); cbn [negb].
  2: { split; [by intros ?%elem_of_nil|]. by intros [? _]. }
  assert (∃ rest, drop ci (cards src) = card :: rest) as [rest Hdrop].
  { apply list_elem_of_split_length in Hcard as (l1 & l2 & -> & ->).
    exists l2. by rewrite drop_app_length. }
  unfold getMovableCards. rewrite <- descending_rank_chain.
  destruct (descending (drop ci (cards src))) eqn:Hd.
  - rewrite Hdrop at 1. rewrite run_moves_elem by done. tauto.
  - split; [by intros ?%elem_of_nil|]. by intros (_ & ? & _).
Qed.



(** The moves discovered are the candidates that the table scores, each
    once, with the score and reason of the table. *)
Lemma discovered_moves_elem s m :
  m ∈ discovered_moves s ↔
  ∃ src tgt first, candidate s m src tgt first
    ∧ table_score src tgt (cardIndex m) first = Some (priority m)
    ∧ reason m = reason_of (priority m).
Proof.
  rewrite discovered_moves_eq, elem_of_concat_imap. split.
  - intros (sp & src & Hsrc & (ci & card & Hcard & Hm)%elem_of_concat_imap).
    apply card_moves_elem in Hm
      as (Hup & Hchain & tp & tgt & Htgt & Htp & Hcan & p & Hp & ->); [|done].
    exists src, tgt, card. by repeat split.
  - intros (src & tgt & first
            & (Hsrc & Hfirst & Hup & Hchain & Htp & Htgt & Hcan) & Hp & Hr).
    exists (sourcePile m), src. split; [done|].
    apply elem_of_concat_imap. exists (cardIndex m), first. split; [done|].
    apply card_moves_elem; [done|]. split; [done|]. split; [done|].
    exists (targetPile m), tgt. split; [done|]. split; [done|]. split; [done|].
    exists (priority m). split; [done|]. destruct m; cbn in *. by subst.
Qed.




(** ** Hint Advisor: runs of one suit

    For a run of one suit, face up, onto a face-up card, the table of
    the code is the table of the specification. *)

Lemma rank_chain_app_l cs1 cs2 : rank_chain (cs1 ++ cs2) → rank_chain cs1.
Proof.
  intros H i a b Ha Hb. apply (H i); by apply lookup_app_l_Some.
Qed.

Lemma rank_chain_snoc2 cs a b :
  rank_chain (cs ++ [a; b]) → rankValues (rank a) = rankValues (rank b) + 1.
Proof.
  intros H. apply (H (length cs)).
  - by rewrite lookup_app_r, Nat.sub_diag by lia.
  - rewrite lookup_app_r by lia.
    by replace (S (length cs) - length cs)%nat with 1%nat by lia.
Qed.

(** The walk of [getSequenceLengthFromEnd] through a segment of one
    suit, face up, whose ranks ascend by one going down. *)
Lemma count_back_chain s next seg tail :
  Forall (fun c => faceUp c = true ∧ suit c = s) seg →
  rank_chain (reverse (next :: seg)) →
  count_back s next (seg ++ tail)
  = (length seg + count_back s (default next (last seg)) tail)%nat.
Proof.
  revert next. induction seg as [|c seg IH]; intros next Hu Hc; [done|].
  apply Forall_cons in Hu as [[Hup Hs] Hu].
  rewrite !reverse_cons, <- (assoc (++)) in Hc. cbn [app] in Hc.
  cbn [app count_back]. rewrite Hup. cbn [negb orb].
  rewrite bool_decide_eq_false_2 by (by intros []).
  rewrite bool_decide_eq_false_2.
  2: { intros Hne. apply Hne. by eapply rank_chain_snoc2. }
  rewrite IH; [|done|].
  2: { rewrite reverse_cons. apply (rank_chain_app_l _ [next]).
       by rewrite <- (assoc (++)). }
  cbn [length]. rewrite Nat.add_succ_l. do 3 f_equal.
  destruct seg as [|c' seg]; [done|]. rewrite last_cons_cons.
  destruct (last (c' :: seg)) eqn:E; [done|]. by apply last_None in E.
Qed.

Lemma getSequenceLengthFromEnd_app l first rest :
  descending (first :: rest) = true →
  Forall (fun c => faceUp c = true ∧ suit c = suit first) (first :: rest) →
  getSequenceLengthFromEnd (mkPile (l ++ first :: rest))
  = (length (first :: rest)
     + match last l with
       | Some c => if joins first c then getSequenceLengthFromEnd (mkPile l) else 0
       | None => 0
       end)%nat.
Proof.
  intros Hd%descending_rank_chain Hu.
  unfold getSequenceLengthFromEnd. cbn [cards]. rewrite reverse_app.
  destruct (reverse (first :: rest)) as [|top seg] eqn:Hrev.
  { apply (f_equal length) in Hrev. rewrite length_reverse in Hrev. done. }
  assert (first :: rest = reverse (top :: seg)) as Hrun.
  { by rewrite <- Hrev, reverse_involutive. }
  assert (Forall (fun c => faceUp c = true ∧ suit c = suit first) (top :: seg)) as Hu'.
  { rewrite <- Hrev. by apply Forall_reverse. }
  apply Forall_cons in Hu' as [[Hup Hs] Hu'].
  assert (default top (last seg) = first) as Hlast.
  { pose proof (head_reverse (top :: seg)) as H. rewrite <- Hrun in H.
    cbn [head] in H. destruct seg as [|c seg]; [by injection H|].
    rewrite last_cons_cons in H. by rewrite <- H. }
  cbn [app]. rewrite Hup. cbn [negb].
  rewrite count_back_chain; [|by rewrite Hs|by rewrite <- Hrun].
  rewrite Hlast, Hs.
  replace (length (first :: rest)) with (S (length seg)).
  2: { by rewrite Hrun, length_reverse. }
  cbn [Nat.add]. f_equal. f_equal.
  destruct (last l) as [c|] eqn:Hl.
  - apply last_Some in Hl as [l' ->]. rewrite reverse_snoc. cbn [count_back].
    unfold joins.
    destruct (faceUp c); cbn [negb orb andb]; [|done].
    destruct (decide (suit c = suit first)) as [Hsc|Hsc].
    2: { by rewrite (bool_decide_eq_true_2 (suit c ≠ suit first)),
           (bool_decide_eq_false_2 (suit c = suit first)). }
    rewrite (bool_decide_eq_false_2 (suit c ≠ suit first)) by (by intros []).
    rewrite (bool_decide_eq_true_2 (suit c = suit first)) by done.
    cbn [andb].
    destruct (decide (rankValues (rank c) = rankValues (rank first) + 1)) as [Hr|Hr].
    + rewrite (bool_decide_eq_false_2 (_ ≠ _)) by (by intros []).
      by rewrite (bool_decide_eq_true_2 (_ = _)), Hsc.
    + by rewrite (bool_decide_eq_true_2 (_ ≠ _)), (bool_decide_eq_false_2 (_ = _)).
  - apply last_None in Hl as ->. done.
Qed.

Lemma cardBefore_last cs ci :
  (ci ≤ length cs)%nat → cardBefore cs ci = last (take ci cs).
Proof.
  intros Hle. destruct ci as [|k]; cbn [cardBefore]; [done|].
  rewrite last_lookup, length_take, Nat.min_l by done. cbn [Nat.pred].
  by rewrite lookup_take_lt by lia.
Qed.

Lemma table_score_claimed (src tgt : Pile) (ci : nat) (first : Card) (rest : list Card) :
  drop ci (cards src) = first :: rest →
  descending (first :: rest) = true →
  Forall (fun c => faceUp c = true ∧ suit c = suit first) (first :: rest) →
  (∀ top, last (cards tgt) = Some top → faceUp top = true) →
  canPlaceCard first (last (cards tgt)) = true →
  claimed_score src tgt ci first = table_score src tgt ci first.
Proof.
  intros Hdrop Hd Hu Hup Hcan. unfold claimed_score, table_score.
  destruct (last (cards tgt)) as [top|] eqn:Hlast; [|done].
  destruct (flips_card src ci) eqn:Hflip; [done|].
  case_bool_decide as Hsuit; cbn [andb]; [|done].
  rewrite (Hup top eq_refl). cbn [andb].
  rewrite Hdrop, getSequenceLengthFromEnd_app, Hlast by done.
  cbn in Hcan. apply bool_decide_eq_true in Hcan.
  assert (joins first top = true) as ->.
  { unfold joins. rewrite (Hup top eq_refl). cbn.
    rewrite !bool_decide_eq_true_2; [done|lia|done]. }
  rewrite mkPile_cards, bool_decide_eq_true_2 by (cbn [length]; lia). cbn [andb].
  replace (getSequenceLengthFromEnd src)
    with (getSequenceLengthFromEnd (mkPile (take ci (cards src) ++ first :: rest))).
  2: { by rewrite <- Hdrop, take_drop, mkPile_cards. }
  rewrite getSequenceLengthFromEnd_app by done.
  unfold joined_below. rewrite cardBefore_last.
  2: { apply (f_equal length) in Hdrop. rewrite length_drop in Hdrop.
       cbn [length] in Hdrop. lia. }
  destruct (last (take ci (cards src))) as [cb|] eqn:Hcb.
  2: { rewrite bool_decide_eq_false_2 by lia. done. }
  fold (joins first cb). destruct (joins first cb) eqn:Hj.
  - rewrite bool_decide_eq_true_2; [done|].
    assert (0 < getSequenceLengthFromEnd (mkPile (take ci (cards src))))%nat; [|lia].
    apply (getSequenceLengthFromEnd_pos _ cb); [done|].
    unfold joins in Hj. by destruct (faceUp cb).
  - rewrite bool_decide_eq_false_2 by lia. done.
Qed.

(** * Further properties *)

(** ** Shuffler *)

(** X1: whatever the random draws, [shuffleDeck] returns the cards of
    the deck in some order: none is lost, added or changed. *)
Theorem shuffleDeck_permutation (rand : nat → nat) (deck : list Card) :
  shuffleDeck rand deck ≡ₚ deck
  ∧ length (shuffleDeck rand deck) = length deck
  ∧ (∀ c, c ∈ shuffleDeck rand deck ↔ c ∈ deck).
Proof.
  pose proof (shuffle_loop_Permutation rand (length deck - 1) deck) as H.
  fold (shuffleDeck rand deck) in H.
  split; [done|]. split; [by rewrite H|]. intros c. by rewrite H.
Qed.

(** ** Card ids *)

Lemma append_cons c s t : String c s +:+ t = String c (s +:+ t).
Proof. done. Qed.

Lemma append_nil t : "" +:+ t = t.
Proof. done. Qed.

Lemma has_dash_app s1 s2 : has_dash (s1 +:+ s2) = has_dash s1 || has_dash s2.
Proof.
  induction s1 as [|c s1 IH]; [done|].
  rewrite append_cons. cbn [has_dash]. by rewrite IH, orb_assoc.
Qed.

Lemma after_last_dash_app s1 s2 :
  has_dash s2 = false → after_last_dash (s1 +:+ "-" +:+ s2) = s2.
Proof.
  intros H2. induction s1 as [|c s1 IH].
  - rewrite append_nil, append_cons, append_nil.
    cbn [after_last_dash]. rewrite H2. by rewrite bool_decide_eq_true_2.
  - rewrite append_cons. cbn [after_last_dash]. rewrite has_dash_app.
    rewrite (append_cons _ "" s2), append_nil.
    cbn [has_dash]. rewrite (bool_decide_eq_true_2 (_ = "-")) by done.
    by rewrite orb_true_r.
Qed.

Lemma has_dash_pretty_N_go x s :
  has_dash s = false → has_dash (pretty_N_go x s) = false.
Proof.
  revert s. induction (N.lt_wf_0 x) as [x _ IH]; intros s Hs.
  assert (x = 0 ∨ 0 < x)%N as [->|?] by lia.
  - by rewrite pretty_N_go_0.
  - rewrite pretty_N_go_step by done. apply IH.
    { by apply N.div_lt. }
    cbn. rewrite Hs, orb_false_r. apply bool_decide_eq_false_2.
    unfold pretty_N_char. by repeat case_match.
Qed.

Lemma has_dash_pretty_nat (n : nat) : has_dash (pretty n) = false.
Proof.
  unfold pretty, pretty_nat, pretty, pretty_N. case_decide; [done|].
  by apply has_dash_pretty_N_go.
Qed.

Lemma has_dash_dash s : has_dash ("-" +:+ s) = true.
Proof.
  rewrite append_cons. cbn [has_dash]. by rewrite bool_decide_eq_true_2.
Qed.

Lemma after_last_dash_skip s1 s2 :
  has_dash s2 = true → after_last_dash (s1 +:+ s2) = after_last_dash s2.
Proof.
  intros H2. induction s1 as [|c s1 IH]; [done|].
  rewrite append_cons. cbn [after_last_dash].
  by rewrite has_dash_app, H2, orb_true_r.
Qed.

(** The counter can be read back from a card id. *)
Lemma cardId_counter ts s r n : after_last_dash (cardId ts s r n) = pretty n.
Proof.
  unfold cardId.
  rewrite after_last_dash_skip by apply has_dash_dash.
  rewrite (after_last_dash_skip "-").
  2: { by rewrite has_dash_app, has_dash_dash, orb_true_r. }
  rewrite after_last_dash_skip by apply has_dash_dash.
  rewrite (after_last_dash_skip "-").
  2: { by rewrite has_dash_app, has_dash_dash, orb_true_r. }
  rewrite after_last_dash_skip by apply has_dash_dash.
  apply (after_last_dash_app ""), has_dash_pretty_nat.
Qed.

Lemma cardId_inj_counter ts s r n ts' s' r' n' :
  cardId ts s r n = cardId ts' s' r' n' → n = n'.
Proof.
  intros H%(f_equal after_last_dash). rewrite !cardId_counter in H.
  by apply (inj pretty).
Qed.

Lemma createDeck_ids_counter d ts gid x :
  x ∈ id <$> (createDeck d ts gid).1 →
  ∃ k, (gid ≤ k < gid + 104)%nat ∧ after_last_dash x = pretty k.
Proof.
  rewrite createDeck_closed. intros (c & -> & Hc)%list_elem_of_fmap.
  apply list_elem_of_lookup in Hc as [i Hi].
  apply list_lookup_imap_Some in Hi as ([s r] & Hsr & ->). cbn.
  exists (i + gid)%nat. split; [|apply cardId_counter].
  apply lookup_lt_Some in Hsr.
  assert (length (s ← suitsToUse d; pair s <$> ranks) = 104%nat) as Hl
    by (by destruct d).
  lia.
Qed.

(** X2: the ids of a deck are pairwise distinct and none is empty, and
    the decks of two successive calls of [createDeck] share no id,
    whatever the two timestamps and difficulties: the counter
    [globalCardId], advanced by 104 per deck, is part of every id. *)
Theorem createDeck_ids_unique (d1 d2 : Difficulty) (ts1 ts2 : Z) (gid : nat) :
  let '(deck1, gid') := createDeck d1 ts1 gid in
  let '(deck2, gid'') := createDeck d2 ts2 gid' in
  gid' = (gid + 104)%nat ∧ gid'' = (gid + 208)%nat
  ∧ NoDup (id <$> deck1 ++ deck2)
  ∧ ("" ∉ id <$> deck1 ++ deck2).
Proof.
  destruct (createDeck d1 ts1 gid) as [deck1 gid'] eqn:E1.
  destruct (createDeck d2 ts2 gid') as [deck2 gid''] eqn:E2.
  assert (gid' = (gid + 104)%nat) as ->.
  { change gid' with (deck1, gid').2. rewrite <- E1, createDeck_next. lia. }
  assert (gid'' = (gid + 208)%nat) as ->.
  { change gid'' with (deck2, gid'').2. rewrite <- E2, createDeck_next. lia. }
  split; [done|]. split; [done|].
  change deck1 with (deck1, (gid + 104)%nat).1.
  change deck2 with (deck2, (gid + 208)%nat).1.
  rewrite <- E1, <- E2. rewrite fmap_app. split.
  - apply NoDup_app. split; [apply createDeck_ids_NoDup|].
    split; [|apply createDeck_ids_NoDup].
    intros x (k1 & Hk1 & H1)%createDeck_ids_counter
             (k2 & Hk2 & H2)%createDeck_ids_counter.
    rewrite H1 in H2. apply (inj pretty) in H2. lia.
  - intros [H|H]%elem_of_app; by apply createDeck_ids_nonempty in H.
Qed.

(** ** Placement rule *)

(** X3: a card can be placed on an empty pile, and on a card exactly
    when its rank is the next lower one in [ranks]; suits and faces play
    no part.  So a king goes on an empty pile only, nothing goes on an
    ace, and of two cards at most one can be placed on the other. *)
Theorem canPlaceCard_ranks (c t : Card) :
  canPlaceCard c None = true
  ∧ (canPlaceCard c (Some t) = true
     ↔ ranks !! Z.to_nat (rankValues (rank c)) = Some (rank t))
  ∧ (rank c = RK → canPlaceCard c (Some t) = false)
  ∧ (rank t = RA → canPlaceCard c (Some t) = false)
  ∧ (canPlaceCard c (Some t) = true → canPlaceCard t (Some c) = false).
Proof.
  split; [done|]. unfold canPlaceCard.
  destruct (rank c), (rank t); cbn; repeat split; intros; try done.
Qed.

(** ** Movable runs *)

Lemma rank_chain_offset cs a b k :
  rank_chain cs → cs !! 0%nat = Some a → cs !! k = Some b →
  rankValues (rank a) = rankValues (rank b) + Z.of_nat k.
Proof.
  intros Hc Ha. revert b. induction k as [|k IH]; intros b Hb.
  - rewrite Ha in Hb. injection Hb as ->. lia.
  - destruct (lookup_lt_is_Some_2 cs k) as [x Hx].
    { apply lookup_lt_Some in Hb. lia. }
    rewrite (IH x Hx), (Hc k x b Hx Hb). lia.
Qed.

Lemma rankValues_le r : rankValues r ≤ 13.
Proof. by destruct r. Qed.

Lemma rank_chain_length cs : rank_chain cs → (length cs ≤ 13)%nat.
Proof.
  intros Hc. destruct cs as [|a cs]; [cbn; lia|].
  destruct (lookup_lt_is_Some_2 (a :: cs) (length cs)) as [b Hb]; [cbn; lia|].
  pose proof (rank_chain_offset (a :: cs) a b (length cs) Hc eq_refl Hb).
  pose proof (rankValues_le (rank a)). pose proof (rankValues_pos (rank b)).
  cbn [length]. lia.
Qed.

Lemma rank_chain_drop cs k : rank_chain cs → rank_chain (drop k cs).
Proof.
  intros Hc i a b Ha Hb. rewrite lookup_drop in Ha, Hb.
  apply (Hc (k + i)%nat); [done|]. by rewrite <- Nat.add_succ_r.
Qed.

(** X4: a movable run has at most 13 cards (its ranks descend one by
    one); there is none from an index at or beyond the top of the pile;
    the top card alone is always movable; and every card of a movable
    run starts a movable run itself. *)
Theorem getMovableCards_runs (pile : Pile) (i : nat) :
  (length (getMovableCards pile i) ≤ 13)%nat
  ∧ ((length (cards pile) ≤ i)%nat → getMovableCards pile i = [])
  ∧ (∀ c, last (cards pile) = Some c →
          getMovableCards pile (length (cards pile) - 1) = [c])
  ∧ (∀ j, getMovableCards pile i ≠ [] → (i ≤ j)%nat →
          getMovableCards pile j = drop j (cards pile)).
Proof.
  split; [|split; [|split]].
  - unfold getMovableCards. destruct (descending _) eqn:Hd; [|cbn; lia].
    by apply rank_chain_length, descending_rank_chain.
  - intros Hle. unfold getMovableCards. by rewrite drop_ge.
  - intros c [l Hl]%last_Some. unfold getMovableCards. rewrite Hl.
    rewrite length_app. cbn [length].
    replace (length l + 1 - 1)%nat with (length l + 0)%nat by lia.
    by rewrite drop_app_add.
  - intros j Hne Hij. unfold getMovableCards in *.
    destruct (descending (drop i (cards pile))) eqn:Hd; [|done].
    apply descending_rank_chain in Hd.
    replace j with (i + (j - i))%nat by lia. rewrite <- drop_drop.
    assert (descending (drop (j - i) (drop i (cards pile))) = true) as ->; [|done].
    by apply descending_rank_chain, rank_chain_drop.
Qed.

(** ** Same-suit run at the top of a pile *)

Lemma rank_chain_snoc cs a b :
  rank_chain (cs ++ [a]) → rankValues (rank a) = rankValues (rank b) + 1 →
  rank_chain (cs ++ [a; b]).
Proof.
  intros Hc Hab i x y Hx Hy.
  destruct (decide (i < length cs)%nat) as [Hi|Hi].
  - apply (Hc i).
    + rewrite lookup_app_l in Hx by done. by rewrite lookup_app_l.
    + destruct (decide (S i < length cs)%nat).
      * rewrite lookup_app_l in Hy by done. by rewrite lookup_app_l.
      * rewrite lookup_app_r in Hy by lia. rewrite lookup_app_r by lia.
        replace (S i - length cs)%nat with 0%nat in * by lia. done.
  - assert (i = length cs) as ->.
    { apply lookup_lt_Some in Hy. rewrite length_app in Hy. cbn in Hy. lia. }
    rewrite lookup_app_r, Nat.sub_diag in Hx by lia.
    rewrite lookup_app_r in Hy by lia.
    replace (S (length cs) - length cs)%nat with 1%nat in Hy by lia.
    cbn in Hx, Hy. by simplify_eq.
Qed.

(** What the backward loop has counted when it stops. *)
Lemma count_back_spec s next below :
  let k := count_back s next below in
  (k ≤ length below)%nat
  ∧ Forall (fun c => faceUp c = true ∧ suit c = s) (take k below)
  ∧ rank_chain (reverse (next :: take k below))
  ∧ ∀ c, below !! k = Some c →
         ¬ (faceUp c = true ∧ suit c = s
            ∧ rankValues (rank c)
              = rankValues (rank (default next (last (take k below)))) + 1).
Proof.
  revert next. induction below as [|c below IH]; intros next.
  { cbn. split; [lia|]. split; [constructor|]. split; [|done].
    by apply rank_chain_short. }
  cbn [count_back].
  destruct (faceUp c) eqn:Hup; cbn [negb orb].
  2: { cbn. split; [lia|]. split; [constructor|].
       split; [by apply rank_chain_short|].
       intros c' [= <-] (Hup' & _). congruence. }
  case_bool_decide as Hs.
  { cbn. split; [lia|]. split; [constructor|].
    split; [by apply rank_chain_short|].
    intros c' [= <-] (_ & Hs' & _). done. }
  case_bool_decide as Hr.
  { cbn. split; [lia|]. split; [constructor|].
    split; [by apply rank_chain_short|].
    intros c' [= <-] (_ & _ & Hr'). done. }
  destruct (IH c) as (Hle & Hall & Hchain & Hmax).
  assert (suit c = s) as Hs' by (by destruct (decide (suit c = s))).
  assert (rankValues (rank c) = rankValues (rank next) + 1) as Hr'.
  { by destruct (decide (rankValues (rank c) = rankValues (rank next) + 1)). }
  cbn [length take]. split; [lia|]. split; [by constructor|]. split.
  - rewrite reverse_cons. rewrite reverse_cons in Hchain.
    rewrite reverse_cons, <- (assoc (++)). by apply rank_chain_snoc.
  - intros c'. cbn [lookup list_lookup]. intros Hc'.
    replace (default next (last (c :: take (count_back s c below) below)))
      with (default c (last (take (count_back s c below) below))).
    { by apply Hmax. }
    destruct (take (count_back s c below) below) as [|x l] eqn:E; [done|].
    rewrite last_cons_cons.
    destruct (last (x :: l)) eqn:E'; [done|]. by apply last_None in E'.
Qed.

(** X5: [getSequenceLengthFromEnd] returns the length of the longest
    run at the top of the pile whose cards are face up, of the suit of
    the top card, and descend by one rank: 0 for an empty pile or a
    face-down top card, at most 13, and the card just below the run, if
    any, does not continue it. *)
Theorem getSequenceLengthFromEnd_spec (pile : Pile) :
  let n := getSequenceLengthFromEnd pile in
  let run := drop (length (cards pile) - n) (cards pile) in
  (n ≤ length (cards pile))%nat ∧ (n ≤ 13)%nat ∧ length run = n
  ∧ (n = 0%nat ↔ match last (cards pile) with
                 | Some top => faceUp top = false
                 | None => True
                 end)
  ∧ rank_chain run
  ∧ (∀ top, last (cards pile) = Some top →
            Forall (fun c => faceUp c = true ∧ suit c = suit top) run)
  ∧ (∀ top c next,
       last (cards pile) = Some top → (0 < n)%nat →
       cards pile !! (length (cards pile) - n - 1)%nat = Some c →
       (n < length (cards pile))%nat →
       cards pile !! (length (cards pile) - n)%nat = Some next →
       ¬ (faceUp c = true ∧ suit c = suit top
          ∧ rankValues (rank c) = rankValues (rank next) + 1)).
Proof.
  intros n run. subst run n. unfold getSequenceLengthFromEnd.
  destruct (cards pile) as [|c0 cs0] eqn:Ecs using rev_ind.
  { cbn. repeat split; try done; try lia; by apply rank_chain_short. }
  clear IHcs0. rename c0 into top. rename cs0 into l.
  rewrite reverse_snoc, last_snoc.
  destruct (faceUp top) eqn:Hup; cbn [negb].
  2: { rewrite Nat.sub_0_r, drop_all. cbn.
       repeat split; try done; try lia; try (by apply rank_chain_short). }
  destruct (count_back_spec (suit top) top (reverse l)) as (Hle & Hall & Hchain & Hmax).
  set (k := count_back (suit top) top (reverse l)) in *.
  rewrite length_reverse in Hle. rewrite length_app. cbn [length].
  assert (drop (length l + 1 - S k) (l ++ [top])
          = reverse (top :: take k (reverse l))) as Hrun.
  { rewrite reverse_cons, take_reverse, reverse_involutive.
    replace (length l + 1 - S k)%nat with (length l - k)%nat by lia.
    rewrite drop_app_le by lia. done. }
  rewrite Hrun.
  split; [lia|]. split.
  { pose proof (rank_chain_length _ Hchain) as H. rewrite length_reverse in H.
    cbn [length] in H. rewrite length_take, length_reverse in H. lia. }
  split. { rewrite length_reverse. cbn [length]. rewrite length_take, length_reverse. lia. }
  split; [split; [lia|congruence]|]. split; [done|]. split.
  - intros top' [= <-]. apply Forall_reverse. by constructor.
  - intros top' c next [= <-] _ Hc Hlt Hnext.
    assert (reverse l !! k = Some c) as Hc'.
    { apply reverse_lookup_Some. split; [|lia].
      rewrite lookup_app_l in Hc by lia.
      by replace (length l - S k)%nat with (length l + 1 - S k - 1)%nat by lia. }
    assert (default top (last (take k (reverse l))) = next) as Hn.
    { assert (head (drop (length l + 1 - S k) (l ++ [top])) = Some next) as Hh.
      { by rewrite head_lookup, lookup_drop, Nat.add_0_r. }
      rewrite Hrun, head_reverse in Hh.
      destruct (take k (reverse l)) as [|x l'] eqn:E; [by injection Hh|].
      rewrite last_cons_cons in Hh. by rewrite Hh. }
    specialize (Hmax c Hc'). by rewrite Hn in Hmax.
Qed.

(** ** Stuck detection *)

(** X6: [hasValidMoves] is false exactly when no deal is possible (fewer
    than 10 cards in the stock, or an empty pile) and the hint advisor
    finds no move.  It is true whenever a pile is empty and another pile
    has a face-up top card: that card can go to the empty pile. *)
Theorem hasValidMoves_spec (s : GameState) :
  (hasValidMoves s = false
   ↔ ((length (stock s) < 10)%nat ∨ Exists (fun pile => cards pile = []) (tableau s))
     ∧ findMeaningfulMoves s = [])
  ∧ (∀ sp t src tgt c,
       sp ≠ t → tableau s !! sp = Some src → tableau s !! t = Some tgt →
       cards tgt = [] → last (cards src) = Some c → faceUp c = true →
       hasValidMoves s = true).
Proof.
  assert (hasValidMoves s = false
          ↔ ((length (stock s) < 10)%nat
             ∨ Exists (fun pile => cards pile = []) (tableau s))
            ∧ findMeaningfulMoves s = []) as Hiff.
  { unfold hasValidMoves.
    destruct (bool_decide (10 ≤ length (stock s))%nat) eqn:H10; cbn [andb].
    - destruct (forallb _ (tableau s)) eqn:Hall.
      + split; [done|]. intros [[Hlt|Hex] _].
        * apply bool_decide_eq_true in H10. lia.
        * apply forallb_nonempty_false in Hex. congruence.
      + rewrite bool_decide_eq_false. apply forallb_nonempty_false in Hall.
        split.
        * intros Hn. split; [by right|].
          destruct (findMeaningfulMoves s); [done|]. cbn in Hn. lia.
        * intros [_ ->]. cbn. lia.
    - apply bool_decide_eq_false in H10. rewrite bool_decide_eq_false. split.
      + intros Hn. split; [left; lia|].
        destruct (findMeaningfulMoves s); [done|]. cbn in Hn. lia.
      + intros [_ ->]. cbn. lia. }
  split; [done|]. intros sp t src tgt c Hne Hsrc Htgt Hempty Hlast Hup.
  apply not_false_iff_true. intros Hv.
  apply Hiff in Hv as [_ Hnone].
  set (ci := (length (cards src) - 1)%nat).
  set (p := if flips_card src ci then 80 else 50).
  assert (mkMeaningfulMove sp ci t p (reason_of p) ∈ discovered_moves s) as Hin.
  { apply discovered_moves_elem. exists src, tgt, c. cbn.
    split; [|split].
    - repeat split; try done.
      + rewrite last_lookup in Hlast. subst ci.
        by replace (length (cards src) - 1)%nat with (pred (length (cards src))) by lia.
      + apply rank_chain_short. rewrite length_drop. subst ci. cbn [cardIndex]. lia.
      + by rewrite Hempty.
    - unfold table_score. by rewrite Hempty.
    - done. }
  unfold findMeaningfulMoves in Hnone.
  rewrite <- (js_sort_Permutation priority), Hnone in Hin.
  by apply elem_of_nil in Hin.
Qed.

(** ** Auto-move *)

(** The rank table of the store agrees with [rankValues]; the fallback
    [0] is not taken for a rank. *)
Lemma getRankValue_rankValues r : getRankValue r = rankValues r.
Proof. by destruct r. Qed.

Lemma sort_insert_ext {A} (cmp1 cmp2 : A → A → Z) x l :
  (∀ a b, cmp1 a b ≤ 0 ↔ cmp2 a b ≤ 0) →
  sort_insert cmp1 x l = sort_insert cmp2 x l.
Proof.
  intros H. induction l as [|y l IH]; [done|]. cbn.
  rewrite IH. by rewrite (bool_decide_ext _ _ (H x y)).
Qed.

Lemma js_sort_ext {A} (cmp1 cmp2 : A → A → Z) l :
  (∀ a b, cmp1 a b ≤ 0 ↔ cmp2 a b ≤ 0) → js_sort cmp1 l = js_sort cmp2 l.
Proof.
  intros H. unfold js_sort. induction l as [|x l IH]; [done|]. cbn [foldr].
  rewrite IH. by apply sort_insert_ext.
Qed.

Lemma first_of_filter {A} (R : relation A) (P : A → Prop)
    `{!∀ x, Decision (P x)} l v rest :
  StronglySorted R l → filter P l = v :: rest →
  ∀ w, w ∈ l → P w → w = v ∨ R v w.
Proof.
  induction l as [|x l IH]; intros Hs Hf w Hw HP; [done|].
  apply StronglySorted_inv in Hs as [Hs Hx].
  rewrite filter_cons in Hf. destruct (decide (P x)) as [Hpx|Hpx].
  - injection Hf as <- _. apply elem_of_cons in Hw as [->|Hw]; [by left|].
    right. by eapply Forall_forall in Hx.
  - apply elem_of_cons in Hw as [->|Hw]; [done|]. by apply IH.
Qed.

Lemma findBestMove_validMoves g p c src first rest :
  tableau (state g) !! p = Some src → getMovableCards src c = first :: rest →
  findBestMove g p c
  = Ok (vm_pileIndex <$>
          head (js_sort (fun a b => vm_key b - vm_key a) (validMoves_of g p first))).
Proof.
  intros Hsrc Hrun. unfold findBestMove. rewrite Hsrc. cbn. rewrite Hrun.
  f_equal. f_equal. f_equal.
  transitivity (js_sort (fun a b => vm_key b - vm_key a)
    (concat (imap (fun i tgt =>
       if bool_decide (i = p) then []
       else if canPlaceCard first (last (cards tgt)) then
         let '(orderedCount, hasUnordered) :=
           match reverse (cards tgt) with
           | [] => (0%nat, false)
           | top :: below => let '(n, u) := ordered_scan top below in (S n, u)
           end in
         [mkValidMove i orderedCount hasUnordered]
       else []) (tableau (state g))))).
  - apply js_sort_ext. intros a b. unfold vm_key.
    repeat case_bool_decide; destruct (vm_hasUnordered a), (vm_hasUnordered b);
      try done; lia.
  - unfold validMoves_of. f_equal. f_equal. apply imap_ext. intros i tgt _. cbn.
    unfold rate_target. by destruct (match reverse (cards tgt) with
                                     | [] => _ | _ => _ end).
Qed.

Lemma validMoves_of_elem g p first v :
  v ∈ validMoves_of g p first ↔
  ∃ tgt, accepts g p first (vm_pileIndex v) tgt
         ∧ v = mkValidMove (vm_pileIndex v) (rate_target tgt).1 (rate_target tgt).2.
Proof.
  unfold validMoves_of. rewrite elem_of_concat_imap. split.
  - intros (i & tgt & Hi & Hv). case_bool_decide; [by apply elem_of_nil in Hv|].
    destruct (canPlaceCard _ _) eqn:Hcan; [|by apply elem_of_nil in Hv].
    apply list_elem_of_singleton in Hv as ->. by exists tgt.
  - intros (tgt & (Hi & Hne & Hcan) & Hv). exists (vm_pileIndex v), tgt.
    split; [done|]. rewrite bool_decide_eq_false_2, Hcan by done.
    rewrite Hv at 1. by apply list_elem_of_singleton.
Qed.

Lemma validMoves_of_sorted g p first :
  StronglySorted (fun a b => (vm_pileIndex a < vm_pileIndex b)%nat)
                 (validMoves_of g p first).
Proof.
  apply StronglySorted_concat_imap.
  - intros i tgt _. case_bool_decide; [constructor|].
    destruct (canPlaceCard _ _); repeat constructor.
  - intros i j a b x y _ _ Hij Hx Hy.
    assert (∀ k (t : Pile) (z : ValidMove),
      z ∈ (if bool_decide (k = p) then []
           else if canPlaceCard first (last (cards t))
                then [mkValidMove k (rate_target t).1 (rate_target t).2]
                else []) → vm_pileIndex z = k) as Hidx.
    { clear. intros k t z Hz. case_bool_decide; [by apply elem_of_nil in Hz|].
      destruct (canPlaceCard first (last (cards t))); [|by apply elem_of_nil in Hz].
      by apply list_elem_of_singleton in Hz as ->. }
    by rewrite (Hidx _ _ _ Hx), (Hidx _ _ _ Hy).
Qed.

(** The choice of [findBestMove] among the destinations. *)
Lemma findBestMove_cases g p c src first rest :
  tableau (state g) !! p = Some src → getMovableCards src c = first :: rest →
  (findBestMove g p c = Ok None ∧ ∀ i tgt, ¬ accepts g p first i tgt)
  ∨ ∃ b tgt,
      findBestMove g p c = Ok (Some b) ∧ accepts g p first b tgt
      ∧ ∀ i tgt', accepts g p first i tgt' →
          ((rate_target tgt').1 ≤ (rate_target tgt).1)%nat
          ∧ ((rate_target tgt').1 = (rate_target tgt).1 →
             (rate_target tgt).2 = true → (rate_target tgt').2 = true)
          ∧ (rate_target tgt' = rate_target tgt → (b ≤ i)%nat).
Proof.
  intros Hsrc Hrun. rewrite (findBestMove_validMoves g p c src first rest) by done.
  set (vms := validMoves_of g p first).
  pose proof (js_sort_Permutation vm_key vms) as Hperm.
  pose proof (js_sort_sorted vm_key vms) as Hsorted.
  destruct (js_sort _ vms) as [|v sorted] eqn:Es.
  - left. split; [done|]. intros i tgt Hacc.
    assert (mkValidMove i (rate_target tgt).1 (rate_target tgt).2 ∈ vms) as Hin.
    { apply validMoves_of_elem. by exists tgt. }
    rewrite <- Hperm in Hin. by apply elem_of_nil in Hin.
  - right.
    assert (v ∈ vms) as Hv by (rewrite <- Hperm; by left).
    apply validMoves_of_elem in Hv as (tgt & Hacc & Hv).
    exists (vm_pileIndex v), tgt. split; [done|]. split; [done|].
    intros i tgt' Hacc'.
    set (w := mkValidMove i (rate_target tgt').1 (rate_target tgt').2).
    assert (w ∈ vms) as Hw by (apply validMoves_of_elem; by exists tgt').
    assert (vm_key w ≤ vm_key v) as Hkey.
    { rewrite <- Hperm in Hw. apply elem_of_cons in Hw as [->|Hw]; [done|].
      apply StronglySorted_inv in Hsorted as [_ Hall].
      by eapply Forall_forall in Hall. }
    assert (vm_key v = 2 * Z.of_nat (rate_target tgt).1
                       + (if (rate_target tgt).2 then 0 else 1)) as Hkv.
    { rewrite Hv at 1. done. }
    unfold vm_key in Hkey at 1. cbn [w vm_orderedCount vm_hasUnordered] in Hkey.
    rewrite Hkv in Hkey.
    split; [destruct (rate_target tgt').2, (rate_target tgt).2; lia|].
    split.
    { intros Heq Hu. rewrite Heq, Hu in Hkey.
      destruct (rate_target tgt').2; [done|lia]. }
    intros Heq.
    pose proof (js_sort_stable vm_key (vm_key v) vms) as Hst.
    rewrite Es, filter_cons_True in Hst by done.
    destruct (first_of_filter (fun a b => (vm_pileIndex a < vm_pileIndex b)%nat)
                (fun a => vm_key a = vm_key v) vms v
                (filter (fun a => vm_key a = vm_key v) sorted)
                (validMoves_of_sorted g p first) (eq_sym Hst) w Hw) as [Hwv|Hlt].
    + rewrite Hkv. unfold vm_key. cbn [w vm_orderedCount vm_hasUnordered].
      by rewrite Heq.
    + rewrite <- Hwv. cbn. lia.
    + cbn in Hlt. lia.
Qed.

(** X7: [findBestMove] raises a [TypeError] for a missing source pile
    and returns [null] when there is no movable run or no other pile on
    which its first card can be placed.  Otherwise it returns such a
    pile, one with the highest count of ordered cards at its top; among
    those, one without unordered cards if there is any; and among equal
    ones the pile of lowest index. *)
Theorem findBestMove_spec (g : SpiderSolitaireGame) (p c : nat) :
  match tableau (state g) !! p with
  | None => findBestMove g p c = Fail TypeError
  | Some src =>
      match getMovableCards src c with
      | [] => findBestMove g p c = Ok None
      | first :: _ =>
          (findBestMove g p c = Ok None ∧ ∀ i tgt, ¬ accepts g p first i tgt)
          ∨ ∃ b tgt,
              findBestMove g p c = Ok (Some b) ∧ accepts g p first b tgt
              ∧ ∀ i tgt', accepts g p first i tgt' →
                  ((rate_target tgt').1 ≤ (rate_target tgt).1)%nat
                  ∧ ((rate_target tgt').1 = (rate_target tgt).1 →
                     (rate_target tgt).2 = true → (rate_target tgt').2 = true)
                  ∧ (rate_target tgt' = rate_target tgt → (b ≤ i)%nat)
      end
  end.
Proof.
  destruct (tableau (state g) !! p) as [src|] eqn:Hsrc.
  2: { unfold findBestMove. by rewrite Hsrc. }
  destruct (getMovableCards src c) as [|first rest] eqn:Hrun.
  { unfold findBestMove. rewrite Hsrc. cbn. by rewrite Hrun. }
  by eapply findBestMove_cases.
Qed.

(** ** Selecting cards *)

Lemma checkCompletedSequences_history_length now g :
  length (history (checkCompletedSequences now g)) = length (history g).
Proof.
  unfold checkCompletedSequences. destruct (existsb _ _); [|done]. cbn.
  destruct (_ && _); [|done]. unfold attach_completed.
  destruct (last (history g)); [|done]. by rewrite length_insert.
Qed.

(** A move on a fresh selection goes through when the target accepts
    the first card of the run. *)
Lemma moveCards_selection now g p c t src tgt first rest :
  tableau (state g) !! p = Some src → getMovableCards src c = first :: rest →
  accepts g p first t tgt →
  ∃ g', moveCards now t (setSelection p c g) = Ok g'
    ∧ moves (state g') = moves (state g) + 1
    ∧ length (history g') = S (length (history g))
    ∧ selectedPile g' = None ∧ selectedCardIndex g' = None
    ∧ stock (state g') = stock (state g)
    ∧ initialState g' = initialState g.
Proof.
  intros Hsrc Hrun (Htgt & Hne & Hcan).
  assert (legal_move (setSelection p c g) t) as Hlegal.
  { exists p, c, src, tgt, first, rest. repeat split; done. }
  destruct (legal_move_moveCards now t _ Hlegal)
    as (sp & ci & src' & tgt' & first' & rest' & [= <-] & [= <-] & _ & Hs' & Ht'
        & _ & Hmove).
  cbn in Hs', Ht'. simplify_eq.
  eexists. split; [exact Hmove|].
  destruct (checkCompletedSequences_frame now
              (moved_game p c t src tgt (setSelection p c g)))
    as (Hst & Hm & _ & Hs1 & Hs2 & Hi).
  rewrite Hst, Hm, Hs1, Hs2, Hi, checkCompletedSequences_history_length. cbn.
  rewrite length_app. cbn. repeat split; try done. lia.
Qed.

(** X8: [selectCards] raises a [TypeError] for a missing pile or card;
    it leaves the game as it is for a face-down card or a card that
    starts no movable run; with [skipAutoMove] it only sets the
    selection.  Otherwise, when [findBestMove] names a pile, the run is
    moved there at once (a move that is never rejected: one more move,
    one more history record, selection cleared); when it names none,
    the selection is set. *)
Theorem selectCards_spec (now : nat → Z) (p c : nat) (skip : bool)
    (g : SpiderSolitaireGame) :
  match tableau (state g) !! p with
  | None => selectCards now p c skip g = Fail TypeError
  | Some pile =>
      match cards pile !! c with
      | None => selectCards now p c skip g = Fail TypeError
      | Some card =>
          if negb (faceUp card) then selectCards now p c skip g = Ok g
          else match getMovableCards pile c with
          | [] => selectCards now p c skip g = Ok g
          | _ :: _ =>
              if skip then selectCards now p c skip g = Ok (setSelection p c g)
              else
                (findBestMove g p c = Ok None
                 ∧ selectCards now p c skip g = Ok (setSelection p c g))
                ∨ ∃ b g', findBestMove g p c = Ok (Some b) ∧ b ≠ p
                    ∧ selectCards now p c skip g = Ok g'
                    ∧ moveCards now b (setSelection p c g) = Ok g'
                    ∧ moves (state g') = moves (state g) + 1
                    ∧ length (history g') = S (length (history g))
                    ∧ selectedPile g' = None ∧ selectedCardIndex g' = None
          end
      end
  end.
Proof.
  unfold selectCards.
  destruct (tableau (state g) !! p) as [pile|] eqn:Hp; [|done].
  cbn -[moveCards findBestMove].
  destruct (cards pile !! c) as [card|] eqn:Hc; [|done].
  cbn -[moveCards findBestMove].
  destruct (faceUp card) eqn:Hup; cbn -[moveCards findBestMove]; [|done].
  destruct (getMovableCards pile c) as [|first rest] eqn:Hrun; [done|].
  destruct skip; [done|].
  destruct (findBestMove_cases g p c pile first rest Hp Hrun)
    as [[-> _]|(b & tgt & -> & Hacc & _)]; cbn -[moveCards findBestMove].
  { by left. }
  right. pose proof Hacc as (_ & Hne & _).
  rewrite bool_decide_eq_true_2 by done.
  destruct (moveCards_selection now g p c b pile tgt first rest Hp Hrun Hacc)
    as (g' & Hmove & Hm & Hh & Hs1 & Hs2 & _).
  by exists b, g'.
Qed.

(** ** Hints *)

Lemma findMeaningfulMoves_elem s m :
  m ∈ findMeaningfulMoves s ↔ m ∈ discovered_moves s.
Proof. unfold findMeaningfulMoves. by rewrite (js_sort_Permutation priority). Qed.

(** X9: every move that [findMeaningfulMoves] proposes can be played:
    with its source pile and card index selected, [moveCards] on its
    target pile performs the move (one more move, one more history
    record) instead of rejecting it. *)
Theorem findMeaningfulMoves_executable (now : nat → Z) (g : SpiderSolitaireGame)
    (m : MeaningfulMove) :
  m ∈ findMeaningfulMoves (state g) →
  ∃ g', moveCards now (targetPile m)
          (setSelection (sourcePile m) (cardIndex m) g) = Ok g'
    ∧ moves (state g') = moves (state g) + 1
    ∧ length (history g') = S (length (history g))
    ∧ selectedPile g' = None ∧ selectedCardIndex g' = None.
Proof.
  intros (src & tgt & first & Hcand & _)%findMeaningfulMoves_elem%discovered_moves_elem.
  destruct Hcand as (Hsrc & Hfirst & _ & Hchain & Hne & Htgt & Hcan).
  assert (∃ rest, getMovableCards src (cardIndex m) = first :: rest) as [rest Hrun].
  { unfold getMovableCards.
    rewrite (proj2 (descending_rank_chain _) Hchain).
    rewrite (drop_S _ _ _ Hfirst). by eexists. }
  destruct (moveCards_selection now g (sourcePile m) (cardIndex m) (targetPile m)
              src tgt first rest Hsrc Hrun) as (g' & H & Hm & Hh & Hs1 & Hs2 & _);
    [done|].
  by exists g'.
Qed.

Lemma findMeaningfulMoves_executable_witness :
  let m := mkMeaningfulMove 0 1 1 60 "Build longer sequence" in
  m ∈ findMeaningfulMoves (state mixed_run_game)
  ∧ ∃ g', moveCards (fun _ => 0) 1 (setSelection 0 1 mixed_run_game) = Ok g'
      ∧ moves (state g') = moves (state mixed_run_game) + 1
      ∧ length (history g') = S (length (history mixed_run_game))
      ∧ selectedPile g' = None ∧ selectedCardIndex g' = None.
Proof.
  assert (mkMeaningfulMove 0 1 1 60 "Build longer sequence"
          ∈ findMeaningfulMoves (state mixed_run_game)) as Hin.
  { apply (bool_decide_unpack _). vm_compute. exact I. }
  split; [exact Hin|].
  exact (findMeaningfulMoves_executable (fun _ => 0) mixed_run_game _ Hin).
Defined.

Lemma hasValidMoves_canDeal g :
  hasValidMoves (state g)
  = canDeal g || bool_decide (0 < length (findMeaningfulMoves (state g)))%nat.
Proof. unfold hasValidMoves, canDeal. by destruct (_ && _). Qed.

(** X10: [showHint] leaves no hint exactly when [hasValidMoves] is
    false, in particular whenever [noMovesLeft] holds.  A hint is the
    deal hint only when no move is proposed and a deal is possible;
    otherwise it is a proposed move of the highest priority, the first
    one found among those. *)
Theorem showHint_spec (g : SpiderSolitaireGame) :
  (showHint g = None ↔ hasValidMoves (state g) = false)
  ∧ (noMovesLeft g = true → showHint g = None)
  ∧ (∀ h, showHint g = Some h →
       (findMeaningfulMoves (state g) = [] ∧ canDeal g = true
        ∧ h = mkHint (-1) (-1) (-1) 100 "Deal new cards from stock")
       ∨ ∃ m, head (filter (fun m' => priority m' = priority m)
                           (discovered_moves (state g))) = Some m
              ∧ h = hint_of_move m
              ∧ ∀ m', m' ∈ findMeaningfulMoves (state g) →
                      priority m' ≤ priority m).
Proof.
  assert (showHint g = None ↔ hasValidMoves (state g) = false) as Hiff.
  { rewrite hasValidMoves_canDeal. unfold showHint.
    destruct (findMeaningfulMoves (state g)) as [|m l]; cbn.
    - destruct (canDeal g); cbn; [done|]. split; [|done]. intros _.
      apply bool_decide_eq_false. lia.
    - split; [done|]. rewrite orb_false_iff, bool_decide_eq_false. lia. }
  split; [done|]. split.
  { unfold noMovesLeft. intros (_ & H%negb_true_iff)%andb_true_iff.
    by apply Hiff. }
  intros h. unfold showHint.
  pose proof (js_sort_sorted priority (discovered_moves (state g))) as Hsorted.
  pose proof (js_sort_stable priority) as Hstable.
  fold (findMeaningfulMoves (state g)) in Hsorted.
  destruct (findMeaningfulMoves (state g)) as [|m l] eqn:E.
  - destruct (canDeal g); [|done]. intros [= <-]. by left.
  - intros [= <-]. right. exists m. split; [|split; [done|]].
    + specialize (Hstable (priority m) (discovered_moves (state g))).
      fold (findMeaningfulMoves (state g)) in Hstable. rewrite E in Hstable.
      rewrite filter_cons_True in Hstable by done. by rewrite <- Hstable.
    + intros m' [->|Hm']%elem_of_cons; [done|].
      apply StronglySorted_inv in Hsorted as [_ Hall].
      by eapply Forall_forall in Hall.
Qed.

(** ** New game and restart *)

Lemma initial_layout_length d deck :
  length deck = 104%nat → length (all_cards (initial_layout d deck)) = 104%nat.
Proof.
  intros Hlen.
  rewrite <- (length_fmap id), initial_layout_ids, length_fmap. done.
Qed.

(** X11: [newGame] always succeeds and gives a fresh game: the state is
    the initial state kept for a restart, the history is empty and
    nothing is selected; the difficulty is the one asked for, or the
    current one when none is given; no move is counted and the 104
    cards have pairwise distinct ids. *)
Theorem newGame_fresh (d : option Difficulty) (ts : Z) (gid : nat)
    (rand : nat → nat) (g : SpiderSolitaireGame) :
  ∃ g', newGame d ts gid rand g = Ok g'
    ∧ initialState g' = state g'
    ∧ history g' = [] ∧ selectedPile g' = None ∧ selectedCardIndex g' = None
    ∧ difficulty (state g') = default (difficulty (state g)) d
    ∧ moves (state g') = 0 ∧ gameWon (state g') = false
    ∧ completedSequences (state g') = []
    ∧ length (all_cards (state g')) = 104%nat
    ∧ NoDup (id <$> all_cards (state g')).
Proof.
  unfold newGame.
  rewrite (initializeGame_deck _ ts gid rand _ eq_refl).
  eexists. split; [reflexivity|].
  cbn [state initialState history selectedPile selectedCardIndex].
  do 8 (split; [done|]). split.
  - apply initial_layout_length, shuffled_length.
  - rewrite initial_layout_ids, shuffleDeck_Permutation.
    apply createDeck_ids_NoDup.
Qed.

Lemma dealFromStock_difficulty s s' :
  dealFromStock s = Ok s' → difficulty s' = difficulty s.
Proof.
  unfold dealFromStock. case_bool_decide; [by intros [= <-]|].
  intros (T & _ & HT)%bind_Ok. by injection HT as <-.
Qed.

Lemma undo_state_difficulty h s s0 :
  undo_state h s = Ok s0 → difficulty s0 = difficulty s.
Proof.
  unfold undo_state. destruct (restore_completed h s) as [cs T].
  destruct (mh_type h) as [[|]|], (mh_dealtCards h) as [dealt|];
    try (intros (tgt & _ & H)%bind_Ok;
         destruct (split_moved _ _ _); by injection H as <-).
  by intros [= <-].
Qed.

Lemma moveCards_kept now t g g' :
  moveCards now t g = Ok g' →
  initialState g' = initialState g ∧ difficulty (state g') = difficulty (state g).
Proof.
  intros Hmove.
  destruct (moveCards_cases now t g g' Hmove)
    as [[_ ->]|[->|(sp & ci & src & tgt & first & rest & _ & _ & _ & _ & _ & _ & _ & ->)]];
    [done|done|].
  destruct (checkCompletedSequences_frame now (moved_game sp ci t src tgt g))
    as (_ & _ & -> & _ & _ & ->). done.
Qed.

Lemma deal_kept now g g' :
  deal now g = Ok g' →
  initialState g' = initialState g ∧ difficulty (state g') = difficulty (state g).
Proof.
  unfold deal. destruct (canDeal g); cbn [negb]; [|by intros [= <-]].
  intros (s' & Hs' & [= <-])%bind_Ok.
  match goal with |- context [checkCompletedSequences now ?x] =>
    destruct (checkCompletedSequences_frame now x) as (_ & _ & -> & _ & _ & ->)
  end.
  cbn. split; [done|]. by apply dealFromStock_difficulty.
Qed.

Lemma undo_kept g g' :
  undo g = Ok g' →
  initialState g' = initialState g ∧ difficulty (state g') = difficulty (state g).
Proof.
  intros Hundo.
  destruct (undo_cases g g' Hundo) as [[_ ->]|(hs & h & s0 & _ & Hu & ->)]; [done|].
  cbn. split; [done|]. by eapply undo_state_difficulty.
Qed.

Lemma selectCards_kept now p c skip g g' :
  selectCards now p c skip g = Ok g' →
  initialState g' = initialState g ∧ difficulty (state g') = difficulty (state g).
Proof.
  unfold selectCards.
  destruct (tableau (state g) !! p) as [pile|]; [|done]. cbn -[moveCards findBestMove].
  destruct (cards pile !! c) as [card|]; [|done]. cbn -[moveCards findBestMove].
  destruct (faceUp card); cbn -[moveCards findBestMove]; [|by intros [= <-]].
  destruct (getMovableCards pile c); [by intros [= <-]|].
  destruct skip; [by intros [= <-]|].
  destruct (findBestMove g p c) as [[b|]|]; cbn -[moveCards findBestMove];
    [|by intros [= <-]|done].
  case_bool_decide; [|by intros [= <-]].
  intros Hmove. by destruct (moveCards_kept _ _ _ _ Hmove).
Qed.

Lemma played_kept g0 g :
  played g0 g →
  initialState g = initialState g0 ∧ difficulty (state g) = difficulty (state g0).
Proof.
  induction 1 as [|now p c skip g g' _ [IH1 IH2] Hs|p c pile card g _ IH _ _ _|g _ IH
                  |now t g g' _ [IH1 IH2] Hm|now g g' _ [IH1 IH2] Hd
                  |g g' _ [IH1 IH2] Hu]; try done.
  - destruct (selectCards_kept _ _ _ _ _ _ Hs) as [-> ->]. done.
  - destruct (moveCards_kept _ _ _ _ Hm) as [-> ->]. done.
  - destruct (deal_kept _ _ _ Hd) as [-> ->]. done.
  - destruct (undo_kept _ _ Hu) as [-> ->]. done.
Qed.

(** X12: selections, moves, deals and undos change neither the initial
    state kept for a restart nor the difficulty.  So [restartGame],
    after any play, gives the initial state of the game with an empty
    history and no selection, and restarting twice is restarting once.
    For a game begun with [newGame], where the initial state is the
    first state, it gives back that first state. *)
Theorem restartGame_after_play (g0 g : SpiderSolitaireGame) :
  played g0 g →
  initialState g = initialState g0
  ∧ difficulty (state g) = difficulty (state g0)
  ∧ state (restartGame g) = initialState g0
  ∧ history (restartGame g) = []
  ∧ selectedPile (restartGame g) = None
  ∧ selectedCardIndex (restartGame g) = None
  ∧ restartGame (restartGame g) = restartGame g
  ∧ (initialState g0 = state g0 → state (restartGame g) = state g0).
Proof.
  intros [Hi Hd]%played_kept. unfold restartGame. cbn.
  repeat split; try done. by intros <-.
Qed.

Lemma demo_second_Ok :
  newGame (Some hard) 1700000000002 208 demo_rand demo_fresh = Ok demo_second.
Proof. vm_compute. reflexivity. Qed.

Lemma restartGame_after_play_witness :
  ∃ g, moveCards (fun _ => 0) 6 (setSelection 1 5 demo_second) = Ok g
    ∧ played demo_second g
    ∧ state g ≠ state demo_second
    ∧ state (restartGame g) = state demo_second.
Proof.
  destruct (moveCards (fun _ => 0) 6 (setSelection 1 5 demo_second)) as [g|e] eqn:E.
  2: { exfalso. vm_compute in E. discriminate. }
  exists g.
  assert (played demo_second g) as Hp.
  { eapply played_moveCards; [|exact E].
    eapply played_setSelection; [apply played_refl|vm_compute; reflexivity..]. }
  split; [done|]. split; [exact Hp|]. split.
  - intros Hs. apply (f_equal moves) in Hs.
    assert (Some (moves (state g)) = Some 1) as Hm.
    { change (Some (moves (state g)))
        with (match Ok g with Ok x => Some (moves (state x)) | Fail _ => None end).
      rewrite <- E. vm_compute. reflexivity. }
    injection Hm as Hm. rewrite Hm in Hs. vm_compute in Hs. discriminate.
  - apply (restartGame_after_play demo_second g Hp). reflexivity.
Defined.

(** ** The first game *)

Lemma two_decks_disjoint ts1 ts2 gid rand1 rand2 x :
  x ∈ id <$> all_cards (initial_layout easy
        (shuffleDeck rand1 (createDeck easy ts1 gid).1)) →
  x ∉ id <$> all_cards (initial_layout easy
        (shuffleDeck rand2 (createDeck easy ts2 (createDeck easy ts1 gid).2).1)).
Proof.
  rewrite !initial_layout_ids, !shuffleDeck_Permutation.
  rewrite createDeck_next.
  intros (k1 & Hk1 & H1)%createDeck_ids_counter
         (k2 & Hk2 & H2)%createDeck_ids_counter.
  rewrite H1 in H2. apply (inj pretty) in H2. lia.
Qed.

Lemma disjoint_states_differ (s1 s2 : GameState) :
  length (all_cards s1) = 104%nat →
  (∀ x, x ∈ id <$> all_cards s1 → x ∉ id <$> all_cards s2) → s2 ≠ s1.
Proof.
  intros Hlen Hdisj ->.
  destruct (all_cards s1) as [|c cs]; [discriminate Hlen|].
  apply (Hdisj (id c)); rewrite fmap_cons; by left.
Qed.

Lemma bind_Ok_intro {A B} (m : result A) (f : A → result B) (a : A) (b : B) :
  m = Ok a → f a = Ok b → m ≫= f = Ok b.
Proof. by intros ->. Qed.

Lemma newSpiderSolitaireGame_Ok ts1 ts2 gid rand1 rand2 :
  newSpiderSolitaireGame ts1 ts2 gid rand1 rand2
  = Ok {| state := initial_layout easy
                     (shuffleDeck rand1 (createDeck easy ts1 gid).1);
          history := []; selectedPile := None; selectedCardIndex := None;
          initialState := initial_layout easy
                     (shuffleDeck rand2
                        (createDeck easy ts2 (createDeck easy ts1 gid).2).1) |}.
Proof.
  unfold newSpiderSolitaireGame.
  eapply bind_Ok_intro; [by apply initializeGame_deck|].
  eapply bind_Ok_intro; [by apply initializeGame_deck|].
  reflexivity.
Qed.

(** X13: the field initialisers of the store always succeed and make
    two separate deals: no card id of the state occurs in the initial
    state kept for a restart.  A restart of this first game therefore
    replaces the layout played by another one. *)
Theorem newSpiderSolitaireGame_two_deals (ts1 ts2 : Z) (gid : nat)
    (rand1 rand2 : nat → nat) :
  ∃ g, newSpiderSolitaireGame ts1 ts2 gid rand1 rand2 = Ok g
    ∧ history g = [] ∧ selectedPile g = None ∧ selectedCardIndex g = None
    ∧ difficulty (state g) = easy ∧ difficulty (initialState g) = easy
    ∧ (∀ x, x ∈ id <$> all_cards (state g) →
            x ∉ id <$> all_cards (initialState g))
    ∧ state (restartGame g) ≠ state g.
Proof.
  eexists. split; [apply newSpiderSolitaireGame_Ok|].
  do 5 (split; [reflexivity|]).
  split; [intros x; apply two_decks_disjoint|].
  apply disjoint_states_differ.
  - apply initial_layout_length, shuffled_length.
  - intros x; apply two_decks_disjoint.
Qed.
(** ** Removing completed sequences *)

Lemma scan_windows_suit cs i :
  completed (scan_windows cs i) = true → is_Some (cr_suit (scan_windows cs i)).
Proof.
  induction i as [|i IH]; cbn; destruct (window_ok _); cbn; try done;
    intros; by eexists.
Qed.

Lemma check_pile_completed now i pile :
  is_Some (check_pile now i pile).2
  ↔ completed (checkForCompletedSequence pile) = true.
Proof.
  unfold check_pile.
  assert (completed (checkForCompletedSequence pile) = true →
          is_Some (cr_suit (checkForCompletedSequence pile))) as Hs.
  { unfold checkForCompletedSequence. case_bool_decide; [done|].
    apply scan_windows_suit. }
  destruct (completed (checkForCompletedSequence pile)).
  - destruct (Hs eq_refl) as [s ->].
    destruct (flipTop _). cbn. split; [done|]. intros _. by eexists.
  - cbn. split; [by intros [? [=]]|done].
Qed.

Lemma completed_count now (T : list Pile) k :
  length (omap (fun r : Pile * option (CompletedInfo * CompletedSequence) =>
                  snd <$> r.2) (imap (fun i => check_pile now (k + i)) T))
  = length (filter (fun p => completed (checkForCompletedSequence p) = true) T).
Proof.
  revert k. induction T as [|pile T IH]; intros k; [done|].
  cbn [imap omap]. rewrite filter_cons.
  rewrite (imap_ext _ (fun i => check_pile now (S k + i))).
  2: { intros i x _. cbn. f_equal. lia. }
  pose proof (check_pile_completed now (k + 0) pile) as Hc.
  destruct (check_pile now (k + 0) pile) as [p' [[info sq]|]];
    cbn [snd] in Hc; cbn [omap list_omap fmap option_fmap option_map snd].
  - rewrite decide_True by (apply Hc; by eexists). cbn [length].
    f_equal. apply IH.
  - rewrite decide_False; [apply IH|]. intros Ht%Hc. by destruct Ht.
Qed.

(** X14: [checkCompletedSequences] goes through the piles once.  A
    pile without a completed sequence stays as it is; from a pile with
    one, the sequence nearest the top and every card above it are taken
    away, and the new top card, if face down, is turned face up.  One
    record per such pile is added at the end of [completedSequences]
    and [gameWon] is then set to whether there are exactly 8; with no
    completed sequence anywhere the game is returned as it is.  Stock,
    move counter, difficulty, selection, initial state and the length
    of the history are never changed. *)
Theorem checkCompletedSequences_spec (now : nat → Z) (g : SpiderSolitaireGame) :
  let g' := checkCompletedSequences now g in
  length (tableau (state g')) = length (tableau (state g))
  ∧ (∀ i pile, tableau (state g) !! i = Some pile →
       (no_window (cards pile) ∧ tableau (state g') !! i = Some pile)
       ∨ ∃ k s, window_at (cards pile) k s
           ∧ (∀ j s', window_at (cards pile) j s' → (j ≤ k)%nat)
           ∧ tableau (state g') !! i
             = Some (mkPile (flipTop (take k (cards pile))).1))
  ∧ (∃ new, completedSequences (state g') = completedSequences (state g) ++ new
       ∧ length new
         = length (filter (fun p => completed (checkForCompletedSequence p) = true)
                          (tableau (state g))))
  ∧ (Forall (fun p => no_window (cards p)) (tableau (state g)) → g' = g)
  ∧ (g' ≠ g →
     gameWon (state g')
     = bool_decide (length (completedSequences (state g')) = 8%nat))
  ∧ stock (state g') = stock (state g)
  ∧ moves (state g') = moves (state g)
  ∧ difficulty (state g') = difficulty (state g)
  ∧ selectedPile g' = selectedPile g
  ∧ selectedCardIndex g' = selectedCardIndex g
  ∧ initialState g' = initialState g
  ∧ length (history g') = length (history g).
Proof.
  intros g'. subst g'.
  pose proof (checkCompletedSequences_tableau now g) as HT.
  pose proof (checkCompletedSequences_completed now g) as HC.
  split. { by rewrite HT, length_fmap, length_imap. }
  split.
  { intros i pile Hi. rewrite HT, list_lookup_fmap, list_lookup_imap, Hi. cbn.
    destruct (check_pile_cases now i pile)
      as [(k & s & Hw & Hmax & ->)|[Hno ->]]; [right|left; by split].
    exists k, s. split; [done|]. split; [done|]. done. }
  split.
  { eexists. split; [exact HC|]. apply (completed_count now _ 0). }
  split.
  { intros Hall. unfold checkCompletedSequences.
    assert (existsb (fun r : Pile * option (CompletedInfo * CompletedSequence) =>
                       bool_decide (is_Some r.2))
                    (imap (check_pile now) (tableau (state g))) = false) as ->;
      [|done].
    apply not_true_is_false. intros (r & Hr & Hs)%existsb_exists.
    apply list_elem_of_In, list_elem_of_lookup in Hr as [i Hi].
    apply list_lookup_imap_Some in Hi as (pile & Hp & ->).
    apply bool_decide_eq_true in Hs.
    eapply Forall_lookup_1 in Hall; [|exact Hp].
    destruct (check_pile_cases now i pile)
      as [(k & s & Hw & _)|[_ E]]; [by apply (Hall k s)|].
    rewrite E in Hs. by destruct Hs. }
  split.
  { intros Hne. unfold checkCompletedSequences in *.
    destruct (existsb _ _); [|done]. done. }
  destruct (checkCompletedSequences_frame now g) as (-> & -> & -> & -> & -> & ->).
  by rewrite checkCompletedSequences_history_length.
Qed.

(** ** Invariants of reachable games *)

Lemma checkCompletedSequences_no_window now g :
  Forall (fun p => no_window (cards p)) (tableau (state g)) →
  checkCompletedSequences now g = g.
Proof.
  intros Hall. unfold checkCompletedSequences.
  assert (existsb (fun r : Pile * option (CompletedInfo * CompletedSequence) =>
                     bool_decide (is_Some r.2))
                  (imap (check_pile now) (tableau (state g))) = false) as ->;
    [|done].
  apply not_true_is_false. intros (r & Hr & Hs)%existsb_exists.
  apply list_elem_of_In, list_elem_of_lookup in Hr as [i Hi].
  apply list_lookup_imap_Some in Hi as (pile & Hp & ->).
  apply bool_decide_eq_true in Hs.
  eapply Forall_lookup_1 in Hall; [|exact Hp].
  destruct (check_pile_cases now i pile)
    as [(k & s & Hw & _)|[_ E]]; [by apply (Hall k s)|].
  rewrite E in Hs. by destruct Hs.
Qed.

(** X15: in every game that the operations of the store produce there
    are 10 piles; the ids of the cards on the table and in the stock
    are pairwise distinct and not empty; no face-down card lies above a
    face-up card; no pile holds a completed sequence, so checking again
    changes nothing; [gameWon] says whether there are 8 completed
    sequences; and a pending selection points at a face-up card.  The
    initial state kept for a restart has the same properties. *)
Theorem reachable_invariants (g : SpiderSolitaireGame) :
  reachable g →
  length (tableau (state g)) = 10%nat
  ∧ NoDup (id <$> all_cards (state g))
  ∧ ("" ∉ id <$> all_cards (state g))
  ∧ (∀ pile, pile ∈ tableau (state g) →
       face_sorted (cards pile)
       ∧ completed (checkForCompletedSequence pile) = false)
  ∧ (∀ now, checkCompletedSequences now g = g)
  ∧ gameWon (state g)
    = bool_decide (length (completedSequences (state g)) = 8%nat)
  ∧ (∀ p c, selectedPile g = Some p → selectedCardIndex g = Some c →
       ∃ pile card, tableau (state g) !! p = Some pile
                    ∧ cards pile !! c = Some card ∧ faceUp card = true)
  ∧ wf_state (initialState g).
Proof.
  intros [[Hnd Hne Hpiles Hlen _ Hwon] _ Hsel Hinit]%reachable_ok.
  split; [done|]. split; [done|]. split; [done|]. split.
  { intros pile Hp. eapply Forall_forall in Hpiles as [Hfs Hnw]; [|exact Hp].
    split; [done|].
    destruct (completed (checkForCompletedSequence pile)) eqn:Hc; [|done].
    apply (check_pile_completed (fun _ => 0) 0) in Hc.
    destruct (check_pile_cases (fun _ => 0) 0 pile)
      as [(k & s & Hw & _)|[_ E]]; [by destruct (Hnw k s)|].
    rewrite E in Hc. by destruct Hc. }
  split.
  { intros now. apply checkCompletedSequences_no_window.
    eapply Forall_impl; [exact Hpiles|]. by intros p [_ ?]. }
  done.
Qed.

Lemma reachable_invariants_witness :
  reachable demo_game
  ∧ length (tableau (state demo_game)) = 10%nat
  ∧ NoDup (id <$> all_cards (state demo_game))
  ∧ ∀ now, checkCompletedSequences now demo_game = demo_game.
Proof.
  split; [exact demo_game_reachable|].
  destruct (reachable_invariants demo_game demo_game_reachable)
    as (H1 & H2 & _ & _ & H3 & _).
  exact (conj H1 (conj H2 H3)).
Defined.

(** ** Move counter and history *)

Lemma dealFromStock_moves s s' :
  (10 ≤ length (stock s))%nat → dealFromStock s = Ok s' → moves s' = moves s + 1.
Proof.
  intros H10. unfold dealFromStock. rewrite bool_decide_eq_false_2 by lia.
  intros (T & _ & HT)%bind_Ok. by injection HT as <-.
Qed.

Lemma undo_state_moves h s s0 :
  undo_state h s = Ok s0 → moves s0 = moves s - 1.
Proof.
  unfold undo_state. destruct (restore_completed h s) as [cs T].
  destruct (mh_type h) as [[|]|], (mh_dealtCards h) as [dealt|];
    try (intros (tgt & _ & H)%bind_Ok;
         destruct (split_moved _ _ _); by injection H as <-).
  by intros [= <-].
Qed.

Lemma moveCards_counted now t g g' :
  moveCards now t g = Ok g' →
  moves (state g) = Z.of_nat (length (history g)) →
  moves (state g') = Z.of_nat (length (history g')).
Proof.
  intros Hmove Hm.
  destruct (moveCards_cases now t g g' Hmove)
    as [[_ ->]|[->|(sp & ci & src & tgt & first & rest & _ & _ & _ & _ & _ & _ & _ & ->)]];
    [done|done|].
  destruct (checkCompletedSequences_frame now (moved_game sp ci t src tgt g))
    as (_ & -> & _).
  rewrite checkCompletedSequences_history_length. cbn.
  rewrite length_app. cbn. lia.
Qed.

Lemma counted_ok g :
  reachable g →
  moves (state g) = Z.of_nat (length (history g)) ∧ moves (initialState g) = 0.
Proof.
  induction 1 as [ts1 ts2 gid rand1 rand2 g Hnew|d ts gid rand g g' _ _ Hnew
                  |g _ [IH1 IH2]|now p c skip g g' _ [IH1 IH2] Hs
                  |p c pile card g _ IH _ _ _|g _ IH
                  |now t g g' _ [IH1 IH2] Hm|now g g' _ [IH1 IH2] Hd
                  |g g' _ [IH1 IH2] Hu].
  - rewrite newSpiderSolitaireGame_Ok in Hnew. by injection Hnew as <-.
  - unfold newGame in Hnew. apply bind_Ok in Hnew as (s & Hs & Hg).
    injection Hg as <-.
    rewrite (initializeGame_deck _ ts gid rand _ eq_refl) in Hs.
    by injection Hs as <-.
  - done.
  - revert Hs. unfold selectCards.
    destruct (tableau (state g) !! p) as [pl|]; [|done]. cbn -[moveCards findBestMove].
    destruct (cards pl !! c) as [cd|]; [|done]. cbn -[moveCards findBestMove].
    destruct (faceUp cd); cbn -[moveCards findBestMove]; [|by intros [= <-]].
    destruct (getMovableCards pl c); [by intros [= <-]|].
    destruct skip; [by intros [= <-]|].
    destruct (findBestMove g p c) as [[b|]|]; cbn -[moveCards findBestMove];
      [|by intros [= <-]|done].
    case_bool_decide; [|by intros [= <-]].
    intros Hmove. split.
    + by apply (moveCards_counted _ _ _ _ Hmove).
    + by destruct (moveCards_kept _ _ _ _ Hmove) as [-> _].
  - done.
  - done.
  - split.
    + by apply (moveCards_counted _ _ _ _ Hm).
    + by destruct (moveCards_kept _ _ _ _ Hm) as [-> _].
  - destruct (deal_kept _ _ _ Hd) as [-> _]. split; [|done].
    revert Hd. unfold deal. destruct (canDeal g) eqn:Hcan; cbn [negb];
      [|by intros [= <-]].
    intros (s' & Hs' & [= <-])%bind_Ok.
    match goal with |- context [checkCompletedSequences now ?x] =>
      destruct (checkCompletedSequences_frame now x) as (_ & -> & _)
    end.
    rewrite checkCompletedSequences_history_length. cbn.
    rewrite (dealFromStock_moves _ _ (canDeal_true g Hcan) Hs'), length_app.
    cbn. lia.
  - destruct (undo_cases g g' Hu) as [[_ ->]|(hs & h & s0 & Hh & Hus & ->)]; [done|].
    cbn. split; [|done]. rewrite (undo_state_moves _ _ _ Hus), IH1, Hh, length_app.
    cbn. lia.
Qed.

(** X16: in every reachable game the move counter equals the number of
    records in the history: each move or deal adds one to both, each
    undo takes one from both, and a new or restarted game starts with
    0 and an empty history. *)
Theorem moves_count_history (g : SpiderSolitaireGame) :
  reachable g →
  moves (state g) = Z.of_nat (length (history g))
  ∧ moves (initialState g) = 0
  ∧ (history g = [] ↔ moves (state g) = 0).
Proof.
  intros [Hm Hi]%counted_ok. split; [done|]. split; [done|].
  rewrite Hm. destruct (history g); cbn; split; try done; lia.
Qed.

Lemma moves_count_history_witness :
  reachable demo_game
  ∧ moves (state demo_game) = Z.of_nat (length (history demo_game)).
Proof.
  split; [exact demo_game_reachable|].
  exact (proj1 (moves_count_history demo_game demo_game_reachable)).
Defined.

(** ** Properties of every state of a game, past states included *)

Lemma hist_all_inv P s hs h :
  hist_all P s (hs ++ [h]) →
  ∃ s0, P s0 ∧ hist_all P s0 hs ∧ undo_state h s = Ok s0.
Proof.
  intros H. remember (hs ++ [h]) as l eqn:E.
  destruct H as [|s s0 hs' h' HP Hh Hu].
  - by destruct hs.
  - apply app_inj_tail in E as [-> ->]. eauto.
Qed.

Section lift.
Context (P : GameState → Prop).
Hypothesis Hinit : ∀ d ts gid rand s, initializeGame d ts gid rand = Ok s → P s.
Hypothesis Hmove : ∀ now g sp ci t src tgt first rest,
  game_ok g → P (state g) →
  selectedPile g = Some sp → selectedCardIndex g = Some ci → sp ≠ t →
  tableau (state g) !! sp = Some src → tableau (state g) !! t = Some tgt →
  getMovableCards src ci = first :: rest →
  P (state (checkCompletedSequences now (moved_game sp ci t src tgt g))).
Hypothesis Hdeal : ∀ now g,
  game_ok g → P (state g) → canDeal g = true →
  P (state (checkCompletedSequences now (dealt_game g))).

Lemma moveCards_lifted now t g g' :
  game_ok g → lifted P g → moveCards now t g = Ok g' → lifted P g'.
Proof.
  intros Hok (HP & Hh & Hi) Hm.
  destruct (moveCards_cases now t g g' Hm)
    as [[_ ->]|[->|(sp & ci & src & tgt & first & rest & Hsp & Hci & Hne & Hsrc
                    & Htgt & Hrun & _ & ->)]]; [done|done|].
  destruct Hok as [Hwf Hhist Hsel Hinit'].
  destruct (moved_game_round_trip now g sp ci t src tgt first rest)
    as (h & Hh' & _ & Hu & _ & _ & _ & _ & Hi'); [done..|].
  split; [|split].
  - by eapply Hmove.
  - rewrite Hh'. by apply (hist_all_snoc P _ (state g)).
  - by rewrite Hi'.
Qed.

Lemma deal_lifted now g g' :
  game_ok g → lifted P g → deal now g = Ok g' → lifted P g'.
Proof.
  intros Hok (HP & Hh & Hi) Hd.
  pose proof Hok as [Hwf Hhist Hsel Hinit'].
  destruct (deal_cases now g g') as [[_ ->]|[Hcan ->]]; [|done|done|].
  { destruct Hwf as [_ _ _ Hlen _ _]. lia. }
  destruct (dealt_game_round_trip now g)
    as (h & Hh' & _ & Hu & _ & _ & _ & _ & _ & Hi'); [done..|].
  split; [|split].
  - by apply Hdeal.
  - rewrite Hh'. by apply (hist_all_snoc P _ (state g)).
  - by rewrite Hi'.
Qed.

Lemma undo_lifted g g' : lifted P g → undo g = Ok g' → lifted P g'.
Proof.
  intros (HP & Hh & Hi) Hu.
  destruct (undo_cases g g' Hu) as [[_ ->]|(hs & h & s0 & Hhs & Hus & ->)]; [done|].
  rewrite Hhs in Hh. apply hist_all_inv in Hh as (s0' & HP0 & Hh0 & Hus').
  rewrite Hus in Hus'. injection Hus' as <-. done.
Qed.

Lemma selectCards_lifted now p c skip g g' :
  game_ok g → lifted P g → selectCards now p c skip g = Ok g' → lifted P g'.
Proof.
  intros Hok HL. unfold selectCards.
  destruct (tableau (state g) !! p) as [pile|] eqn:Hp; [|done]. cbn -[moveCards findBestMove].
  destruct (cards pile !! c) as [card|] eqn:Hc; [|done]. cbn -[moveCards findBestMove].
  destruct (faceUp card) eqn:Hup; cbn -[moveCards findBestMove]; [|by intros [= <-]].
  pose proof (setSelection_ok p c pile card g Hok Hp Hc Hup) as Hsel.
  destruct (getMovableCards pile c); [by intros [= <-]|].
  destruct skip; [by intros [= <-]|].
  destruct (findBestMove g p c) as [[b|]|]; cbn -[moveCards findBestMove];
    [|by intros [= <-]|done].
  case_bool_decide; [|by intros [= <-]].
  by apply moveCards_lifted.
Qed.

Lemma newSpiderSolitaireGame_lifted ts1 ts2 gid rand1 rand2 g :
  newSpiderSolitaireGame ts1 ts2 gid rand1 rand2 = Ok g → lifted P g.
Proof.
  unfold newSpiderSolitaireGame.
  intros (s & Hs & (s0 & Hs0 & H)%bind_Ok)%bind_Ok.
  injection H as <-.
  split; [exact (Hinit _ _ _ _ _ Hs)|].
  split; [constructor|exact (Hinit _ _ _ _ _ Hs0)].
Qed.

Lemma newGame_lifted d ts gid rand g g' :
  newGame d ts gid rand g = Ok g' → lifted P g'.
Proof.
  unfold newGame. intros (s & Hs & H)%bind_Ok. injection H as <-.
  split; [exact (Hinit _ _ _ _ _ Hs)|].
  split; [constructor|exact (Hinit _ _ _ _ _ Hs)].
Qed.

Lemma reachable_lifted g : reachable g → lifted P g.
Proof.
  induction 1 as [ts1 ts2 gid rand1 rand2 g Hnew|d ts gid rand g g' _ _ Hnew
                  |g _ IH|now p c skip g g' Hr IH Hs
                  |p c pile card g _ IH _ _ _|g _ IH
                  |now t g g' Hr IH Hm|now g g' Hr IH Hd
                  |g g' _ IH Hu].
  - by eapply newSpiderSolitaireGame_lifted.
  - by eapply newGame_lifted.
  - destruct IH as (_ & _ & Hi). split; [exact Hi|]. split; [constructor|exact Hi].
  - eapply selectCards_lifted; [by apply reachable_ok|exact IH|exact Hs].
  - exact IH.
  - exact IH.
  - eapply moveCards_lifted; [by apply reachable_ok|exact IH|exact Hm].
  - eapply deal_lifted; [by apply reachable_ok|exact IH|exact Hd].
  - by eapply undo_lifted.
Qed.

End lift.

(** ** Cards in play *)

Lemma top_faceUp_snoc cs c : faceUp c = true → top_faceUp (cs ++ [c]).
Proof. intros Hc c'. rewrite last_snoc. by intros [= <-]. Qed.

Lemma top_faceUp_nil : top_faceUp [].
Proof. by intros c. Qed.

Lemma top_faceUp_flipTop cs : top_faceUp (flipTop cs).1.
Proof.
  destruct (flipTop_cases cs)
    as [(pre & c & -> & _ & ->)|[[->|(pre & c & -> & Hup)] ->]]; cbn.
  - by apply top_faceUp_snoc.
  - apply top_faceUp_nil.
  - by apply top_faceUp_snoc.
Qed.

Lemma top_faceUp_layout A B :
  (0 < length B)%nat → top_faceUp (A ++ (setFaceUp true <$> take 1 B)).
Proof.
  intros HB. destruct B as [|b B]; [cbn in HB; lia|]. cbn [take fmap list_fmap].
  by apply top_faceUp_snoc.
Qed.

Lemma in_play_initial d deck :
  length deck = 104%nat → in_play (initial_layout d deck).
Proof.
  intros Hlen. split.
  - unfold initial_layout. cbn [tableau].
    repeat (apply Forall_cons_2 || apply Forall_nil_2); cbn [cards];
      apply top_faceUp_layout; rewrite ?length_drop; lia.
  - unfold card_total. rewrite initial_layout_length by done. cbn. lia.
Qed.

Lemma check_pile_total now i pile :
  top_only (cards pile) →
  (length (cards (check_pile now i pile).1)
   + 13 * length (omap (fun r : Pile * option (CompletedInfo * CompletedSequence) =>
                          snd <$> r.2) [check_pile now i pile])
   = length (cards pile))%nat.
Proof.
  intros Htop.
  destruct (check_pile_cases now i pile) as [(k & s & Hw & _ & ->)|[_ ->]];
    cbn; [|lia].
  rewrite flipTop_length, length_take. pose proof (Htop k s Hw). lia.
Qed.

Lemma check_total now (T : list Pile) k :
  Forall (fun p => top_only (cards p)) T →
  (length (concat (cards <$> (fst <$> imap (fun i => check_pile now (k + i)) T)))
   + 13 * length (omap (fun r : Pile * option (CompletedInfo * CompletedSequence) =>
                          snd <$> r.2) (imap (fun i => check_pile now (k + i)) T))
   = length (concat (cards <$> T)))%nat.
Proof.
  revert k. induction T as [|pile T IH]; intros k Hall; [done|].
  apply Forall_cons in Hall as [Hp Hall].
  cbn [imap]. rewrite (imap_ext _ (fun i => check_pile now (S k + i))).
  2: { intros i x _. cbn. f_equal. lia. }
  specialize (IH (S k) Hall).
  pose proof (check_pile_total now (k + 0) pile Hp) as H1.
  rewrite !fmap_cons. cbn [concat]. rewrite !length_app.
  change (check_pile now (k + 0) pile :: ?l) with ([check_pile now (k + 0) pile] ++ l).
  rewrite omap_app, length_app. lia.
Qed.

Lemma check_in_play now g :
  Forall (fun p => top_only (cards p)) (tableau (state g)) →
  in_play (state g) → in_play (state (checkCompletedSequences now g)).
Proof.
  intros Htop [Htops Htot]. split.
  - rewrite checkCompletedSequences_tableau. apply Forall_lookup_2.
    intros i p'. rewrite list_lookup_fmap, list_lookup_imap.
    destruct (tableau (state g) !! i) as [pile|] eqn:Hi; [|done]. cbn.
    intros [= <-].
    destruct (check_pile_cases now i pile) as [(k & s & _ & _ & ->)|[_ ->]]; cbn.
    + apply top_faceUp_flipTop.
    + by eapply Forall_lookup_1 in Htops.
  - unfold card_total, all_cards in *.
    rewrite checkCompletedSequences_tableau, checkCompletedSequences_completed.
    destruct (checkCompletedSequences_frame now g) as (-> & _).
    pose proof (check_total now (tableau (state g)) 0 Htop) as H.
    rewrite (imap_ext _ (check_pile now)) in H by done.
    rewrite !length_app in *. lia.
Qed.

Lemma pre_state_top_only s :
  pre_state s → Forall (fun p => top_only (cards p)) (tableau s).
Proof.
  intros [_ _ Hp _ _ _]. eapply Forall_impl; [exact Hp|]. by intros p [_ ?].
Qed.

Lemma moved_state_in_play s sp ci t src tgt first rest :
  sp ≠ t → tableau s !! sp = Some src → tableau s !! t = Some tgt →
  drop ci (cards src) = first :: rest →
  Forall (fun c => faceUp c = true) (drop ci (cards src)) →
  in_play s → in_play (moved_state sp ci t src tgt s).
Proof.
  intros Hne Hsrc Htgt Hrun Hup [Htops Htot]. split.
  - cbn [moved_state tableau]. apply Forall_lookup_2. intros i p'.
    rewrite move_tableau_lookup.
    destruct (tableau s !! i) as [pile|] eqn:Hi; [|done]. cbn.
    intros [= <-]. case_bool_decide; [apply top_faceUp_flipTop|].
    case_bool_decide; [|by eapply Forall_lookup_1 in Htops].
    cbn. intros c Hc. rewrite Hrun in Hc, Hup.
    rewrite last_app in Hc.
    destruct (last (first :: rest)) as [c'|] eqn:Hl; [|by apply last_None in Hl].
    injection Hc as <-. apply last_Some in Hl as [l' Hl].
    rewrite Hl in Hup. apply Forall_app in Hup as [_ Hup].
    by apply (Forall_inv Hup).
  - unfold card_total in *. cbn [moved_state completedSequences].
    pose proof (moved_state_ids s sp ci t src tgt Hne Hsrc Htgt) as Hperm.
    apply Permutation_length in Hperm. rewrite !length_fmap in Hperm.
    by rewrite Hperm.
Qed.

Lemma deal_onto_tops tab st :
  Forall (fun p => top_faceUp (cards p)) (deal_onto tab st).
Proof.
  unfold deal_onto. revert st. induction tab as [|p tab IH]; intros [|c st]; cbn;
    try constructor; [|apply IH].
  cbn. by apply top_faceUp_snoc.
Qed.

Lemma dealt_state_in_play s :
  wf_state s → (10 ≤ length (stock s))%nat → in_play s → in_play (dealt_state s).
Proof.
  intros Hwf H10 [Htops Htot]. split.
  - apply deal_onto_tops.
  - unfold card_total in *. cbn [dealt_state completedSequences].
    pose proof (dealt_state_ids s Hwf H10) as Hperm.
    apply Permutation_length in Hperm. rewrite !length_fmap in Hperm.
    by rewrite Hperm.
Qed.

Lemma reachable_in_play g : reachable g → lifted in_play g.
Proof.
  apply reachable_lifted.
  - intros d ts gid rand s Hs.
    assert (s = initial_layout d (shuffleDeck rand (createDeck d ts gid).1)) as ->.
    { pose proof (initializeGame_deck d ts gid rand _ eq_refl) as Hd.
      congruence. }
    apply in_play_initial, shuffled_length.
  - intros now g' sp ci t src tgt first rest [Hwf _ Hsel _] HP Hsp Hci Hne Hsrc Htgt Hrun.
    pose proof (sel_ok_run g' sp ci src Hwf Hsel Hsp Hci Hsrc) as Hup.
    apply getMovableCards_cons in Hrun as [Hrun Hdesc].
    apply check_in_play.
    + apply pre_state_top_only. by apply moved_state_pre.
    + by eapply moved_state_in_play.
  - intros now g' [Hwf _ _ _] HP Hcan. apply canDeal_true in Hcan.
    apply check_in_play.
    + apply pre_state_top_only. by apply dealt_state_pre.
    + by apply dealt_state_in_play.
Qed.

Lemma all_cards_nil s :
  all_cards s = [] ↔ Forall (fun p => cards p = []) (tableau s) ∧ stock s = [].
Proof.
  unfold all_cards. split.
  - intros [Hc Hs]%app_eq_nil. split; [|done].
    induction (tableau s) as [|p T IH]; [constructor|].
    cbn in Hc. apply app_eq_nil in Hc as [Hp HT]. constructor; [done|by apply IH].
  - intros [HT ->]. rewrite app_nil_r.
    induction HT as [|p T Hp _ IH]; [done|]. cbn. by rewrite Hp, IH.
Qed.

(** X17: in every reachable game the 104 cards are accounted for: the
    cards on the table and in the stock, plus 13 for each completed
    sequence, are 104.  So there are never more than 8 completed
    sequences, and the game is won exactly when every pile and the
    stock are empty.  The top card of every non-empty pile is face up.
    All this holds of the initial state kept for a restart as well. *)
Theorem cards_conserved (g : SpiderSolitaireGame) :
  reachable g →
  (length (concat (cards <$> tableau (state g))) + length (stock (state g))
   + 13 * length (completedSequences (state g)) = 104)%nat
  ∧ (length (completedSequences (state g)) ≤ 8)%nat
  ∧ (gameWon (state g) = true
     ↔ Forall (fun p => cards p = []) (tableau (state g)) ∧ stock (state g) = [])
  ∧ (∀ pile c, pile ∈ tableau (state g) → last (cards pile) = Some c →
               faceUp c = true)
  ∧ in_play (initialState g).
Proof.
  intros Hr. pose proof (reachable_ok g Hr) as [[_ _ _ _ _ Hwon] _ _ _].
  destruct (reachable_in_play g Hr) as ([Htops Htot] & _ & Hinit).
  unfold card_total, all_cards in Htot. rewrite length_app in Htot.
  split; [done|]. split; [lia|]. split; [|split; [|done]].
  - rewrite Hwon, bool_decide_eq_true, <- all_cards_nil.
    unfold all_cards. split.
    + intros H8. apply length_zero_iff_nil. rewrite length_app. lia.
    + intros Hnil. apply (f_equal length) in Hnil.
      rewrite length_app in Hnil. cbn in Hnil. lia.
  - intros pile c Hp. eapply Forall_forall in Htops; [|exact Hp]. apply Htops.
Qed.

Lemma cards_conserved_witness :
  reachable demo_game
  ∧ (length (concat (cards <$> tableau (state demo_game)))
     + length (stock (state demo_game))
     + 13 * length (completedSequences (state demo_game)) = 104)%nat.
Proof.
  split; [exact demo_game_reachable|].
  exact (proj1 (cards_conserved demo_game demo_game_reachable)).
Defined.

(** ** Undoing a whole game *)

Lemma hist_to_inv s0 s hs h :
  hist_to s0 s (hs ++ [h]) → ∃ s1, hist_to s0 s1 hs ∧ undo_state h s = Ok s1.
Proof.
  intros H. remember (hs ++ [h]) as l eqn:E.
  destruct H as [|s s1 hs' h' Hh Hu].
  - by destruct hs.
  - apply app_inj_tail in E as [-> ->]. eauto.
Qed.

Lemma clearSelection_ok g : game_ok g → game_ok (clearSelection g).
Proof. intros [Hwf Hh _ Hinit]. split; [done|done| |done]. by intros p c [=]. Qed.

Lemma moveCards_hist_to now t s0 g g' :
  game_ok g → hist_to s0 (state g) (history g) → moveCards now t g = Ok g' →
  hist_to s0 (state g') (history g').
Proof.
  intros Hok Hh Hm.
  destruct (moveCards_cases now t g g' Hm)
    as [[_ ->]|[->|(sp & ci & src & tgt & first & rest & Hsp & Hci & Hne & Hsrc
                    & Htgt & Hrun & _ & ->)]]; [done|done|].
  destruct Hok as [Hwf Hhist Hsel Hinit'].
  destruct (moved_game_round_trip now g sp ci t src tgt first rest)
    as (h & Hh' & _ & Hu & _); [done..|].
  rewrite Hh'. by apply (hist_to_snoc s0 _ (state g)).
Qed.

Lemma played_hist_to g0 g :
  game_ok g0 → history g0 = [] → played g0 g →
  game_ok g ∧ hist_to (state g0) (state g) (history g).
Proof.
  intros Hok0 Hh0.
  induction 1 as [|now p c skip g g' _ [IHok IHh] Hs|p c pile card g _ [IHok IHh] Hp Hc Hup
                  |g _ [IHok IHh]|now t g g' _ [IHok IHh] Hm
                  |now g g' _ [IHok IHh] Hd|g g' _ [IHok IHh] Hu].
  - split; [done|]. rewrite Hh0. constructor.
  - split; [by eapply selectCards_ok|].
    revert Hs. unfold selectCards.
    destruct (tableau (state g) !! p) as [pile|] eqn:Hp; [|done].
    cbn -[moveCards findBestMove].
    destruct (cards pile !! c) as [card|] eqn:Hc; [|done].
    cbn -[moveCards findBestMove].
    destruct (faceUp card) eqn:Hup; cbn -[moveCards findBestMove]; [|by intros [= <-]].
    pose proof (setSelection_ok p c pile card g IHok Hp Hc Hup) as Hsel.
    destruct (getMovableCards pile c); [by intros [= <-]|].
    destruct skip; [by intros [= <-]|].
    destruct (findBestMove g p c) as [[b|]|]; cbn -[moveCards findBestMove];
      [|by intros [= <-]|done].
    case_bool_decide; [|by intros [= <-]].
    by apply moveCards_hist_to.
  - split; [by eapply setSelection_ok|done].
  - split; [by apply clearSelection_ok|done].
  - split; [by eapply moveCards_ok|by eapply moveCards_hist_to].
  - split; [by eapply deal_ok|].
    pose proof IHok as [Hwf _ _ _].
    destruct (deal_cases now g g') as [[_ ->]|[Hcan ->]]; [|done|done|].
    { destruct Hwf as [_ _ _ Hlen _ _]. lia. }
    destruct (dealt_game_round_trip now g) as (h & Hh' & _ & Hu' & _); [done..|].
    rewrite Hh'. by apply (hist_to_snoc _ _ (state g)).
  - split; [by eapply undo_ok|].
    destruct (undo_cases g g' Hu) as [[_ ->]|(hs & h & s1 & Hhs & Hus & ->)]; [done|].
    rewrite Hhs in IHh. apply hist_to_inv in IHh as (s1' & Hh1 & Hus').
    rewrite Hus in Hus'. by injection Hus' as <-.
Qed.

Lemma undo_n_hist_to s0 s hs :
  hist_to s0 s hs →
  ∀ g, state g = s → history g = hs →
  ∃ g', undo_n (length hs) g = Ok g' ∧ state g' = s0 ∧ history g' = []
        ∧ initialState g' = initialState g.
Proof.
  induction 1 as [|s s1 hs h Hh IH Hu]; intros g Hs Hhs.
  - exists g. by rewrite Hs.
  - rewrite length_app, Nat.add_1_r. cbn [length undo_n].
    rewrite <- Hs in Hu. rewrite (undo_snoc _ _ _ _ Hhs Hu). cbn.
    destruct (IH {| state := s1; history := hs; selectedPile := None;
                    selectedCardIndex := None; initialState := initialState g |})
      as (g' & Hg' & H1 & H2 & H3); [done..|].
    by exists g'.
Qed.

(** X18: however a game was played from a point with an empty history
    (a new or restarted game), calling [undo] once per record of the
    history never raises and gives back the state of that point, with
    an empty history. *)
Theorem undo_all_returns (g0 g : SpiderSolitaireGame) :
  reachable g0 → history g0 = [] → played g0 g →
  ∃ g', undo_n (length (history g)) g = Ok g'
    ∧ state g' = state g0 ∧ history g' = []
    ∧ initialState g' = initialState g0.
Proof.
  intros Hok%reachable_ok Hh Hp.
  destruct (played_hist_to g0 g Hok Hh Hp) as [_ Hto].
  destruct (undo_n_hist_to _ _ _ Hto g eq_refl eq_refl) as (g' & H1 & H2 & H3 & H4).
  exists g'. destruct (played_kept g0 g Hp) as [Hi _].
  by rewrite H4, Hi.
Qed.

Lemma demo_fresh_reachable : reachable demo_fresh.
Proof. exact (reach_new _ _ _ _ _ _ demo_new_Ok). Qed.

Lemma undo_all_returns_witness :
  ∃ g, moveCards (fun _ => 0) 6 (setSelection 1 5 demo_fresh) = Ok g
    ∧ length (history g) = 1%nat
    ∧ ∃ g', undo_n 1 g = Ok g' ∧ state g' = state demo_fresh ∧ history g' = [].
Proof.
  destruct (moveCards (fun _ => 0) 6 (setSelection 1 5 demo_fresh)) as [g|e] eqn:E.
  2: { exfalso. vm_compute in E. discriminate. }
  exists g.
  assert (played demo_fresh g) as Hp.
  { eapply played_moveCards; [|exact E].
    eapply played_setSelection; [apply played_refl|vm_compute; reflexivity..]. }
  assert (length (history g) = 1%nat) as Hlen.
  { assert (Some (length (history g)) = Some 1%nat) as Hm; [|by injection Hm].
    change (Some (length (history g)))
      with (match Ok g with Ok x => Some (length (history x)) | Fail _ => None end).
    rewrite <- E. vm_compute. reflexivity. }
  split; [done|]. split; [exact Hlen|].
  destruct (undo_all_returns demo_fresh g demo_fresh_reachable eq_refl Hp)
    as (g' & H1 & H2 & H3 & _).
  exists g'. rewrite Hlen in H1. done.
Defined.

(** ** No operation raises in a reachable game *)

(** X19: in a reachable game [deal] and [undo] never raise, [moveCards]
    does not raise for a target pile among the 10, [findBestMove] does
    not raise for a source pile among the 10, and [selectCards] does not
    raise for a card that exists.  A [TypeError] is what [moveCards]
    gives for a target pile beyond the last one when the selection is a
    movable run. *)
Theorem operations_never_raise (g : SpiderSolitaireGame) :
  reachable g →
  (∀ now t, (t < 10)%nat → ∃ g', moveCards now t g = Ok g')
  ∧ (∀ now, ∃ g', deal now g = Ok g')
  ∧ (∃ g', undo g = Ok g')
  ∧ (∀ p c, (p < 10)%nat → ∃ r, findBestMove g p c = Ok r)
  ∧ (∀ now p c skip pile card,
       tableau (state g) !! p = Some pile → cards pile !! c = Some card →
       ∃ g', selectCards now p c skip g = Ok g')
  ∧ (∀ now t sp ci src,
       selectedPile g = Some sp → selectedCardIndex g = Some ci →
       tableau (state g) !! sp = Some src → getMovableCards src ci ≠ [] →
       (10 ≤ t)%nat → moveCards now t g = Fail TypeError).
Proof.
  intros [Hwf Hh Hsel _]%reachable_ok.
  pose proof Hwf as [_ _ _ Hlen _ _].
  split; [|split; [|split; [|split; [|split]]]].
  - intros now t Ht. unfold moveCards.
    destruct (selectedPile g) as [sp|] eqn:Hsp; [|by eexists].
    destruct (selectedCardIndex g) as [ci|] eqn:Hci; [|by eexists].
    destruct (Hsel sp ci Hsp Hci) as (src & card & Hsrc & _).
    case_bool_decide; [by eexists|]. rewrite Hsrc. cbn.
    destruct (getMovableCards src ci) as [|first rest]; [by eexists|].
    destruct (lookup_lt_is_Some_2 (tableau (state g)) t) as [tgt ->]; [lia|].
    cbn. destruct (canPlaceCard first (last (cards tgt))); cbn; [|by eexists].
    destruct (flipTop _). by eexists.
  - intros now. unfold deal. destruct (canDeal g) eqn:Hcan; cbn [negb]; [|by eexists].
    apply canDeal_true in Hcan.
    rewrite dealFromStock_Ok; [by eexists|done|lia].
  - unfold undo. destruct (history g) as [|h0 hs0] eqn:Hhs using rev_ind;
      [by eexists|]. clear IHhs0.
    rewrite last_snoc.
    apply hist_ok_inv in Hh as (s0 & _ & _ & _ & ->). by eexists.
  - intros p c Hp. unfold findBestMove.
    destruct (lookup_lt_is_Some_2 (tableau (state g)) p) as [src ->]; [lia|].
    cbn. destruct (getMovableCards src c); by eexists.
  - intros now p c skip pile card Hp Hc. unfold selectCards.
    rewrite Hp. cbn -[moveCards findBestMove].
    rewrite Hc. cbn -[moveCards findBestMove].
    destruct (faceUp card); cbn -[moveCards findBestMove]; [|by eexists].
    destruct (getMovableCards pile c) as [|first rest] eqn:Hrun; [by eexists|].
    destruct skip; [by eexists|].
    destruct (findBestMove_cases g p c pile first rest Hp Hrun)
      as [[-> _]|(b & tgt & -> & Hacc & _)]; cbn -[moveCards findBestMove];
      [by eexists|].
    pose proof Hacc as (_ & Hne & _). rewrite bool_decide_eq_true_2 by done.
    destruct (moveCards_selection now g p c b pile tgt first rest Hp Hrun Hacc)
      as (g' & -> & _).
    by eexists.
  - intros now t sp ci src Hsp Hci Hsrc Hrun Ht. unfold moveCards.
    rewrite Hsp, Hci. rewrite bool_decide_eq_false_2.
    2: { intros ->. apply lookup_lt_Some in Hsrc. lia. }
    rewrite Hsrc. cbn. destruct (getMovableCards src ci); [done|].
    by rewrite lookup_ge_None_2 by lia.
Qed.

Lemma operations_never_raise_witness :
  reachable demo_game
  ∧ (∃ g', moveCards (fun _ => 0) 6 demo_game = Ok g')
  ∧ (∃ g', deal (fun _ => 0) demo_game = Ok g')
  ∧ (∃ g', undo demo_game = Ok g')
  ∧ moveCards (fun _ => 0) 10 demo_game = Fail TypeError.
Proof.
  split; [exact demo_game_reachable|].
  destruct (operations_never_raise demo_game demo_game_reachable)
    as (H1 & H2 & H3 & _ & _ & H6).
  split; [apply H1; lia|]. split; [apply H2|]. split; [exact H3|].
  eapply (H6 _ 10%nat 1%nat 5%nat); [reflexivity|reflexivity|vm_compute; reflexivity| |lia].
  vm_compute. discriminate.
Defined.

(** ** What a move does *)

Lemma omap_imap_single {A B C} (f : nat → A → B) (h : B → option C)
    (T : list A) (t : nat) :
  (∀ i x, T !! i = Some x → i ≠ t → h (f i x) = None) →
  omap h (imap f T)
  = match T !! t with
    | Some x => match h (f t x) with Some y => [y] | None => [] end
    | None => []
    end.
Proof.
  revert f t. induction T as [|a T IH]; intros f t Hnone; [by destruct t|].
  cbn [imap omap list_omap]. destruct t as [|t]; cbn [lookup list_lookup].
  - rewrite (IH (f ∘ S) (length T)).
    2: { intros i x Hi _. by apply (Hnone (S i)). }
    rewrite lookup_ge_None_2 by lia. by destruct (h (f 0%nat a)).
  - rewrite (Hnone 0%nat a) by done. apply (IH (f ∘ S)).
    intros i x Hi Hne. apply (Hnone (S i)); [done|lia].
Qed.

Lemma check_pile_no_window now i pile :
  no_window (cards pile) → check_pile now i pile = (pile, None).
Proof.
  intros Hnw.
  destruct (check_pile_cases now i pile) as [(k & s & Hw & _)|[_ E]]; [|done].
  by destruct (Hnw k s).
Qed.

Lemma face_sorted_no_window_lookup (T : list Pile) i pile :
  Forall (fun p => face_sorted (cards p) ∧ no_window (cards p)) T →
  T !! i = Some pile → face_sorted (cards pile) ∧ no_window (cards pile).
Proof. intros Hall Hi. by eapply Forall_lookup_1 in Hall. Qed.

(** X20: a legal move in a reachable game takes the selected run off
    the source pile, whose new top card is turned face up, and puts it
    on the target pile; the other piles, the stock and the history
    before it stay as they are and the move is counted.  If the target
    pile then ends with a completed sequence, its top 13 cards are
    taken away, the card under them is turned face up and one record
    of the suit is added to [completedSequences]; otherwise
    [completedSequences] is unchanged. *)
Theorem moveCards_effect (now : nat → Z) (t : nat) (g : SpiderSolitaireGame) :
  reachable g → legal_move g t →
  ∃ sp ci src tgt run g',
    selectedPile g = Some sp ∧ selectedCardIndex g = Some ci
    ∧ tableau (state g) !! sp = Some src ∧ tableau (state g) !! t = Some tgt
    ∧ run = drop ci (cards src) ∧ run ≠ []
    ∧ moveCards now t g = Ok g'
    ∧ tableau (state g') !! sp = Some (mkPile (flipTop (take ci (cards src))).1)
    ∧ (∀ i pile, i ≠ sp → i ≠ t → tableau (state g) !! i = Some pile →
         tableau (state g') !! i = Some pile)
    ∧ ((no_window (cards tgt ++ run)
        ∧ tableau (state g') !! t = Some (mkPile (cards tgt ++ run))
        ∧ completedSequences (state g') = completedSequences (state g))
       ∨ ∃ s sq,
           window_at (cards tgt ++ run) (length (cards tgt ++ run) - 13) s
           ∧ tableau (state g') !! t
             = Some (mkPile (flipTop (take (length (cards tgt ++ run) - 13)
                                           (cards tgt ++ run))).1)
           ∧ cs_suit sq = s
           ∧ completedSequences (state g')
             = completedSequences (state g) ++ [sq])
    ∧ stock (state g') = stock (state g)
    ∧ moves (state g') = moves (state g) + 1
    ∧ selectedPile g' = None ∧ selectedCardIndex g' = None.
Proof.
  intros [Hwf _ Hsel _]%reachable_ok Hlegal.
  destruct (legal_move_moveCards now t g Hlegal)
    as (sp & ci & src & tgt & first & rest & Hsp & Hci & Hne & Hsrc & Htgt
        & Hrun & Hmove).
  pose proof (sel_ok_run g sp ci src Hwf Hsel Hsp Hci Hsrc) as Hup.
  apply getMovableCards_cons in Hrun as [Hrun Hdesc].
  pose proof Hwf as [_ _ Hpiles _ _ _].
  destruct (face_sorted_no_window_lookup _ _ _ Hpiles Hsrc) as [Hfs_src Hnw_src].
  destruct (face_sorted_no_window_lookup _ _ _ Hpiles Htgt) as [Hfs_tgt Hnw_tgt].
  exists sp, ci, src, tgt, (drop ci (cards src)),
    (checkCompletedSequences now (moved_game sp ci t src tgt g)).
  do 4 (split; [done|]). split; [done|]. split; [by rewrite Hrun|].
  split; [exact Hmove|].
  set (g1 := moved_game sp ci t src tgt g).
  pose proof (checkCompletedSequences_tableau now g1) as HT.
  pose proof (checkCompletedSequences_completed now g1) as HC.
  cbn [g1 moved_game state moved_state tableau completedSequences] in HT, HC.
  assert (∀ i, tableau (state (checkCompletedSequences now g1)) !! i
               = (fun p => (check_pile now i p).1)
                   <$> (move_tableau sp ci t src tgt (tableau (state g)) !! i)) as Hlook.
  { intros i. rewrite HT, list_lookup_fmap, list_lookup_imap.
    by destruct (move_tableau sp ci t src tgt (tableau (state g)) !! i). }
  assert (no_window (flipTop (take ci (cards src))).1) as Hnw_src'.
  { apply flipTop_prefix_ok; [done|]. intros i s Hw. by destruct (Hnw_src i s). }
  split.
  { rewrite Hlook, move_tableau_lookup, Hsrc. cbn.
    rewrite bool_decide_eq_true_2 by done.
    by rewrite check_pile_no_window. }
  split.
  { intros i pile Hi1 Hi2 Hi. rewrite Hlook, move_tableau_lookup, Hi. cbn.
    rewrite !bool_decide_eq_false_2 by done.
    destruct (face_sorted_no_window_lookup _ _ _ Hpiles Hi) as [_ Hnw].
    by rewrite check_pile_no_window. }
  assert (omap (fun r : Pile * option (CompletedInfo * CompletedSequence) =>
                  snd <$> r.2)
               (imap (check_pile now) (move_tableau sp ci t src tgt (tableau (state g))))
          = match snd <$> (check_pile now t
                             (mkPile (cards tgt ++ drop ci (cards src)))).2 with
            | Some sq => [sq]
            | None => []
            end) as Hnew.
  { rewrite (omap_imap_single _ _ _ t).
    - rewrite move_tableau_lookup, Htgt. cbn.
      rewrite bool_decide_eq_false_2 by done.
      by rewrite bool_decide_eq_true_2.
    - intros i x Hi Hit. rewrite move_tableau_lookup in Hi.
      destruct (tableau (state g) !! i) as [pile|] eqn:Hp; [|done].
      cbn in Hi. injection Hi as <-. case_bool_decide.
      + by rewrite check_pile_no_window.
      + rewrite bool_decide_eq_false_2 by done.
        destruct (face_sorted_no_window_lookup _ _ _ Hpiles Hp) as [_ Hnw].
        by rewrite check_pile_no_window. }
  rewrite Hnew in HC.
  assert (top_only (cards tgt ++ drop ci (cards src))) as Htop.
  { by apply top_only_app_run. }
  split.
  { destruct (check_pile_cases now t (mkPile (cards tgt ++ drop ci (cards src))))
      as [(k & s & Hw & _ & E)|[Hnw E]]; cbn [cards] in *.
    - right. pose proof (Htop k s Hw) as Hk.
      replace (length (cards tgt ++ drop ci (cards src)) - 13)%nat with k by lia.
      eexists s, _. split; [done|]. split.
      { rewrite Hlook, move_tableau_lookup, Htgt. cbn.
        rewrite bool_decide_eq_false_2 by done.
        rewrite bool_decide_eq_true_2 by done. by rewrite E. }
      rewrite E in HC. cbn in HC. split; [|exact HC]. done.
    - left. split; [done|]. split.
      { rewrite Hlook, move_tableau_lookup, Htgt. cbn.
        rewrite bool_decide_eq_false_2 by done.
        rewrite bool_decide_eq_true_2 by done. by rewrite E. }
      rewrite E in HC. cbn in HC. by rewrite app_nil_r in HC. }
  destruct (checkCompletedSequences_frame now g1) as (-> & -> & _ & -> & -> & _).
  done.
Qed.

Lemma moveCards_effect_witness :
  reachable demo_game ∧ legal_move demo_game 6
  ∧ ∃ g', moveCards (fun _ => 0) 6 demo_game = Ok g'
      ∧ stock (state g') = stock (state demo_game)
      ∧ moves (state g') = moves (state demo_game) + 1.
Proof.
  split; [exact demo_game_reachable|]. split; [exact demo_game_legal_move|].
  destruct (moveCards_effect (fun _ => 0) 6 demo_game demo_game_reachable
              demo_game_legal_move)
    as (sp & ci & src & tgt & run & g' & _ & _ & _ & _ & _ & _ & Hm & _ & _ & _
        & Hs & Hmv & _).
  by exists g'.
Defined.

(** ** A won game *)

Lemma discovered_moves_empty s :
  Forall (fun p => cards p = []) (tableau s) → discovered_moves s = [].
Proof.
  intros Hall. apply elem_of_nil_inv. intros m Hm.
  apply discovered_moves_elem in Hm as (src & tgt & first & Hc & _).
  destruct Hc as (Hsrc & Hfirst & _).
  eapply Forall_lookup_1 in Hall; [|exact Hsrc]. cbn in Hall.
  by rewrite Hall in Hfirst.
Qed.

(** X21: when every pile and the stock are empty, as in a reachable
    game that is won, the hint advisor proposes nothing, no deal is
    possible, [showHint] leaves no hint and [hasValidMoves] is false;
    yet [noMovesLeft] is not raised if the game is won, since it is
    never raised for a won game. *)
Theorem empty_table_quiet (g : SpiderSolitaireGame) :
  Forall (fun p => cards p = []) (tableau (state g)) → stock (state g) = [] →
  findMeaningfulMoves (state g) = []
  ∧ canDeal g = false
  ∧ showHint g = None
  ∧ hasValidMoves (state g) = false
  ∧ (gameWon (state g) = true → noMovesLeft g = false).
Proof.
  intros Hall Hstock.
  assert (findMeaningfulMoves (state g) = []) as Hnone.
  { unfold findMeaningfulMoves. by rewrite discovered_moves_empty. }
  assert (canDeal g = false) as Hcan.
  { unfold canDeal. rewrite Hstock. done. }
  split; [done|]. split; [done|].
  split; [unfold showHint; by rewrite Hnone, Hcan|].
  split; [rewrite hasValidMoves_canDeal; by rewrite Hnone, Hcan|].
  intros Hwon. unfold noMovesLeft. by rewrite Hwon.
Qed.

Lemma empty_table_quiet_witness :
  Forall (fun p => cards p = []) (tableau (state won_game))
  ∧ stock (state won_game) = []
  ∧ gameWon (state won_game) = true
  ∧ showHint won_game = None
  ∧ hasValidMoves (state won_game) = false
  ∧ noMovesLeft won_game = false.
Proof.
  assert (Forall (fun p => cards p = []) (tableau (state won_game))) as Hall.
  { repeat constructor. }
  split; [exact Hall|]. split; [reflexivity|]. split; [reflexivity|].
  destruct (empty_table_quiet won_game Hall eq_refl) as (_ & _ & H1 & H2 & H3).
  split; [exact H1|]. split; [exact H2|]. exact (H3 eq_refl).
Defined.

(** ** What a deal does *)

(** X22: a deal that [canDeal] allows, in a reachable game, puts the
    first 10 cards of the stock, face up, on the 10 piles in order,
    removes them from the stock, counts as a move and adds one record
    to the history.  Every pile that then ends with a completed
    sequence loses its top 13 cards, the card under them is turned face
    up, and [completedSequences] gains one record per such pile. *)
Theorem deal_effect (now : nat → Z) (g : SpiderSolitaireGame) :
  reachable g → canDeal g = true →
  ∃ g', deal now g = Ok g'
    ∧ stock (state g') = drop 10 (stock (state g))
    ∧ moves (state g') = moves (state g) + 1
    ∧ length (history g') = S (length (history g))
    ∧ selectedPile g' = None ∧ selectedCardIndex g' = None
    ∧ (∀ i pile, tableau (state g) !! i = Some pile →
         ∃ card, stock (state g) !! i = Some card
           ∧ ((no_window (cards pile ++ [setFaceUp true card])
               ∧ tableau (state g') !! i
                 = Some (mkPile (cards pile ++ [setFaceUp true card])))
              ∨ ∃ s,
                  window_at (cards pile ++ [setFaceUp true card])
                            (length (cards pile) - 12) s
                  ∧ tableau (state g') !! i
                    = Some (mkPile (flipTop (take (length (cards pile) - 12)
                                                  (cards pile))).1)))
    ∧ ∃ new,
        completedSequences (state g') = completedSequences (state g) ++ new
        ∧ length new
          = length (filter (fun p => completed (checkForCompletedSequence p) = true)
                           (deal_onto (tableau (state g)) (stock (state g)))).
Proof.
  intros [Hwf _ _ _]%reachable_ok Hcan.
  pose proof Hwf as [_ _ _ Hlen _ _].
  pose proof (canDeal_true g Hcan) as H10.
  exists (checkCompletedSequences now (dealt_game g)).
  split.
  { unfold deal. rewrite Hcan. cbn [negb].
    rewrite dealFromStock_Ok; [done|done|lia]. }
  pose proof (checkCompletedSequences_tableau now (dealt_game g)) as HT.
  pose proof (checkCompletedSequences_completed now (dealt_game g)) as HC.
  cbn [dealt_game state dealt_state tableau completedSequences] in HT, HC.
  destruct (checkCompletedSequences_frame now (dealt_game g))
    as (-> & -> & _ & -> & -> & _).
  rewrite checkCompletedSequences_history_length.
  cbn [dealt_game state dealt_state stock moves history selectedPile selectedCardIndex].
  split; [done|]. split; [done|].
  split; [rewrite length_app; cbn; lia|]. split; [done|]. split; [done|].
  split.
  - intros i pile Hi.
    destruct (lookup_lt_is_Some_2 (stock (state g)) i) as [card Hc].
    { apply lookup_lt_Some in Hi. lia. }
    exists card. split; [done|].
    pose proof (deal_onto_lookup _ _ _ _ _ Hi Hc) as Hd.
    rewrite HT, list_lookup_fmap, list_lookup_imap, Hd. cbn.
    pose proof (dealt_state_pre (state g) Hwf H10) as [_ _ Hpre _ _ _].
    cbn [dealt_state tableau] in Hpre.
    eapply Forall_lookup_1 in Hpre as [_ Htop]; [|exact Hd]. cbn [cards] in Htop.
    destruct (check_pile_cases now i (mkPile (cards pile ++ [setFaceUp true card])))
      as [(k & s & Hw & _ & ->)|[Hnw ->]]; cbn [cards] in *; [right|left; by split].
    pose proof (Htop k s Hw) as Hk. rewrite length_app in Hk. cbn in Hk.
    assert (k = (length (cards pile) - 12)%nat) as -> by lia.
    exists s. split; [done|]. cbn. rewrite take_app_le by lia. done.
  - eexists. split; [exact HC|]. apply (completed_count now _ 0).
Qed.

Lemma deal_effect_witness :
  reachable demo_game ∧ canDeal demo_game = true
  ∧ ∃ g', deal (fun _ => 0) demo_game = Ok g'
      ∧ stock (state g') = drop 10 (stock (state demo_game))
      ∧ moves (state g') = moves (state demo_game) + 1.
Proof.
  assert (canDeal demo_game = true) as Hcan by (vm_compute; reflexivity).
  split; [exact demo_game_reachable|]. split; [exact Hcan|].
  destruct (deal_effect (fun _ => 0) demo_game demo_game_reachable Hcan)
    as (g' & Hd & Hs & Hm & _).
  by exists g'.
Defined.
